(** * yimt.core: vocabulary and sequence-to-sequence decoding

    A shallow embedding of [yimt/core/data/vocab.py] (class [Vocab]) and of
    the list-level parts of [yimt/core/models/sequence_to_sequence.py],
    with the properties of these functions proved over the embedding.

    Python values are modelled as follows.
    - [int] is [Z]; a length or an id, which Python never makes negative, is
      [nat].
    - [str] is [string]; [tf.compat.as_text] is the identity on it.
    - a frequency is an [int] or [float("inf")]: type [freq]; the
      [min_frequency] of [prune] is taken from the same type.
    - [dict] is [gmap], [list] is [list].
    - a raised exception is the [Raise] case of [result]. *)

From Stdlib Require Import QArith Ascii String.
From stdpp Require Import gmap strings list sorting pretty.

Local Open Scope Z_scope.
Local Open Scope nat_scope.
Set Warnings "-clear-no-such-hyp".

(** ** Python runtime: exceptions, results, sequence primitives *)

Inductive exn : Type :=
| IndexError
| ValueError
| TypeError
| ZeroDivisionError
| NotFoundError
| InvalidArgumentError.

Inductive result (A : Type) : Type :=
| Ok (a : A)
| Raise (e : exn).
Arguments Ok {A} a.
Arguments Raise {A} e.

Global Instance result_ret : MRet result := fun A a => Ok a.
Global Instance result_bind : MBind result := fun A B f m =>
  match m with
  | Ok a => f a
  | Raise e => Raise e
  end.

(** [l[z]] on a Python list: a negative index counts from the end, an index
    outside [-len(l) .. len(l) - 1] raises [IndexError]. *)
Definition py_getitem {A} (l : list A) (z : Z) : result A :=
  let i := if (z <? 0)%Z then (Z.of_nat (length l) + z)%Z else z in
  if (i <? 0)%Z then Raise IndexError
  else match l !! Z.to_nat i with
       | Some x => Ok x
       | None => Raise IndexError
       end.

(** [l.insert(i, x)] for [i >= 0]: [x] goes before position [i], or at the
    end when [i >= len(l)]. *)
Definition py_list_insert {A} (i : nat) (x : A) (l : list A) : list A :=
  take i l ++ x :: drop i l.

(** The characters the loader looks at. *)
Definition LF : ascii := "010"%char.
Definition CR : ascii := "013"%char.
Definition TAB : ascii := "009"%char.

(** ["\r\n"], the argument of [rstrip] in [load]. *)
Definition CRLF : string := String CR (String LF EmptyString).

Fixpoint char_in (c : ascii) (chars : string) : bool :=
  match chars with
  | EmptyString => false
  | String d chars' => bool_decide (c = d) || char_in c chars'
  end.

(** [s.rstrip(chars)]: drops the longest suffix made of characters of
    [chars]. *)
Fixpoint rstrip (chars : string) (s : string) : string :=
  match s with
  | EmptyString => EmptyString
  | String c s' =>
      match rstrip chars s' with
      | EmptyString =>
          if char_in c chars then EmptyString else String c EmptyString
      | r => String c r
      end
  end.

(** [s.split(sep)] for a one-character separator; never empty. *)
Fixpoint split_char (sep : ascii) (s : string) : list string :=
  match s with
  | EmptyString => [EmptyString]
  | String c s' =>
      if bool_decide (c = sep) then EmptyString :: split_char sep s'
      else match split_char sep s' with
           | [] => [String c EmptyString]
           | w :: ws => String c w :: ws
           end
  end.

(** What the line reader of [tf.io.gfile.GFile] leaves of a text: it does
    not copy a carriage return, wherever it stands. *)
Fixpoint drop_cr (content : string) : string :=
  match content with
  | EmptyString => EmptyString
  | String c rest =>
      if bool_decide (c = CR) then drop_cr rest else String c (drop_cr rest)
  end.

(** The lines of a text, each with its terminating line feed; a last line
    without line feed is a line when it is not empty. *)
Fixpoint splitlines (content : string) : list string :=
  match content with
  | EmptyString => []
  | String c rest =>
      if bool_decide (c = LF) then String c EmptyString :: splitlines rest
      else match splitlines rest with
           | [] => [String c EmptyString]
           | l :: ls => String c l :: ls
           end
  end.

(** Iterating over an open [tf.io.gfile.GFile]: the lines of its content,
    read without the carriage returns. *)
Definition readlines (content : string) : list string :=
  splitlines (drop_cr content).

(** [range(start, stop, -1)] for [stop >= 0]: [start, start-1, ..., stop+1]. *)
Definition range_down (start : Z) (stop : nat) : list nat :=
  rev (seq (S stop) (Z.to_nat (start - Z.of_nat stop))).

(** [sorted(l, key=key, reverse=True)]: descending in [key], and stable: of
    two elements with keys that are not in the [<] relation, the one that
    comes first in [l] comes first in the result. Written as the insertion
    sort that moves an element right only past strictly larger keys. *)
Fixpoint insert_reverse {A K} (lt : K → K → bool) (key : A → K)
    (x : A) (l : list A) : list A :=
  match l with
  | [] => [x]
  | y :: l' =>
      if lt (key x) (key y) then y :: insert_reverse lt key x l'
      else x :: y :: l'
  end.

Definition sorted_reverse {A K} (lt : K → K → bool) (key : A → K)
    (l : list A) : list A :=
  foldr (insert_reverse lt key) [] l.

(** What [sorted(l, key=key, reverse=True)] promises for two elements [a]
    before [b] of its result, when [l] lists its elements by [R]: the key of
    [b] is not larger, and [a] has a larger key or was before [b] in [l]. *)
Definition key_then {A K} (lt : K → K → bool) (key : A → K)
    (R : A → A → Prop) (a b : A) : Prop :=
  lt (key a) (key b) = false ∧ (lt (key b) (key a) = true ∨ R a b).

(** ** Frequencies *)

(** The entries of [Vocab._frequency]: [1] and its successors, or
    [float("inf")] for special tokens. *)
Inductive freq : Type :=
| Fin (n : Z)
| PInf.

Global Instance freq_eq_dec : EqDecision freq.
Proof. solve_decision. Defined.
Global Instance freq_inhabited : Inhabited freq := populate (Fin 0).

(** Python's [a < b] on these values. *)
Definition freq_lt (a b : freq) : bool :=
  match a, b with
  | Fin x, Fin y => (x <? y)%Z
  | Fin _, PInf => true
  | PInf, _ => false
  end.

(** [a += 1]; [inf + 1] is [inf]. *)
Definition freq_incr (a : freq) : freq :=
  match a with
  | Fin x => Fin (x + 1)
  | PInf => PInf
  end.

(** ** The vocabulary (vocab.py) *)

Module Vocab.

Record t : Type := mk {
  _token_to_id : gmap string nat;
  _id_to_token : list string;
  _frequency : list freq
}.

(** [Vocab()] before the loop over [special_tokens]. *)
Definition empty : t := mk ∅ [] [].

(** The loop of [__init__]: [enumerate(special_tokens)] from [index]. *)
Fixpoint init_loop (self : t) (index : nat) (special_tokens : list string) : t :=
  match special_tokens with
  | [] => self
  | token :: rest =>
      init_loop
        (mk (<[token := index]> (_token_to_id self))
            (py_list_insert index token (_id_to_token self))
            (py_list_insert index PInf (_frequency self)))
        (S index) rest
  end.

(** [Vocab.__init__(special_tokens=None)]. *)
Definition init (special_tokens : option (list string)) : t :=
  match special_tokens with
  | None => empty
  | Some sp => init_loop empty 0 sp
  end.

(** [Vocab.size]. *)
Definition size (self : t) : nat := length (_id_to_token self).

(** [Vocab.add]. *)
Definition add (self : t) (token : string) : result t :=
  match _token_to_id self !! token with
  | None =>
      let index := size self in
      Ok (mk (<[token := index]> (_token_to_id self))
             (_id_to_token self ++ [token])
             (_frequency self ++ [Fin 1]))
  | Some i =>
      match _frequency self !! i with
      | Some f =>
          Ok (mk (_token_to_id self) (_id_to_token self)
                 (<[i := freq_incr f]> (_frequency self)))
      | None => Raise IndexError
      end
  end.

(** The argument of [lookup]: a string or an index. *)
Inductive identifier : Type :=
| IdStr (s : string)
| IdInt (z : Z).

(** What [lookup] returns: an id, a token, or the caller's [default]. *)
Inductive found (D : Type) : Type :=
| FoundId (i : nat)
| FoundToken (s : string)
| Default (d : D).
Arguments FoundId {D} i.
Arguments FoundToken {D} s.
Arguments Default {D} d.

(** [Vocab.lookup]. [value] stays [None] when the string is not a key or
    when [identifier < self.size] is false. *)
Definition lookup {D} (self : t) (ident : identifier) (default : D)
  : result (found D) :=
  match ident with
  | IdStr s =>
      match _token_to_id self !! s with
      | Some i => Ok (FoundId i)
      | None => Ok (Default default)
      end
  | IdInt z =>
      if (z <? Z.of_nat (size self))%Z then
        s ← py_getitem (_id_to_token self) z; Ok (FoundToken s)
      else Ok (Default default)
  end.

(** The files of the file system, by path. *)
Abbreviation files := (gmap string string).

(** [Vocab.serialize]: the writes append to the file opened with mode "w".
    A [GFile] creates its file at the first write, so that a vocabulary
    without a token leaves the file system as it is. *)
Definition serialize (self : t) (path : string) (fs : files) : files :=
  match _id_to_token self with
  | [] => fs
  | _ =>
      <[path := fold_left (λ out token, out +:+ token +:+ String LF EmptyString)
                          (_id_to_token self) EmptyString]> fs
  end.

(** A call of [tf.get_logger().warning] in [load]:
    "Duplicate token '%s' in vocabulary %s at line %d". *)
Record warning : Type := Warning {
  w_token : string;
  w_path : string;
  w_line : nat
}.

(** The tokens SentencePiece reserves. *)
Definition sentencepiece_reserved (token : string) : bool :=
  bool_decide (token = "<unk>") || bool_decide (token = "<s>")
  || bool_decide (token = "</s>").

(** The format step of the loop of [load] on one stripped line: the token to
    store, [None] for [continue], [ValueError] when [token, _ = ...] does not
    unpack into two fields. *)
Definition read_token (file_format : string) (token : string)
  : result (option string) :=
  if bool_decide (file_format = "sentencepiece") then
    match split_char TAB token with
    | [token; _] =>
        if sentencepiece_reserved token then Ok None else Ok (Some token)
    | _ => Raise ValueError
    end
  else Ok (Some token).

(** The loop of [load] over [enumerate(vocab)], from line index [i]; [log]
    collects the warnings. *)
Fixpoint load_loop (file_format path : string) (i : nat) (lines : list string)
    (self : t) (log : list warning) : result (t * list warning) :=
  match lines with
  | [] => Ok (self, log)
  | line :: rest =>
      let token := rstrip CRLF line in
      match read_token file_format token with
      | Raise e => Raise e
      | Ok None => load_loop file_format path (S i) rest self log
      | Ok (Some token) =>
          match _token_to_id self !! token with
          | Some _ =>
              load_loop file_format path (S i) rest self
                        (log ++ [Warning token path (i + 1)])
          | None =>
              load_loop file_format path (S i) rest
                (mk (<[token := length (_id_to_token self)]> (_token_to_id self))
                    (_id_to_token self ++ [token])
                    (_frequency self ++ [Fin 1]))
                log
          end
      end
  end.

(** [Vocab.load]; the result carries the warnings that were logged. *)
Definition load (self : t) (path file_format : string) (fs : files)
  : result (t * list warning) :=
  if negb (bool_decide (file_format = "default")
           || bool_decide (file_format = "sentencepiece"))
  then Raise ValueError
  else match fs !! path with
       | None => Raise NotFoundError
       | Some content => load_loop file_format path 0 (readlines content) self []
       end.

(** [Vocab.from_file]. *)
Definition from_file (path file_format : string) (fs : files)
  : result (t * list warning) :=
  load (init None) path file_format fs.

(** The first loop of [prune]: [i] runs over [range(new_size - 1, 0, -1)],
    built once from the initial [new_size]. *)
Fixpoint discard_loop (self : t) (min_frequency : freq) (sorted_ids : list nat)
    (idxs : list nat) (new_size : nat) : nat :=
  match idxs with
  | [] => new_size
  | i :: rest =>
      let index := sorted_ids !!! i in
      if freq_lt (_frequency self !!! index) min_frequency
      then discard_loop self min_frequency sorted_ids rest (new_size - 1)
      else new_size
  end.

(** The second loop of [prune], [i] over [range(new_size)]. *)
Fixpoint fill_loop (self : t) (sorted_ids : list nat) (idxs : list nat)
    (new_vocab : t) : t :=
  match idxs with
  | [] => new_vocab
  | i :: rest =>
      let index := sorted_ids !!! i in
      let token := _id_to_token self !!! index in
      let frequency := _frequency self !!! index in
      fill_loop self sorted_ids rest
        (mk (<[token := i]> (_token_to_id new_vocab))
            (_id_to_token new_vocab ++ [token])
            (_frequency new_vocab ++ [frequency]))
  end.

(** [Vocab.prune]. The key function reads [self._frequency[k]] for every
    [k] of [range(self.size)], which raises [IndexError] exactly when
    [_frequency] is shorter than [_id_to_token]; past that, every index the
    body uses is below [self.size], so the reads cannot fail. *)
Definition prune (self : t) (max_size : Z) (min_frequency : freq) : result t :=
  if length (_frequency self) <? size self then Raise IndexError
  else
    let sorted_ids :=
      sorted_reverse freq_lt (λ k, _frequency self !!! k) (seq 0 (size self)) in
    let new_size := length sorted_ids in
    let new_size :=
      discard_loop self min_frequency sorted_ids
                   (range_down (Z.of_nat new_size - 1) 0) new_size in
    let new_size :=
      if (0 <? max_size)%Z
      then Z.to_nat (Z.min (Z.of_nat new_size) max_size)
      else new_size in
    Ok (fill_loop self sorted_ids (seq 0 new_size) empty).

(** ["averyunlikelytoken%d" % i]. *)
Definition filler (i : nat) : string := "averyunlikelytoken" +:+ pretty i.

(** The loop of [pad_to_multiple], with [fuel] bounding the iterations
    ([None]: fuel exhausted). Python's [%] has the sign of the divisor, as
    [Z.modulo], and raises on a zero divisor. *)
Fixpoint pad_loop (fuel : nat) (self : t) (multiple num_oov_buckets : Z)
    (i : nat) : option (result t) :=
  match fuel with
  | 0 => None
  | S fuel' =>
      if bool_decide (multiple = 0%Z) then Some (Raise ZeroDivisionError)
      else if bool_decide
                ((Z.of_nat (size self) + num_oov_buckets) `mod` multiple ≠ 0)%Z
      then match add self (filler i) with
           | Ok self' => pad_loop fuel' self' multiple num_oov_buckets (S i)
           | Raise e => Some (Raise e)
           end
      else Some (Ok self)
  end.

(** [Vocab.pad_to_multiple]. *)
Definition pad_to_multiple (fuel : nat) (self : t)
    (multiple num_oov_buckets : Z) : option (result t) :=
  pad_loop fuel self multiple num_oov_buckets 0.

End Vocab.


(** ** Unknown-token replacement and the end of decoding
    (sequence_to_sequence.py) *)

Module Seq2Seq.

(** Attention weights are compared only, so a rational stands for each
    (finite) float. [Qlt_b x y] is [x < y]. *)
Definition Qlt_b (x y : Q) : bool := negb (Qle_bool y x).

(** Scan of one attention row: [best] is the index of the largest weight
    [best_w] seen so far; a later weight replaces it only when strictly
    larger. *)
Fixpoint argmax_from (best : nat) (best_w : Q) (i : nat) (row : list Q) : nat :=
  match row with
  | [] => best
  | w :: row' =>
      if Qlt_b best_w w then argmax_from i w (S i) row'
      else argmax_from best best_w (S i) row'
  end.

(** [tf.argmax] along an axis of one row; an empty axis is an error. *)
Definition argmax (row : list Q) : result nat :=
  match row with
  | [] => Raise InvalidArgumentError
  | w :: row' => Ok (argmax_from 0 w 1 row')
  end.

(** [tf.gather(params, indices)] within one batch element. *)
Definition gather_row {A} (params : list A) (indices : list nat)
  : result (list A) :=
  mapM (λ i, match params !! i with
             | Some x => Ok x
             | None => Raise InvalidArgumentError
             end) indices.

(** Element-wise combination of two or three tensors along their first axis;
    the sizes have to agree. *)
Fixpoint zip2_with {A B C} (f : A → B → result C)
    (la : list A) (lb : list B) : result (list C) :=
  match la, lb with
  | [], [] => Ok []
  | a :: la', b :: lb' =>
      c ← f a b; cs ← zip2_with f la' lb'; Ok (c :: cs)
  | _, _ => Raise InvalidArgumentError
  end.

Fixpoint zip3_with {A B C D} (f : A → B → C → result D)
    (la : list A) (lb : list B) (lc : list C) : result (list D) :=
  match la, lb, lc with
  | [], [], [] => Ok []
  | a :: la', b :: lb', c :: lc' =>
      d ← f a b c; ds ← zip3_with f la' lb' lc'; Ok (d :: ds)
  | _, _, _ => Raise InvalidArgumentError
  end.

(** [align_tokens_from_attention]: [tokens] is [B, T_s], [attention] is
    [B, T_t, T_s]; [tf.gather(tokens, alignment, axis=1, batch_dims=1)]. *)
Definition align_tokens_from_attention (tokens : list (list string))
    (attention : list (list (list Q))) : result (list (list string)) :=
  alignment ← mapM (mapM argmax) attention;
  zip2_with gather_row tokens alignment.

(** [tf.equal(target_tokens, unknown_token)]. *)
Definition tf_equal (target_tokens : list (list string))
    (unknown_token : string) : list (list bool) :=
  map (map (λ token, bool_decide (token = unknown_token))) target_tokens.

(** [tf.where(condition, x=x, y=y)] on three tensors of one shape
    [B, T_t]. *)
Definition tf_where {A} (condition : list (list bool)) (x y : list (list A))
  : result (list (list A)) :=
  zip3_with (zip3_with (λ c a b, Ok (if c : bool then a else b))) condition x y.

(** [replace_unknown_target]. *)
Definition replace_unknown_target (target_tokens source_tokens : list (list string))
    (attention : list (list (list Q))) (unknown_token : string)
  : result (list (list string)) :=
  aligned_source_tokens ← align_tokens_from_attention source_tokens attention;
  tf_where (tf_equal target_tokens unknown_token)
           aligned_source_tokens target_tokens.

(** The values of the [predictions] dictionary: tensors whose first two axes
    are the batch and the hypotheses of each input. *)
Inductive tensor : Type :=
| LogProbs (x : list (list Q))
| Text (x : list (list string))
| Tokens (x : list (list (list string)))
| Length (x : list (list Z))
| Alignment (x : list (list (list (list Q)))).

(** The second axis of a prediction: one entry per hypothesis. *)
Definition hypotheses_count (value : tensor) : list nat :=
  match value with
  | LogProbs x => length <$> x
  | Text x => length <$> x
  | Tokens x => length <$> x
  | Length x => length <$> x
  | Alignment x => length <$> x
  end.

(** [value[:, :n]] for [n > 0]. *)
Definition slice_hypotheses (n : Z) (value : tensor) : tensor :=
  match value with
  | LogProbs x => LogProbs (take (Z.to_nat n) <$> x)
  | Text x => Text (take (Z.to_nat n) <$> x)
  | Tokens x => Tokens (take (Z.to_nat n) <$> x)
  | Length x => Length (take (Z.to_nat n) <$> x)
  | Alignment x => Alignment (take (Z.to_nat n) <$> x)
  end.

(** The last block of [_dynamic_decode]: "Maybe restrict the number of
    returned hypotheses based on the user parameter". *)
Definition restrict_hypotheses (beam_size num_hypotheses : Z)
    (predictions : gmap string tensor) : result (gmap string tensor) :=
  if (0 <? num_hypotheses)%Z then
    if (beam_size <? num_hypotheses)%Z then Raise ValueError
    else Ok (slice_hypotheses num_hypotheses <$> predictions)
  else Ok predictions.

Section DynamicDecode.

(** What the collaborators of the model leave open: the id tensor of the
    TensorFlow Lite mode and its final reshaping (transpose, [[:, :1]],
    squeeze), the noise configuration and [_add_noise], and the in-graph
    detokenizer applied to the [batch_size * beam_size] hypotheses. *)
Context {Ids Noise : Type}.
Variable lite_output : Z → Ids → Ids.
Variable add_noise :
  list (list (list string)) → list (list Z) → Noise →
  result (list (list (list string)) * list (list Z)).
Variable detokenize :
  list (list (list string)) → list (list Z) → list (list string).

(** The entries of [params] that the end of decoding reads; [None] is an
    absent key ([decoding_noise]: also a false value). *)
Record params : Type := Params {
  beam_width : option Z;
  decoding_noise : option Noise;
  num_hypotheses : option Z
}.

(** [target_tokens] after the optional replacement of unknown tokens: the
    sampled ids when [self.tflite_mode] is set, else the tokens. *)
Inductive targets : Type :=
| LiteIds (ids : Ids)
| TargetTokens (tokens : list (list (list string))).

Inductive output : Type :=
| LiteOutput (ids : Ids)
| Predictions (predictions : gmap string tensor).

(** [_dynamic_decode] from [if self.tflite_mode:] (after the replacement of
    unknown tokens) to its end. *)
Definition dynamic_decode_finish (p : params) (in_graph : bool)
    (target_tokens : targets) (sampled_length : list (list Z))
    (log_probs : list (list Q))
    (alignment : option (list (list (list (list Q))))) : result output :=
  let beam_size := default 1%Z (beam_width p) in
  match target_tokens with
  | LiteIds ids => Ok (LiteOutput (lite_output beam_size ids))
  | TargetTokens target_tokens =>
      noised ←
        match decoding_noise p with
        | Some noise =>
            '(tokens, lengths) ← add_noise target_tokens sampled_length noise;
            Ok (tokens, lengths, None)
        | None => Ok (target_tokens, sampled_length, alignment)
        end;
      let '(target_tokens, sampled_length, alignment) := noised in
      let predictions : gmap string tensor :=
        {["log_probs" := LogProbs log_probs]} in
      let predictions :=
        if in_graph
        then <["text" := Text (detokenize target_tokens sampled_length)]>
               predictions
        else
          let predictions :=
            <["length" := Length sampled_length]>
              (<["tokens" := Tokens target_tokens]> predictions) in
          match alignment with
          | Some a => <["alignment" := Alignment a]> predictions
          | None => predictions
          end in
      predictions ←
        restrict_hypotheses beam_size (default 1%Z (num_hypotheses p))
                            predictions;
      Ok (Predictions predictions)
  end.

End DynamicDecode.

Section ComputeLoss.

(** The tensors and the functions of [yimt.core.utils.losses] stay
    abstract: [compute_loss] only routes its arguments to them. A float
    parameter that is only passed on is a rational. *)
Context {Logits Labels Attention Loss Normalizer MaxMargin : Type}.
Variable max_margin_loss : Logits → Labels → Logits → Q → MaxMargin.
Variable cross_entropy_sequence_loss :
  Logits → Labels → Q → bool → bool → bool → Loss * Normalizer * Normalizer.
Variable guided_alignment_cost : Attention → Labels → string → Q → Loss.
Variable loss_add : Loss → Loss → Loss.
Variable has_alignment : Labels → bool.

(** The entries of [params] read by [compute_loss]; [None]: absent. *)
Record loss_params : Type := LossParams {
  contrastive_learning : bool;
  max_margin_eta : option Q;
  label_smoothing : option Q;
  average_loss_in_time : option bool;
  mask_loss_outliers : option bool;
  guided_alignment_type : option string;
  guided_alignment_weight : option Q
}.

(** The [outputs] dictionary. *)
Record outputs : Type := Outputs {
  logits : Logits;
  noisy_logits : option Logits;
  attention : option Attention
}.

Inductive loss_result : Type :=
| MaxMarginLoss (loss : MaxMargin)
| SequenceLoss (loss : Loss) (loss_normalizer loss_token_normalizer : Normalizer).

(** [SequenceToSequence.compute_loss]; the second component tells whether
    the warning about missing attention vectors was logged. *)
Definition compute_loss (p : loss_params) (o : outputs) (labels : Labels)
    (training : bool) : loss_result * bool :=
  match noisy_logits o, contrastive_learning p with
  | Some noisy, true =>
      (MaxMarginLoss
         (max_margin_loss (logits o) labels noisy
                          (default (1 # 10)%Q (max_margin_eta p))),
       false)
  | _, _ =>
      let '(loss, loss_normalizer, loss_token_normalizer) :=
        cross_entropy_sequence_loss (logits o) labels
          (default 0%Q (label_smoothing p))
          (default false (average_loss_in_time p))
          (default false (mask_loss_outliers p))
          training in
      if training then
        match has_alignment labels, guided_alignment_type p with
        | true, Some cost_type =>
            match attention o with
            | None =>
                (SequenceLoss loss loss_normalizer loss_token_normalizer,
                 true)
            | Some a =>
                (SequenceLoss
                   (loss_add loss
                      (guided_alignment_cost a labels cost_type
                         (default 1%Q (guided_alignment_weight p))))
                   loss_normalizer loss_token_normalizer,
                 false)
            end
        | _, _ =>
            (SequenceLoss loss loss_normalizer loss_token_normalizer, false)
        end
      else (SequenceLoss loss loss_normalizer loss_token_normalizer, false)
  end.

End ComputeLoss.

End Seq2Seq.

(** ** Invariants and specification-level notions *)

Module VocabSpec.
Import Vocab.

(** What every method of [Vocab] maintains: the three containers are
    aligned, the dictionary points at its own tokens, and every listed token
    is a key. *)
Record wf (v : t) : Prop := Wf {
  wf_frequency : length (_frequency v) = length (_id_to_token v);
  wf_token_to_id : ∀ token i,
    _token_to_id v !! token = Some i → _id_to_token v !! i = Some token;
  wf_id_to_token : ∀ token,
    token ∈ _id_to_token v → is_Some (_token_to_id v !! token)
}.

(** The vocabularies obtained from [Vocab(special_tokens)] by the mutating
    methods. [add_from_text] is a sequence of [add]. *)
Inductive built_from (special_tokens : list string) : t → Prop :=
| built_init : built_from special_tokens (init (Some special_tokens))
| built_add v token v' :
    built_from special_tokens v → add v token = Ok v' →
    built_from special_tokens v'
| built_load v path file_format fs v' log :
    built_from special_tokens v → load v path file_format fs = Ok (v', log) →
    built_from special_tokens v'
| built_pad v fuel multiple num_oov_buckets v' :
    built_from special_tokens v →
    pad_to_multiple fuel v multiple num_oov_buckets = Some (Ok v') →
    built_from special_tokens v'.

(** The special tokens sit at the ids [0 .. k-1] with frequency [inf]. *)
Definition special_prefix (special_tokens : list string) (v : t) : Prop :=
  ∃ tokens frequencies,
    _id_to_token v = special_tokens ++ tokens
    ∧ _frequency v = replicate (length special_tokens) PInf ++ frequencies
    ∧ length tokens = length frequencies.

(** The order [sorted(range(size), key=frequency, reverse=True)] has to
    produce: larger frequency first, and among equal frequencies smaller id
    first. *)
Definition ranks_before (v : t) (a b : nat) : Prop :=
  let fa := _frequency v !!! a in
  let fb := _frequency v !!! b in
  freq_lt fb fa = true ∨ (fa = fb ∧ a < b).

(** The ids of [v] in that order. *)
Definition sorted_ids (v : t) : list nat :=
  sorted_reverse freq_lt (λ k, _frequency v !!! k) (seq 0 (size v)).

(** The cap of [prune]: [min(new_size, max_size)] when [max_size > 0]. *)
Definition cap (max_size : Z) (new_size : nat) : nat :=
  if (0 <? max_size)%Z
  then Z.to_nat (Z.min (Z.of_nat new_size) max_size)
  else new_size.

(** A token without a line feed that [rstrip("\r\n")] leaves alone. *)
Definition line_safe (token : string) : Prop :=
  char_in LF token = false ∧ rstrip CRLF token = token.

(** A token that a file of lines gives back: no line feed and no carriage
    return in it. *)
Definition file_safe (token : string) : Prop :=
  char_in LF token = false ∧ char_in CR token = false.

(** A line end of a text file: ["\n"] or ["\r\n"]. *)
Definition line_end (eol : string) : Prop :=
  eol = String LF EmptyString ∨ eol = CRLF.

(** The text of the lines [lines], each followed by [eol]. *)
Definition text_lines (eol : string) (tokens : list string) : string :=
  foldr (λ token rest, token +:+ eol +:+ rest) EmptyString tokens.

(** A text file: the lines [lines], each followed by the line end [eol],
    and then [last], a final line without line end (no such line when
    [last] is empty). *)
Definition text_file (eol : string) (lines : list string) (last : string)
  : string :=
  text_lines eol lines +:+ last.

(** The lines of that file, without their line ends. *)
Definition file_lines (lines : list string) (last : string) : list string :=
  lines ++ (if bool_decide (last = EmptyString) then [] else [last]).

(** The items of a list with their line numbers, from 1. *)
Definition numbered {A} (l : list A) : list (nat * A) :=
  imap (λ j x, (j + 1, x)) l.

(** A line of a SentencePiece vocabulary: the token, a tab, the score. *)
Definition sp_line (row : string * string) : string :=
  row.1 +:+ String TAB row.2.

Definition sp_row_ok (row : string * string) : Prop :=
  char_in TAB row.1 = false ∧ char_in TAB row.2 = false.

(** The entries (line number, token) that the lines [lines] of a
    vocabulary file stand for: in the format "default" every line is a
    token; in the format "sentencepiece" every line is a token and a score,
    and the lines of the three reserved tokens do not count. *)
Definition file_entries (file_format : string) (lines : list string)
    (entries : list (nat * string)) : Prop :=
  (file_format = "default" ∧ entries = numbered lines)
  ∨ (file_format = "sentencepiece"
     ∧ ∃ rows, lines = sp_line <$> rows ∧ Forall sp_row_ok rows
               ∧ entries = filter (λ e, sentencepiece_reserved e.2 = false)
                                  (numbered rows.*1)).

(** Number of occurrences of a character. *)
Fixpoint count_char (c : ascii) (s : string) : nat :=
  match s with
  | EmptyString => 0
  | String d s' => (if bool_decide (d = c) then 1 else 0) + count_char c s'
  end.

(** The filler names that [pad_to_multiple] has tried before iteration
    [i]. *)
Definition tried (i : nat) : gset string := list_to_set (filler <$> seq 0 i).

(** The entries of a vocabulary file: for each line that passes the format
    step of [load], its line number (from 1) and its token. A line that
    does not parse makes the whole read fail. *)
Fixpoint read_tokens (file_format : string) (i : nat) (lines : list string)
  : result (list (nat * string)) :=
  match lines with
  | [] => Ok []
  | line :: rest =>
      match read_token file_format (rstrip CRLF line) with
      | Raise e => Raise e
      | Ok None => read_tokens file_format (S i) rest
      | Ok (Some token) =>
          entries ← read_tokens file_format (S i) rest;
          Ok ((i + 1, token) :: entries)
      end
  end.

(** "Keep the first occurrence": the tokens that are not in [seen] and not
    earlier in the list. *)
Fixpoint first_occurrences (seen : list string) (tokens : list string)
  : list string :=
  match tokens with
  | [] => []
  | token :: rest =>
      if bool_decide (token ∈ seen) then first_occurrences seen rest
      else token :: first_occurrences (seen ++ [token]) rest
  end.

(** "Skip subsequent occurrences with a warning": one warning, with the line
    number, for each entry whose token is in [seen] or earlier in the
    list. *)
Fixpoint duplicate_warnings (path : string) (seen : list string)
    (entries : list (nat * string)) : list warning :=
  match entries with
  | [] => []
  | (line, token) :: rest =>
      if bool_decide (token ∈ seen)
      then Warning token path line :: duplicate_warnings path seen rest
      else duplicate_warnings path (seen ++ [token]) rest
  end.

End VocabSpec.

Module Seq2SeqSpec.

(** A tensor of shape [[B, T]], and one of shape [[B, T, S]]. *)
Definition shape2 {A} (B T : nat) (x : list (list A)) : Prop :=
  length x = B ∧ Forall (λ row, length row = T) x.

Definition shape3 {A} (B T S : nat) (x : list (list (list A))) : Prop :=
  length x = B ∧ Forall (shape2 T S) x.

(** [x[b, t]]. *)
Definition at2 {A} (x : list (list A)) (b t : nat) : option A :=
  row ← x !! b; row !! t.

(** [j] is a position of the largest weight of [row]. *)
Definition is_argmax (row : list Q) (j : nat) : Prop :=
  ∃ w, row !! j = Some w ∧ ∀ j' w', row !! j' = Some w' → (w' <= w)%Q.

End Seq2SeqSpec.

(** ** More of vocab.py *)

Module VocabExt.
Import Vocab.

(** The inner loop of [add_from_text]: [for token in tokens: self.add(token)]. *)
Fixpoint add_tokens (self : t) (tokens : list string) : result t :=
  match tokens with
  | [] => Ok self
  | token :: rest => self' ← add self token; add_tokens self' rest
  end.

(** The outer loop of [add_from_text] over the lines of the file;
    [tokenize] is [tokenizer.tokenize] or [str.split]. *)
Fixpoint add_lines (tokenize : string → list string) (lines : list string)
    (self : t) : result t :=
  match lines with
  | [] => Ok self
  | line :: rest =>
      let line := rstrip CRLF line in
      self' ← add_tokens self (tokenize line);
      add_lines tokenize rest self'
  end.

(** [Vocab.add_from_text]. [str_split] is Python's [str.split()]
    (separation at runs of whitespace), which the method uses when no
    tokenizer is given. *)
Definition add_from_text (str_split : string → list string) (self : t)
    (filename : string) (tokenizer : option (string → list string))
    (fs : files) : result t :=
  match fs !! filename with
  | None => Raise NotFoundError
  | Some text => add_lines (default str_split tokenizer) (readlines text) self
  end.

(** [Vocab.__contains__]: [self.lookup(token) is not None]; the default of
    [lookup] is [None], here [tt]. *)
Definition contains (self : t) (token : identifier) : result bool :=
  value ← lookup self token tt;
  Ok (match value with
      | Default _ => false
      | _ => true
      end).

End VocabExt.

Module ExtSpec.
Import Vocab VocabSpec.

(** Number of occurrences of [token] in a token stream. *)
Definition occurrences (token : string) (tokens : list string) : Z :=
  Z.of_nat (length (filter (λ t, t = token) tokens)).

(** A frequency after [n] more occurrences; [inf] stays [inf]. *)
Definition freq_plus (f : freq) (n : Z) : freq :=
  match f with
  | Fin x => Fin (x + n)
  | PInf => PInf
  end.

(** The frequency is at least 1. *)
Definition counted (f : freq) : Prop := freq_lt f (Fin 1) = false.

(** The line of a SentencePiece vocabulary has two tab-separated fields. *)
Definition two_fields (line : string) : Prop :=
  length (split_char TAB (rstrip CRLF line)) = 2.

(** A well-formed vocabulary without a repeated token whose frequencies are
    all at least 1. *)
Definition proper (v : t) : Prop :=
  wf v ∧ NoDup (_id_to_token v) ∧ Forall counted (_frequency v).

End ExtSpec.

(** ** More of sequence_to_sequence.py *)

Module Seq2SeqExt.
Import Seq2Seq.

(** [tf.roll(x, shift=-1, axis=-1)] on one row: every entry moves one place
    to the left and the first one becomes the last. *)
Definition roll_left {A} (row : list A) : list A :=
  match row with
  | [] => []
  | x :: rest => rest ++ [x]
  end.

(** One row of [tf.sequence_mask(lengths, maxlen, dtype)]: [maxlen]
    entries, 1 below the length and 0 from it on. *)
Definition sequence_mask_row (len : Z) (maxlen : nat) : list Q :=
  (λ s, if (Z.of_nat s <? len)%Z then 1%Q else 0%Q) <$> seq 0 maxlen.

(** Broadcasting of a binary operation along the first axis: the sizes
    agree, or one of them is 1. *)
Definition broadcast2 {A B C} (f : A → B → C) (la : list A) (lb : list B)
  : result (list C) :=
  if bool_decide (length la = length lb) then Ok (zip_with f la lb)
  else match la, lb with
       | [a], _ => Ok (f a <$> lb)
       | _, [b] => Ok ((λ a, f a b) <$> la)
       | _, _ => Raise InvalidArgumentError
       end.

(** [mask_attention]. [attention] is [B, T_t, T_s]; the mask has
    [maxlen = tf.shape(attention)[-1]], the length of each row, and
    [tf.expand_dims(source_mask, 1)] lets one mask row multiply every row
    of its batch element. The mask holds 1 and 0 only, and the product of
    a finite float with either is exact, so that the products of the
    rationals stand for it. *)
Definition mask_attention (attention : list (list (list Q)))
    (source_length : list Z) (source_has_bos source_has_eos : bool)
  : result (list (list (list Q))) :=
  if negb source_has_bos && negb source_has_eos then Ok attention
  else
    let attention :=
      if source_has_bos then map (map roll_left) attention else attention in
    broadcast2
      (λ rows len,
         map (λ row, zip_with Qmult row (sequence_mask_row len (length row)))
             rows)
      attention source_length.

End Seq2SeqExt.

Module Seq2SeqExtSpec.
Import Seq2SeqSpec.

(** [x[b, t, s]]. *)
Definition at3 {A} (x : list (list (list A))) (b t s : nat) : option A :=
  row ← at2 x b t; row !! s.

(** The position the entry [s] of a row comes from: one to the right, past
    the end back to the start, when the row was rolled. *)
Definition rolled_from (source_has_bos : bool) (Ts s : nat) : nat :=
  if source_has_bos then (if S s =? Ts then 0 else S s) else s.

End Seq2SeqExtSpec.

(** ** lr_schedules.py *)

Module LrSchedules.
Import Seq2Seq.

(** A signed integer of [bits] bits, as [step] and the results of the
    integer operations on it are. *)
Definition wrap (bits : Z) (z : Z) : Z :=
  ((z + 2 ^ (bits - 1)) `mod` 2 ^ bits - 2 ^ (bits - 1))%Z.

(** [tf.maximum] on learning rates, which are compared only. *)
Definition tf_maximum (x y : Q) : Q := if Qlt_b x y then y else x.

(** [ScheduleWrapper]: the wrapped schedule, as the function of its
    [__call__], and the three settings. *)
Record ScheduleWrapper : Type := mkScheduleWrapper {
  schedule : Z → Q;
  step_start : Z;
  step_duration : Z;
  minimum_learning_rate : Q
}.

(** [ScheduleWrapper.__init__] with its defaults. *)
Definition init (schedule : Z → Q) (step_start step_duration : option Z)
    (minimum_learning_rate : option Q) : ScheduleWrapper :=
  mkScheduleWrapper schedule (default 0%Z step_start)
    (default 1%Z step_duration) (default 0%Q minimum_learning_rate).

(** [ScheduleWrapper.__call__] on an integer tensor [step] of [bits] bits.
    [//] is the floor division, as [Z.div]; the integer division by zero is
    an error of the operation. *)
Definition call (bits : Z) (self : ScheduleWrapper) (step : Z) : result Q :=
  let step := Z.max (wrap bits (step - step_start self)) 0 in
  if bool_decide (step_duration self = 0%Z) then Raise InvalidArgumentError
  else
    let step := wrap bits (step `div` step_duration self) in
    let learning_rate := schedule self step in
    Ok (tf_maximum learning_rate (minimum_learning_rate self)).

End LrSchedules.

(** ** Properties of the runtime primitives *)

Section FreqOrder.

Lemma freq_lt_irrefl a : freq_lt a a = false.
Proof. destruct a; simpl; [apply Z.ltb_irrefl | done]. Qed.

Lemma freq_lt_trans a b c :
  freq_lt a b = true → freq_lt b c = true → freq_lt a c = true.
Proof.
  destruct a, b, c; simpl; try done.
  rewrite !Z.ltb_lt. lia.
Qed.

Lemma freq_lt_asym a b : freq_lt a b = true → freq_lt b a = false.
Proof.
  destruct a, b; simpl; try done.
  rewrite Z.ltb_lt, Z.ltb_ge. lia.
Qed.

Lemma freq_lt_total a b :
  freq_lt a b = false → freq_lt b a = false → a = b.
Proof.
  destruct a, b; simpl; try done.
  rewrite !Z.ltb_ge. intros. f_equal. lia.
Qed.

(** [a >= b] and [b >= c] give [a >= c]. *)
Lemma freq_ge_trans a b c :
  freq_lt a b = false → freq_lt b c = false → freq_lt a c = false.
Proof.
  destruct a, b, c; simpl; try done.
  rewrite !Z.ltb_ge. lia.
Qed.

Lemma freq_lt_ge_trans a b c :
  freq_lt a b = true → freq_lt c b = false → freq_lt a c = true.
Proof.
  destruct a, b, c; simpl; try done.
  rewrite Z.ltb_ge, !Z.ltb_lt. lia.
Qed.

Lemma freq_lt_inf a : freq_lt PInf a = false.
Proof. done. Qed.

End FreqOrder.

Section SortedReverse.
Context {A K : Type} (lt : K → K → bool) (key : A → K).

Lemma insert_reverse_perm x l : insert_reverse lt key x l ≡ₚ x :: l.
Proof.
  induction l as [|y l IH]; simpl; [done|].
  destruct (lt (key x) (key y)); [|done].
  rewrite IH. apply Permutation_swap.
Qed.

Lemma sorted_reverse_perm l : sorted_reverse lt key l ≡ₚ l.
Proof.
  induction l as [|x l IH]; simpl; [done|].
  rewrite insert_reverse_perm. by f_equiv.
Qed.

Lemma sorted_reverse_length l : length (sorted_reverse lt key l) = length l.
Proof. by rewrite sorted_reverse_perm. Qed.

(** An element whose key nothing exceeds stays in front. *)
Lemma insert_reverse_top x l :
  (∀ k, lt (key x) k = false) → insert_reverse lt key x l = x :: l.
Proof. intros Hx. destruct l as [|y l]; simpl; [done|]. by rewrite Hx. Qed.

Lemma sorted_reverse_top l1 l2 :
  (∀ x k, x ∈ l1 → lt (key x) k = false) →
  sorted_reverse lt key (l1 ++ l2) = l1 ++ sorted_reverse lt key l2.
Proof.
  unfold sorted_reverse.
  induction l1 as [|x l1 IH]; intros Hl1; simpl; [done|].
  rewrite IH.
  - apply insert_reverse_top. intros k. apply Hl1. left.
  - intros y k Hy. apply Hl1. by right.
Qed.

(** Stability and order at once. *)
Context (R : A → A → Prop).
Hypothesis lt_asym : ∀ a b, lt a b = true → lt b a = false.
Hypothesis lt_ge_trans : ∀ a b c,
  lt a b = false → lt b c = false → lt a c = false.

Lemma insert_reverse_sorted x l :
  Forall (R x) l → StronglySorted (key_then lt key R) l →
  StronglySorted (key_then lt key R) (insert_reverse lt key x l).
Proof.
  induction l as [|y l IH]; intros Hx Hl; simpl.
  - repeat constructor.
  - apply Forall_cons in Hx as [Hxy Hx].
    apply StronglySorted_inv in Hl as [Hl Hy].
    destruct (lt (key x) (key y)) eqn:E.
    + constructor; [by apply IH|].
      rewrite insert_reverse_perm. constructor; [|done].
      split; [by apply lt_asym | by left].
    + constructor; [by constructor|].
      constructor; [split; [done | by right]|].
      rewrite Forall_forall in Hy, Hx |- *. intros z Hz.
      destruct (Hy z Hz) as [Hyz _].
      split; [by eapply lt_ge_trans | right; by apply Hx].
Qed.

Lemma sorted_reverse_sorted l :
  StronglySorted R l →
  StronglySorted (key_then lt key R) (sorted_reverse lt key l).
Proof.
  induction l as [|x l IH]; intros Hl; simpl; [constructor|].
  apply StronglySorted_inv in Hl as [Hl Hx].
  apply insert_reverse_sorted; [|by apply IH].
  by rewrite sorted_reverse_perm.
Qed.

End SortedReverse.

Section ListFacts.
Context {A : Type}.

Lemma py_list_insert_end (x : A) l : py_list_insert (length l) x l = l ++ [x].
Proof.
  unfold py_list_insert. by rewrite firstn_all, drop_all.
Qed.

Lemma StronglySorted_weaken (R S : A → A → Prop) l :
  (∀ a b, R a b → S a b) → StronglySorted R l → StronglySorted S l.
Proof.
  intros HRS. induction 1 as [|a l Hl IH Ha]; constructor; [done|].
  eapply Forall_impl; [exact Ha | by auto].
Qed.

Lemma rev_seq_S a j : rev (seq a (S j)) = (a + j) :: rev (seq a j).
Proof. by rewrite seq_S, rev_app_distr. Qed.

Lemma range_down_0 n : range_down (Z.of_nat n - 1) 0 = rev (seq 1 (n - 1)).
Proof. unfold range_down. do 2 f_equal. lia. Qed.

Lemma lookup_total_seq `{!Inhabited A} (l : list A) k :
  k ≤ length l → (λ i, l !!! i) <$> seq 0 k = take k l.
Proof.
  intros Hk. apply list_eq. intros i.
  rewrite list_lookup_fmap.
  destruct (decide (i < k)) as [Hi|Hi].
  - rewrite lookup_seq_lt by done. simpl.
    rewrite lookup_take_lt by done.
    destruct (lookup_lt_is_Some_2 l i) as [x Hx]; [lia|].
    by rewrite (list_lookup_total_correct _ _ _ Hx).
  - rewrite lookup_seq_ge by lia. simpl.
    symmetry. apply lookup_ge_None. rewrite length_take. lia.
Qed.

Lemma fmap_lookup_total_take `{!Inhabited A} {B} (f : A → B) (l : list A) m :
  m ≤ length l → (λ i, f (l !!! i)) <$> seq 0 m = f <$> take m l.
Proof.
  intros Hm. rewrite <- (lookup_total_seq l m) by done.
  by rewrite <- list_fmap_compose.
Qed.

End ListFacts.

(** ** Properties of [Vocab.prune] *)

Section Prune.
Import Vocab VocabSpec.

Lemma sorted_ids_perm v : sorted_ids v ≡ₚ seq 0 (size v).
Proof. apply sorted_reverse_perm. Qed.

Lemma sorted_ids_length v : length (sorted_ids v) = size v.
Proof. by rewrite sorted_ids_perm, length_seq. Qed.

(** The ids come out in the order of [ranks_before]: by descending
    frequency, ties by ascending id. *)
Lemma sorted_ids_sorted v : StronglySorted (ranks_before v) (sorted_ids v).
Proof.
  eapply StronglySorted_weaken;
    [|apply (sorted_reverse_sorted freq_lt (λ k, _frequency v !!! k) Nat.lt)].
  - intros a b [Hab [Hba|Hlt]]; [by left|].
    unfold ranks_before; simpl.
    destruct (freq_lt (_frequency v !!! b) (_frequency v !!! a)) eqn:E;
      [by left|right].
    split; [by apply freq_lt_total | done].
  - apply freq_lt_asym.
  - apply freq_ge_trans.
  - clear. generalize 0. induction (size v) as [|n IH]; intros a; simpl.
    + constructor.
    + constructor; [apply IH|].
      apply Forall_forall. intros b Hb.
      apply elem_of_seq in Hb. lia.
Qed.

(** ... and no other list of the ids is in that order: the result of the
    sort does not depend on how the stable sort is programmed. *)
Lemma sorted_ids_unique v l :
  l ≡ₚ seq 0 (size v) → StronglySorted (ranks_before v) l → l = sorted_ids v.
Proof.
  intros Hperm Hsorted.
  apply (StronglySorted_unique_strong (ranks_before v));
    [|done|apply sorted_ids_sorted|by rewrite sorted_ids_perm].
  intros a b _ _ [Hab|[Hab Hlt]] [Hba|[Hba Hlt']]; try lia.
  - apply freq_lt_asym in Hab. congruence.
  - rewrite Hba, freq_lt_irrefl in Hab. done.
  - rewrite Hab, freq_lt_irrefl in Hba. done.
Qed.

Lemma discard_loop_spec v mf ids j :
  let r := discard_loop v mf ids (rev (seq 1 j)) (S j) in
  1 ≤ r ≤ S j
  ∧ (∀ i, r ≤ i ≤ j → freq_lt (_frequency v !!! (ids !!! i)) mf = true)
  ∧ (r = 1 ∨ freq_lt (_frequency v !!! (ids !!! (r - 1))) mf = false).
Proof.
  induction j as [|j IH].
  - simpl. split; [lia|]. split; [intros; lia | by left].
  - rewrite rev_seq_S. simpl in *.
    destruct (freq_lt (_frequency v !!! (ids !!! S j)) mf) eqn:E.
    + replace (j - 0) with j by lia.
      destruct IH as (Hr & Hbelow & Hlast).
      split; [lia|]. split; [|done].
      intros i Hi. destruct (decide (i = S j)) as [->|]; [done|].
      apply Hbelow. lia.
    + split; [lia|]. split; [intros; lia|].
      right. simpl. by replace (j - 0) with j by lia.
Qed.

Lemma fill_loop_spec v ids idxs new_vocab :
  fill_loop v ids idxs new_vocab =
  mk (foldl (λ m i, <[_id_to_token v !!! (ids !!! i) := i]> m)
            (_token_to_id new_vocab) idxs)
     (_id_to_token new_vocab
        ++ ((λ i, _id_to_token v !!! (ids !!! i)) <$> idxs))
     (_frequency new_vocab
        ++ ((λ i, _frequency v !!! (ids !!! i)) <$> idxs)).
Proof.
  revert new_vocab. induction idxs as [|i idxs IH]; intros nv; simpl.
  - destruct nv; simpl. by rewrite !app_nil_r.
  - rewrite IH. simpl. by rewrite <- !app_assoc.
Qed.

(** [prune] returns, and what its two loops compute: [r] entries of the
    sorted order pass the threshold scan, [cap max_size r] are copied. *)
Lemma prune_spec v max_size mf :
  length (_id_to_token v) ≤ length (_frequency v) →
  ∃ r v',
    prune v max_size mf = Ok v'
    ∧ _id_to_token v' =
        (λ k, _id_to_token v !!! k) <$> take (cap max_size r) (sorted_ids v)
    ∧ _frequency v' =
        (λ k, _frequency v !!! k) <$> take (cap max_size r) (sorted_ids v)
    ∧ _token_to_id v' =
        foldl (λ m i, <[_id_to_token v !!! (sorted_ids v !!! i) := i]> m)
              ∅ (seq 0 (cap max_size r))
    ∧ r ≤ size v
    ∧ (0 < size v → 1 ≤ r)
    ∧ (∀ i, r ≤ i < size v →
         freq_lt (_frequency v !!! (sorted_ids v !!! i)) mf = true)
    ∧ (r ≤ 1 ∨
         freq_lt (_frequency v !!! (sorted_ids v !!! (r - 1))) mf = false).
Proof.
  intros Hlen. unfold prune.
  destruct (Nat.ltb_spec (length (_frequency v)) (size v)) as [Hlt|_];
    [unfold size in Hlt; lia|].
  fold (sorted_ids v). rewrite sorted_ids_length, range_down_0.
  set (r := discard_loop v mf (sorted_ids v) (rev (seq 1 (size v - 1))) (size v)).
  fold (cap max_size r).
  assert (cap max_size r ≤ r) as Hcap.
  { unfold cap. destruct (0 <? max_size)%Z; lia. }
  assert (r ≤ size v
          ∧ (0 < size v → 1 ≤ r)
          ∧ (∀ i, r ≤ i < size v →
               freq_lt (_frequency v !!! (sorted_ids v !!! i)) mf = true)
          ∧ (r ≤ 1 ∨ freq_lt (_frequency v !!! (sorted_ids v !!! (r - 1))) mf
                     = false)) as (Hr & Hpos & Hbelow & Hlast).
  { subst r. destruct (size v) as [|j] eqn:Hn.
    - simpl. split; [lia|]. split; [lia|]. split; [intros; lia | left; lia].
    - simpl. replace (j - 0) with j by lia.
      destruct (discard_loop_spec v mf (sorted_ids v) j) as (H1 & H2 & H3).
      split; [lia|]. split; [lia|]. split.
      + intros i Hi. apply H2. lia.
      + destruct H3 as [->|H3]; [left; lia | by right]. }
  eexists r, _. split; [done|].
  rewrite fill_loop_spec. simpl.
  rewrite (fmap_lookup_total_take (λ k, _id_to_token v !!! k) (sorted_ids v))
    by (rewrite sorted_ids_length; lia).
  rewrite (fmap_lookup_total_take (λ k, _frequency v !!! k) (sorted_ids v))
    by (rewrite sorted_ids_length; lia).
  done.
Qed.

End Prune.

(** ** The invariants are established and kept *)

Section Invariants.
Import Vocab VocabSpec.

Lemma init_loop_spec v sp :
  _id_to_token (init_loop v (length (_id_to_token v)) sp)
    = _id_to_token v ++ sp
  ∧ (length (_frequency v) = length (_id_to_token v) →
     _frequency (init_loop v (length (_id_to_token v)) sp)
       = _frequency v ++ replicate (length sp) PInf).
Proof.
  revert v. induction sp as [|token sp IH]; intros v; simpl.
  - by rewrite !app_nil_r.
  - set (v1 := mk _ _ _).
    assert (_id_to_token v1 = _id_to_token v ++ [token]) as Htok.
    { subst v1. simpl. apply py_list_insert_end. }
    assert (S (length (_id_to_token v)) = length (_id_to_token v1)) as ->.
    { rewrite Htok, length_app. simpl. lia. }
    destruct (IH v1) as [IH1 IH2]. split.
    + rewrite IH1, Htok. by rewrite <- app_assoc.
    + intros Hlen.
      assert (_frequency v1 = _frequency v ++ [PInf]) as Hfr.
      { subst v1. simpl. rewrite <- Hlen. apply py_list_insert_end. }
      rewrite IH2, Hfr; [by rewrite <- app_assoc|].
      rewrite Hfr, Htok, !length_app. simpl. lia.
Qed.

Lemma init_special_prefix sp : special_prefix sp (init (Some sp)).
Proof.
  destruct (init_loop_spec empty sp) as [H1 H2].
  exists [], []. simpl in *. rewrite H1, H2 by done.
  by rewrite !app_nil_r.
Qed.

Lemma add_special_prefix sp v token v' :
  special_prefix sp v → add v token = Ok v' → special_prefix sp v'.
Proof.
  intros (tokens & fr & Htok & Hfr & Hlen). unfold add.
  destruct (_token_to_id v !! token) as [i|].
  - destruct (_frequency v !! i) as [f|] eqn:Hf; [|done].
    intros [= <-]. simpl.
    destruct (decide (i < length sp)) as [Hi|Hi].
    + exists tokens, fr. split; [done|]. split; [|done].
      rewrite Hfr in Hf |- *.
      rewrite lookup_app_l in Hf by (by rewrite length_replicate).
      apply lookup_replicate in Hf as [-> _]. simpl.
      rewrite insert_app_l by (by rewrite length_replicate).
      by rewrite insert_replicate.
    + exists tokens, (<[i - length sp := freq_incr f]> fr).
      split; [done|]. split; [|by rewrite length_insert].
      rewrite Hfr.
      rewrite insert_app_r_alt by (rewrite length_replicate; lia).
      by rewrite length_replicate.
  - intros [= <-]. simpl.
    exists (tokens ++ [token]), (fr ++ [Fin 1]).
    rewrite Htok, Hfr, <- !app_assoc, !length_app. simpl.
    split; [done|]. split; [done | lia].
Qed.

Lemma load_loop_special_prefix sp file_format path lines :
  ∀ i v log v' log',
    special_prefix sp v →
    load_loop file_format path i lines v log = Ok (v', log') →
    special_prefix sp v'.
Proof.
  induction lines as [|line lines IH]; intros i v log v' log' Hv; simpl.
  - by intros [= <- _].
  - destruct (read_token _ _) as [[token|]|]; [| |done].
    + destruct (_token_to_id v !! token); [by apply IH|].
      apply IH.
      destruct Hv as (tokens & fr & Htok & Hfr & Hlen). simpl.
      exists (tokens ++ [token]), (fr ++ [Fin 1]).
      rewrite Htok, Hfr, <- !app_assoc, !length_app. simpl.
      split; [done|]. split; [done | lia].
    + by apply IH.
Qed.

Lemma load_special_prefix sp v path file_format fs v' log :
  special_prefix sp v → load v path file_format fs = Ok (v', log) →
  special_prefix sp v'.
Proof.
  intros Hv. unfold load.
  destruct (negb _); [done|].
  destruct (fs !! path); [|done].
  by apply load_loop_special_prefix.
Qed.

Lemma pad_loop_special_prefix sp fuel :
  ∀ v multiple num_oov_buckets i v',
    special_prefix sp v →
    pad_loop fuel v multiple num_oov_buckets i = Some (Ok v') →
    special_prefix sp v'.
Proof.
  induction fuel as [|fuel IH]; intros v m b i v' Hv; simpl; [done|].
  destruct (bool_decide (m = 0%Z)); [done|].
  destruct (bool_decide _); [|by intros [= <-]].
  destruct (add v (filler i)) as [v1|] eqn:Hadd; [|done].
  apply IH. by eapply add_special_prefix.
Qed.

Lemma built_from_special_prefix sp v :
  built_from sp v → special_prefix sp v.
Proof.
  induction 1 as [|v token v' _ IH Hadd|v path ff fs v' log _ IH Hload
                 |v fuel m b v' _ IH Hpad].
  - apply init_special_prefix.
  - by eapply add_special_prefix.
  - by eapply load_special_prefix.
  - by eapply pad_loop_special_prefix.
Qed.

(** The dictionary that the second loop of [prune] builds. *)
Lemma foldl_insert_spec (g : nat → string) m :
  (∀ token i,
     foldl (λ (M : gmap string nat) i, <[g i := i]> M) ∅ (seq 0 m) !! token
       = Some i → i < m ∧ g i = token)
  ∧ (∀ i, i < m →
       is_Some (foldl (λ (M : gmap string nat) i, <[g i := i]> M) ∅ (seq 0 m)
                  !! g i)).
Proof.
  induction m as [|m [IH1 IH2]].
  - simpl. split; [|intros; lia]. intros token i. by rewrite lookup_empty.
  - rewrite seq_S, foldl_app. simpl. split.
    + intros token i. rewrite lookup_insert.
      case_decide as Hg.
      * intros [= <-]. split; [lia | done].
      * intros Hi. destruct (IH1 _ _ Hi). split; [lia | done].
    + intros i Hi. rewrite lookup_insert.
      case_decide; [by eexists|]. apply IH2.
      destruct (decide (i = m)) as [->|]; [done | lia].
Qed.

Lemma prune_wf v max_size mf v' :
  prune v max_size mf = Ok v' → wf v'.
Proof.
  intros Hprune.
  assert (length (_id_to_token v) ≤ length (_frequency v)) as Hle.
  { revert Hprune. unfold prune, size.
    destruct (Nat.ltb_spec (length (_frequency v)) (length (_id_to_token v)));
      [done | lia]. }
  destruct (prune_spec v max_size mf Hle)
    as (r & v1 & Hprune' & Hids & Hfreqs & Hmap & Hr & _).
  assert (v1 = v') as -> by congruence.
  set (m := cap max_size r) in *.
  assert (m ≤ length (sorted_ids v)) as Hm.
  { rewrite sorted_ids_length. subst m. unfold cap.
    destruct (0 <? max_size)%Z; lia. }
  rewrite <- (fmap_lookup_total_take (λ k, _id_to_token v !!! k)) in Hids
    by done.
  destruct (foldl_insert_spec
              (λ i, _id_to_token v !!! (sorted_ids v !!! i)) m) as [H1 H2].
  rewrite <- Hmap in H1, H2.
  split.
  - by rewrite Hids, Hfreqs, !length_fmap, length_take, length_seq, Nat.min_l.
  - intros token i Hi. destruct (H1 _ _ Hi) as [Hlt <-].
    rewrite Hids, list_lookup_fmap, lookup_seq_lt by done. done.
  - intros token Htoken. rewrite Hids in Htoken.
    apply list_elem_of_fmap in Htoken as (i & -> & Hi).
    apply elem_of_seq in Hi. apply H2. lia.
Qed.

End Invariants.

(** ** Special tokens survive pruning *)

Section SpecialTokens.
Import Vocab VocabSpec.

Lemma special_prefix_frequency sp v i :
  special_prefix sp v → i < length sp → _frequency v !!! i = PInf.
Proof.
  intros (tokens & fr & _ & Hfr & _) Hi.
  apply list_lookup_total_correct. rewrite Hfr.
  rewrite lookup_app_l by (by rewrite length_replicate).
  by apply lookup_replicate.
Qed.

Lemma special_prefix_sorted_ids sp v :
  special_prefix sp v →
  sorted_ids v =
    seq 0 (length sp)
    ++ sorted_reverse freq_lt (λ k, _frequency v !!! k)
         (seq (length sp) (size v - length sp)).
Proof.
  intros Hv. unfold sorted_ids.
  assert (size v = length sp + (size v - length sp)) as Hsz.
  { destruct Hv as (tokens & fr & Htok & _). unfold size.
    rewrite Htok, length_app. lia. }
  rewrite Hsz at 1. rewrite seq_app. simpl.
  apply sorted_reverse_top. intros x k Hx.
  apply elem_of_seq in Hx.
  rewrite (special_prefix_frequency sp) by (done || lia). done.
Qed.

(** C1: for a vocabulary constructed with special tokens (frequency
    [inf]) and then grown by [add], [load] and [pad_to_multiple], [prune]
    with [max_size = 0] and any [min_frequency] returns a vocabulary in
    which the special tokens are all present, at their original ids
    [0 .. k-1] and hence in their original order, still with frequency
    [inf], and each is a key of the new dictionary. *)
Theorem prune_keeps_special_tokens sp v (min_frequency : freq) :
  built_from sp v →
  ∃ v',
    prune v 0 min_frequency = Ok v'
    ∧ take (length sp) (_id_to_token v') = sp
    ∧ take (length sp) (_frequency v') = replicate (length sp) PInf
    ∧ (∀ token, token ∈ sp → is_Some (_token_to_id v' !! token)).
Proof.
  intros Hbuilt. apply built_from_special_prefix in Hbuilt as Hv.
  pose proof Hv as (tokens & fr & Htok & Hfr & Hlen).
  assert (length (_id_to_token v) ≤ length (_frequency v)) as Hle.
  { rewrite Htok, Hfr, !length_app, length_replicate. lia. }
  destruct (prune_spec v 0 min_frequency Hle)
    as (r & v' & Hprune & Hids & Hfreqs & _ & Hr & _ & Hbelow & _).
  unfold cap in *. simpl in *.
  assert (length sp ≤ size v) as Hk.
  { unfold size. rewrite Htok, length_app. lia. }
  assert (length sp ≤ r) as Hkr.
  { destruct (decide (length sp ≤ r)) as [|Hn]; [done|]. exfalso.
    specialize (Hbelow (length sp - 1)).
    rewrite (special_prefix_sorted_ids sp) in Hbelow by done.
    rewrite lookup_total_app_l in Hbelow by (rewrite length_seq; lia).
    rewrite lookup_total_seq_lt in Hbelow by lia. simpl in Hbelow.
    rewrite (special_prefix_frequency sp) in Hbelow by (done || lia).
    simpl in Hbelow. assert (false = true) by (apply Hbelow; lia). done. }
  assert (take (length sp) (take r (sorted_ids v)) = seq 0 (length sp))
    as Htake.
  { rewrite take_take, Nat.min_l by done.
    rewrite (special_prefix_sorted_ids sp) by done.
    rewrite take_app_length'; [done | by rewrite length_seq]. }
  assert (take (length sp) (_id_to_token v') = sp) as Hsp.
  { rewrite Hids, <- fmap_take, Htake.
    rewrite lookup_total_seq by (fold (size v); lia).
    rewrite Htok. by rewrite take_app_length. }
  exists v'. split; [done|]. split; [done|]. split.
  - rewrite Hfreqs, <- fmap_take, Htake.
    rewrite lookup_total_seq by (unfold size in Hk; lia).
    rewrite Hfr. rewrite take_app_length'; [done|].
    by rewrite length_replicate.
  - intros token Htoken. apply (wf_id_to_token v' (prune_wf _ _ _ _ Hprune)).
    rewrite <- (take_drop (length sp) (_id_to_token v')), Hsp.
    apply elem_of_app. by left.
Qed.

End SpecialTokens.

(** ** The threshold scan of [prune] stops above the first entry *)

Section PruneThreshold.
Import Vocab VocabSpec.

(** C10: pruning a non-empty vocabulary, with any [min_frequency] and with
    [max_size] zero or at least one, returns a non-empty vocabulary. Its
    entry 0 is the highest-ranked entry of the vocabulary, whatever the
    frequency of that entry: the entry [k] whose frequency no other
    reaches, except later entries of the same frequency; the scan never
    looks at sorted index 0. *)
Theorem prune_never_empty v (max_size : Z) (min_frequency : freq) :
  wf v → 0 < size v → (max_size = 0 ∨ 1 ≤ max_size)%Z →
  ∃ v' k token f,
    prune v max_size min_frequency = Ok v'
    ∧ 0 < size v'
    ∧ _id_to_token v !! k = Some token
    ∧ _frequency v !! k = Some f
    ∧ (∀ j g, j ≠ k → _frequency v !! j = Some g →
              freq_lt g f = true ∨ (g = f ∧ k < j))
    ∧ _id_to_token v' !! 0 = Some token
    ∧ _frequency v' !! 0 = Some f.
Proof.
  intros Hwf Hsize Hmax.
  assert (length (_id_to_token v) ≤ length (_frequency v)) as Hle
    by (rewrite (wf_frequency v Hwf); lia).
  destruct (prune_spec v max_size min_frequency Hle)
    as (r & v' & Hprune & Hids & Hfreqs & _ & Hr & Hpos & _).
  specialize (Hpos Hsize).
  assert (1 ≤ cap max_size r) as Hcap.
  { unfold cap. destruct Hmax as [->|Hmax]; simpl; [done|].
    destruct (Z.ltb_spec 0 max_size); lia. }
  pose proof (sorted_ids_sorted v) as Hsorted.
  pose proof (sorted_ids_perm v) as Hperm.
  destruct (sorted_ids v) as [|k ids] eqn:Hhead.
  { apply Permutation_length in Hperm. rewrite length_seq in Hperm.
    simpl in Hperm. lia. }
  assert (k < size v) as Hk.
  { assert (k ∈ seq 0 (size v)) as Hin by (rewrite <- Hperm; left).
    apply elem_of_seq in Hin. lia. }
  destruct (lookup_lt_is_Some_2 (_id_to_token v) k Hk) as [token Htoken].
  destruct (lookup_lt_is_Some_2 (_frequency v) k) as [f Hf];
    [unfold size in Hk; lia|].
  destruct (cap max_size r) as [|m]; [lia|]. simpl in Hids, Hfreqs.
  rewrite (list_lookup_total_correct _ _ _ Htoken) in Hids.
  rewrite (list_lookup_total_correct _ _ _ Hf) in Hfreqs.
  exists v', k, token, f. split; [done|].
  split; [unfold size; rewrite Hids; simpl; lia|].
  split; [done|]. split; [done|].
  split; [|by rewrite Hids, Hfreqs].
  intros j g Hjk Hg.
  assert (j ∈ ids) as Hin.
  { assert (j ∈ k :: ids) as Hj.
    { rewrite Hperm. apply elem_of_seq.
      apply lookup_lt_Some in Hg. rewrite (wf_frequency v Hwf) in Hg.
      unfold size. lia. }
    apply elem_of_cons in Hj as [?|?]; done. }
  apply StronglySorted_inv in Hsorted as [_ Hall].
  rewrite Forall_forall in Hall. specialize (Hall j Hin).
  unfold ranks_before in Hall. simpl in Hall.
  rewrite (list_lookup_total_correct _ _ _ Hf),
    (list_lookup_total_correct _ _ _ Hg) in Hall.
  destruct Hall as [?|[-> ?]]; [by left | by right].
Qed.

Lemma StronglySorted_lookup_lt {A} (R : A → A → Prop) l i j x y :
  StronglySorted R l → l !! i = Some x → l !! j = Some y → i < j → R x y.
Proof.
  intros Hl. revert i j. induction Hl as [|a l Hl IH Ha]; intros i j Hi Hj Hij.
  - done.
  - destruct j as [|j]; [lia|]. destruct i as [|i]; simpl in *.
    + injection Hi as <-. rewrite Forall_forall in Ha.
      apply Ha. by eapply list_elem_of_lookup_2.
    + apply (IH i j); [done..|lia].
Qed.

Lemma filter_Forall_id {A} (P : A → Prop) `{!∀ x, Decision (P x)} l :
  Forall P l → filter P l = l.
Proof.
  induction 1 as [|x l Hx _ IH]; [done|].
  by rewrite filter_cons_True, IH.
Qed.

Lemma filter_Forall_nil {A} (P : A → Prop) `{!∀ x, Decision (P x)} l :
  Forall (λ x, ¬ P x) l → filter P l = [].
Proof.
  induction 1 as [|x l Hx _ IH]; [done|].
  by rewrite filter_cons_False.
Qed.

(** Apart from sorted index 0 the scan is exact: when the first entry of
    the sorted order meets the threshold (or the vocabulary is empty), the
    result lists exactly the entries with frequency [>= min_frequency], in
    the sorted order, cut to [max_size] entries when [max_size > 0]. *)
Lemma prune_exact_above_threshold v (max_size : Z) (min_frequency : freq) :
  wf v →
  (size v = 0
   ∨ freq_lt (_frequency v !!! (sorted_ids v !!! 0)) min_frequency = false) →
  ∃ v',
    prune v max_size min_frequency = Ok v'
    ∧ let kept :=
        filter (λ k, freq_lt (_frequency v !!! k) min_frequency = false)
               (sorted_ids v) in
      let kept :=
        if (0 <? max_size)%Z then take (Z.to_nat max_size) kept else kept in
      _id_to_token v' = (λ k, _id_to_token v !!! k) <$> kept
      ∧ _frequency v' = (λ k, _frequency v !!! k) <$> kept.
Proof.
  intros Hwf Htop.
  assert (length (_id_to_token v) ≤ length (_frequency v)) as Hle
    by (rewrite (wf_frequency v Hwf); lia).
  destruct (prune_spec v max_size min_frequency Hle)
    as (r & v' & Hprune & Hids & Hfreqs & _ & Hr & Hpos & Hbelow & Hlast).
  exists v'. split; [done|]. simpl.
  set (P := λ k, freq_lt (_frequency v !!! k) min_frequency = false).
  pose proof (sorted_ids_length v) as Hlen.
  assert (filter P (sorted_ids v) = take r (sorted_ids v)) as Hfilter.
  { rewrite <- (take_drop r (sorted_ids v)) at 1. rewrite filter_app.
    assert (filter P (drop r (sorted_ids v)) = []) as ->.
    { apply filter_Forall_nil, Forall_forall. intros k Hk.
      apply list_elem_of_lookup in Hk as [i Hi]. rewrite lookup_drop in Hi.
      assert (r + i < size v) by (apply lookup_lt_Some in Hi; lia).
      specialize (Hbelow (r + i)).
      rewrite (list_lookup_total_correct _ _ _ Hi) in Hbelow.
      unfold P. rewrite Hbelow by lia. done. }
    rewrite app_nil_r. apply filter_Forall_id, Forall_forall. intros k Hk.
    apply list_elem_of_lookup in Hk as [i Hi].
    apply lookup_take_Some in Hi as [Hi Hir].
    assert (P (sorted_ids v !!! (r - 1))) as Hlast'.
    { destruct Hlast as [Hr1|Hlast]; [|done].
      assert (r = 1) as -> by lia. simpl.
      destruct Htop as [Hempty|Htop]; [|done].
      apply lookup_lt_Some in Hi. lia. }
    destruct (decide (i = r - 1)) as [->|Hne].
    { by rewrite (list_lookup_total_correct _ _ _ Hi) in Hlast'. }
    destruct (lookup_lt_is_Some_2 (sorted_ids v) (r - 1)) as [k' Hk']; [lia|].
    rewrite (list_lookup_total_correct _ _ _ Hk') in Hlast'.
    assert (ranks_before v k k') as Hrank.
    { eapply (StronglySorted_lookup_lt _ _ i (r - 1));
        [apply sorted_ids_sorted|done..|lia]. }
    unfold P in *. eapply freq_ge_trans; [|exact Hlast'].
    destruct Hrank as [Hgt|[-> _]]; [by apply freq_lt_asym|].
    apply freq_lt_irrefl. }
  assert ((if (0 <? max_size)%Z
           then take (Z.to_nat max_size) (filter P (sorted_ids v))
           else filter P (sorted_ids v))
          = take (cap max_size r) (sorted_ids v)) as ->; [|done].
  rewrite Hfilter. unfold cap. destruct (0 <? max_size)%Z eqn:E; [|done].
  rewrite take_take. f_equal. lia.
Qed.

(** C2, where the code departs from it: after [add("a")] on an empty
    vocabulary the only entry has frequency 1, and [prune] with
    [min_frequency = 2] still returns it. *)
Theorem prune_keeps_entry_below_min_frequency :
  ∃ v v',
    add empty "a" = Ok v
    ∧ _frequency v = [Fin 1]
    ∧ freq_lt (Fin 1) (Fin 2) = true
    ∧ prune v 0 (Fin 2) = Ok v'
    ∧ _id_to_token v' = ["a"]
    ∧ _frequency v' = [Fin 1]
    ∧ _token_to_id v' !! "a" = Some 0.
Proof. eexists _, _. repeat split; vm_compute; reflexivity. Qed.

End PruneThreshold.

(** ** [Vocab.lookup] *)

Section Lookup.
Import Vocab VocabSpec.
Context {D : Type}.
Implicit Types (v : t) (default : D).

Lemma lookup_token_known v token i default :
  _token_to_id v !! token = Some i →
  lookup v (IdStr token) default = Ok (FoundId i).
Proof. intros H. unfold lookup. by rewrite H. Qed.

Lemma lookup_token_unknown v token default :
  _token_to_id v !! token = None →
  lookup v (IdStr token) default = Ok (Default default).
Proof. intros H. unfold lookup. by rewrite H. Qed.

Local Ltac ltb_cases z :=
  cbv zeta; destruct (Z.ltb_spec z 0); try lia; cbv iota;
  repeat match goal with
         | |- context [(?a <? ?b)%Z] =>
             destruct (Z.ltb_spec a b); try lia; cbv iota
         end.

Lemma lookup_id_in_range v (z : Z) token default :
  (0 ≤ z)%Z → _id_to_token v !! Z.to_nat z = Some token →
  lookup v (IdInt z) default = Ok (FoundToken token).
Proof.
  intros Hz Htoken. apply lookup_lt_Some in Htoken as Hlt.
  unfold lookup, py_getitem, size. ltb_cases z.
  rewrite Htoken. reflexivity.
Qed.

Lemma lookup_id_too_large v (z : Z) default :
  (Z.of_nat (size v) ≤ z)%Z →
  lookup v (IdInt z) default = Ok (Default default).
Proof. intros Hz. unfold lookup. ltb_cases z. done. Qed.

(** A negative id within [-size .. -1] is an index from the end. *)
Lemma lookup_id_negative v (z : Z) token default :
  (z < 0)%Z →
  _id_to_token v !! Z.to_nat (Z.of_nat (size v) + z) = Some token →
  (0 ≤ Z.of_nat (size v) + z)%Z →
  lookup v (IdInt z) default = Ok (FoundToken token).
Proof.
  intros Hz Htoken Hge. unfold lookup, py_getitem. fold (size v). ltb_cases z.
  rewrite Htoken. reflexivity.
Qed.

(** Below [-size] the indexing raises. *)
Lemma lookup_id_below v (z : Z) default :
  (z < - Z.of_nat (size v))%Z →
  lookup v (IdInt z) default = Raise IndexError.
Proof.
  intros Hz. unfold lookup, py_getitem. fold (size v). ltb_cases z. done.
Qed.

(** C4, where the code departs from it: [lookup(-1, default)] returns the
    last token of a two-token vocabulary instead of [default], and raises
    [IndexError] on an empty vocabulary. *)
Theorem lookup_negative_id default :
  lookup (mk {["a" := 0; "b" := 1]} ["a"; "b"] [Fin 1; Fin 1]) (IdInt (-1))
         default = Ok (FoundToken "b")
  ∧ lookup empty (IdInt (-1)) default = Raise IndexError.
Proof. split; reflexivity. Qed.

End Lookup.

(** ** [Vocab.load]: duplicates, and the round trip with [serialize] *)

Section Load.
Import Vocab VocabSpec.

Lemma wf_empty : wf empty.
Proof.
  split; simpl; [done| |].
  - intros token i. by rewrite lookup_empty.
  - intros token Hin. by apply elem_of_nil in Hin.
Qed.

(** Appending a token under the next id, as [__init__], [add] and [load]
    do; the token may already be a key ([__init__] does not test): its
    entry of the dictionary then moves to the new id. *)
Lemma wf_append v token f :
  wf v →
  wf (mk (<[token := length (_id_to_token v)]> (_token_to_id v))
         (_id_to_token v ++ [token]) (_frequency v ++ [f])).
Proof.
  intros [Hlen Hmap Hlist]. split; simpl.
  - rewrite !length_app, Hlen. done.
  - intros token' i. rewrite lookup_insert. case_decide as Heq.
    + intros [= <-]. subst token'. by rewrite list_lookup_middle.
    + intros Hi. rewrite lookup_app_l; [by apply Hmap|].
      apply Hmap in Hi. by apply lookup_lt_Some in Hi.
  - intros token' Hin. rewrite lookup_insert. case_decide; [by eexists|].
    apply elem_of_app in Hin as [Hin|Hin]; [by apply Hlist|].
    apply list_elem_of_singleton in Hin. congruence.
Qed.

Lemma wf_known v token :
  wf v → token ∈ _id_to_token v ↔ is_Some (_token_to_id v !! token).
Proof.
  intros [_ Hmap Hlist]. split; [apply Hlist|].
  intros [i Hi]. apply Hmap in Hi. by eapply list_elem_of_lookup_2.
Qed.

Lemma load_loop_raises file_format path lines :
  ∀ i v log e,
    read_tokens file_format i lines = Raise e →
    load_loop file_format path i lines v log = Raise e.
Proof.
  induction lines as [|line lines IH]; intros i v log e; simpl; [done|].
  destruct (read_token file_format (rstrip CRLF line)) as [[token|]|e'];
    [| |by intros [= ->]].
  - destruct (read_tokens file_format (S i) lines) as [entries|e'] eqn:E;
      [done|].
    simpl. intros [= <-]. destruct (_token_to_id v !! token); by apply IH.
  - apply IH.
Qed.

(** The loop of [load] keeps first occurrences and warns about the
    others. *)
Lemma load_loop_spec file_format path lines :
  ∀ i v log entries,
    wf v →
    read_tokens file_format i lines = Ok entries →
    ∃ v',
      load_loop file_format path i lines v log
        = Ok (v', log ++ duplicate_warnings path (_id_to_token v) entries)
      ∧ wf v'
      ∧ _id_to_token v' =
          _id_to_token v ++ first_occurrences (_id_to_token v) entries.*2
      ∧ _frequency v' =
          _frequency v
          ++ replicate
               (length (first_occurrences (_id_to_token v) entries.*2))
               (Fin 1)
      ∧ (∀ token i, _token_to_id v !! token = Some i →
                    _token_to_id v' !! token = Some i).
Proof.
  induction lines as [|line lines IH]; intros i v log entries Hwf; simpl.
  - intros [= <-]. exists v. simpl. by rewrite !app_nil_r.
  - destruct (read_token file_format (rstrip CRLF line)) as [[token|]|e];
      [| |done].
    + destruct (read_tokens file_format (S i) lines) as [es|e] eqn:E;
        [|done].
      simpl. intros [= <-]. simpl.
      destruct (_token_to_id v !! token) as [k|] eqn:Hk.
      * rewrite bool_decide_eq_true_2
          by (apply (wf_known v token Hwf); by eexists).
        destruct (IH (S i) v (log ++ [Warning token path (i + 1)]) es Hwf E)
          as (v' & Hload & Hwf' & Htok & Hfr & Hkeep).
        exists v'. rewrite Hload, <- app_assoc. done.
      * rewrite bool_decide_eq_false_2.
        2:{ rewrite (wf_known v token Hwf), Hk. by intros [? ?]. }
        pose proof (wf_append v token (Fin 1) Hwf) as Hwf1.
        destruct (IH (S i) _ log es Hwf1 E)
          as (v' & Hload & Hwf' & Htok & Hfr & Hkeep).
        simpl in *. exists v'. rewrite Hload, Htok, Hfr, <- !app_assoc.
        do 4 (split; [done|]).
        intros token' k Hk'. apply Hkeep. rewrite lookup_insert_ne; [done|].
        congruence.
    + intros E. by apply IH.
Qed.

End Load.

Section FirstOccurrences.
Import Vocab VocabSpec.

Lemma first_occurrences_ext seen1 seen2 tokens :
  (∀ token, token ∈ seen1 ↔ token ∈ seen2) →
  first_occurrences seen1 tokens = first_occurrences seen2 tokens.
Proof.
  revert seen1 seen2.
  induction tokens as [|token tokens IH]; intros s1 s2 Hs; simpl; [done|].
  rewrite (bool_decide_ext _ _ (Hs token)).
  destruct (bool_decide (token ∈ s2)); [by apply IH|].
  f_equal. apply IH. intros t. rewrite !elem_of_app, Hs. done.
Qed.

Lemma first_occurrences_elem_of seen tokens token :
  token ∈ first_occurrences seen tokens ↔ token ∈ tokens ∧ token ∉ seen.
Proof.
  revert seen. induction tokens as [|t tokens IH]; intros seen; simpl.
  - split; [by intros ?%elem_of_nil | by intros [?%elem_of_nil _]].
  - case_bool_decide as Ht.
    + rewrite IH, elem_of_cons. split.
      * intros [? ?]. split; [by right | done].
      * intros [[->|?] ?]; done.
    + rewrite !elem_of_cons, IH, elem_of_app, list_elem_of_singleton.
      split.
      * intros [->|[H1 H2]]; [by split; [left|]|].
        split; [by right|]. intros ?. apply H2. by left.
      * intros [[->|H1] H2]; [by left|].
        destruct (decide (token = t)) as [->|Hne]; [by left|].
        right. split; [done|]. by intros [?|?].
Qed.

Lemma first_occurrences_NoDup seen tokens :
  NoDup (first_occurrences seen tokens).
Proof.
  revert seen. induction tokens as [|t tokens IH]; intros seen; simpl.
  - constructor.
  - case_bool_decide; [apply IH|].
    constructor; [|apply IH].
    rewrite first_occurrences_elem_of, elem_of_app, list_elem_of_singleton.
    intros [_ Hn]. apply Hn. by right.
Qed.

(** Their number is the number of distinct tokens. *)
Lemma first_occurrences_length tokens :
  length (first_occurrences [] tokens) = length (remove_dups tokens).
Proof.
  apply Permutation_length, NoDup_Permutation.
  - apply first_occurrences_NoDup.
  - apply NoDup_remove_dups.
  - intros token.
    rewrite first_occurrences_elem_of, elem_of_remove_dups.
    split; [by intros [? _]|]. intros ?. split; [done|]. apply not_elem_of_nil.
Qed.

Lemma first_occurrences_app seen l1 l2 :
  first_occurrences seen (l1 ++ l2) =
  first_occurrences seen l1 ++ first_occurrences (seen ++ l1) l2.
Proof.
  revert seen. induction l1 as [|t l1 IH]; intros seen; simpl.
  - by rewrite app_nil_r.
  - case_bool_decide as Ht.
    + rewrite IH. f_equal. apply first_occurrences_ext. intros token.
      rewrite !elem_of_app, elem_of_cons. split.
      * intros [?|?]; [by left | by right; right].
      * intros [?|[-> | ?]]; [by left | by left | by right].
    + rewrite IH. simpl. do 2 f_equal. by rewrite <- app_assoc.
Qed.

Lemma first_occurrences_NoDup_id seen tokens :
  NoDup tokens → (∀ token, token ∈ tokens → token ∉ seen) →
  first_occurrences seen tokens = tokens.
Proof.
  revert seen. induction tokens as [|t tokens IH]; intros seen Hnd Hdisj;
    simpl; [done|].
  apply NoDup_cons in Hnd as [Ht Hnd].
  rewrite bool_decide_eq_false_2 by (apply Hdisj; left).
  f_equal. apply IH; [done|]. intros token Hin.
  rewrite elem_of_app, list_elem_of_singleton.
  intros [?| ->]; [|done]. eapply Hdisj; [by right | done].
Qed.

Lemma duplicate_warnings_elem_of path seen entries j line token :
  entries !! j = Some (line, token) →
  token ∈ seen ∨ token ∈ take j entries.*2 →
  Warning token path line ∈ duplicate_warnings path seen entries.
Proof.
  revert seen j.
  induction entries as [|[l t] entries IH]; intros seen j Hj Hdup;
    [done|]. simpl.
  destruct j as [|j]; simpl in *.
  - injection Hj as Hl Ht. subst l t.
    destruct Hdup as [Hdup|Hdup]; [|by apply elem_of_nil in Hdup].
    rewrite bool_decide_eq_true_2 by done. left.
  - case_bool_decide as Ht.
    + right. apply (IH seen j Hj).
      destruct Hdup as [?|Hdup]; [by left|].
      apply elem_of_cons in Hdup as [->|?]; [by left | by right].
    + apply (IH _ j Hj).
      rewrite elem_of_app, list_elem_of_singleton.
      destruct Hdup as [?|Hdup]; [by left; left|].
      apply elem_of_cons in Hdup as [->|?]; [by left; right | by right].
Qed.

(** Each entry is stored or warned about, never both. *)
Lemma duplicate_warnings_length path seen entries :
  length (duplicate_warnings path seen entries)
  + length (first_occurrences seen entries.*2) = length entries.
Proof.
  revert seen. induction entries as [|[l t] entries IH]; intros seen;
    csimpl; [done|].
  case_bool_decide; csimpl.
  - specialize (IH seen). lia.
  - specialize (IH (seen ++ [t])). lia.
Qed.

Lemma read_tokens_default lines :
  ∀ i, read_tokens "default" i lines
       = Ok (imap (λ j line, (i + j + 1, rstrip CRLF line)) lines).
Proof.
  induction lines as [|line lines IH]; intros i; simpl; [done|].
  unfold read_token. simpl. rewrite IH. simpl.
  rewrite Nat.add_0_r. do 2 f_equal.
  apply imap_ext. intros j x _. simpl. f_equal. lia.
Qed.

End FirstOccurrences.

Section LoadTheorems.
Import Vocab VocabSpec.
Local Arguments String.append : simpl nomatch.

Lemma append_assoc (a b c : string) : (a +:+ b) +:+ c = a +:+ b +:+ c.
Proof. induction a as [|x a IH]; simpl; [done | by rewrite IH]. Qed.

Lemma append_empty_r (a : string) : a +:+ EmptyString = a.
Proof. induction a as [|x a IH]; simpl; [done | by rewrite IH]. Qed.

Lemma serialize_content tokens : ∀ out,
  fold_left (λ out token, out +:+ token +:+ String LF EmptyString) tokens out
  = out +:+ foldr (λ token rest, token +:+ String LF rest) EmptyString tokens.
Proof.
  induction tokens as [|token tokens IH]; intros out; simpl.
  - induction out as [|x out IHo]; simpl; [done | by rewrite <- IHo].
  - rewrite IH, !append_assoc. simpl. done.
Qed.

Lemma char_in_app c s1 s2 :
  char_in c (s1 +:+ s2) = char_in c s1 || char_in c s2.
Proof.
  induction s1 as [|d s1 IH]; simpl; [done|]. by rewrite IH, orb_assoc.
Qed.

Lemma drop_cr_app a b : drop_cr (a +:+ b) = drop_cr a +:+ drop_cr b.
Proof.
  induction a as [|c a IH]; simpl; [done|].
  case_bool_decide; simpl; by rewrite IH.
Qed.

Lemma drop_cr_id s : char_in CR s = false → drop_cr s = s.
Proof.
  induction s as [|c s IH]; simpl; [done|].
  intros [Hc Hs]%orb_false_elim. apply bool_decide_eq_false in Hc.
  rewrite bool_decide_eq_false_2 by congruence. by rewrite IH.
Qed.

Lemma drop_cr_text_lines eol lines :
  line_end eol →
  drop_cr (text_lines eol lines)
  = text_lines (String LF EmptyString) (drop_cr <$> lines).
Proof.
  intros Heol. induction lines as [|line lines IH]; [done|].
  change (text_lines eol (line :: lines))
    with (line +:+ eol +:+ text_lines eol lines).
  rewrite !drop_cr_app, IH. by destruct Heol as [-> | ->].
Qed.

Lemma fmap_drop_cr_id lines :
  Forall file_safe lines → drop_cr <$> lines = lines.
Proof.
  induction 1 as [|line lines [_ Hcr] _ IH]; [done|].
  csimpl. by rewrite IH, drop_cr_id.
Qed.

Lemma splitlines_line token rest :
  char_in LF token = false →
  splitlines (token +:+ String LF rest)
  = (token +:+ String LF EmptyString) :: splitlines rest.
Proof.
  induction token as [|c token IH]; simpl; [done|].
  intros [Hc Htoken]%orb_false_elim.
  apply bool_decide_eq_false in Hc.
  rewrite bool_decide_eq_false_2 by congruence.
  by rewrite IH.
Qed.

Lemma splitlines_last last :
  char_in LF last = false →
  splitlines last = if bool_decide (last = EmptyString) then [] else [last].
Proof.
  induction last as [|c last IH]; simpl; [done|].
  intros [Hc Hlast]%orb_false_elim.
  apply bool_decide_eq_false in Hc.
  rewrite bool_decide_eq_false_2 by congruence.
  rewrite IH by done. by case_bool_decide as Hl; [rewrite Hl|].
Qed.

Lemma splitlines_text_file lines last :
  Forall file_safe lines → file_safe last →
  splitlines (text_file (String LF EmptyString) lines last)
  = ((λ line, line +:+ String LF EmptyString) <$> lines)
    ++ (if bool_decide (last = EmptyString) then [] else [last]).
Proof.
  intros Hlines [Hlast _]. unfold text_file.
  induction Hlines as [|line lines [Hlf _] _ IH]; simpl.
  - by apply splitlines_last.
  - rewrite !append_assoc. simpl.
    rewrite splitlines_line by done. by rewrite IH.
Qed.

Lemma rstrip_line chars token :
  char_in LF chars = true →
  rstrip chars (token +:+ String LF EmptyString) = rstrip chars token.
Proof.
  intros Hlf. induction token as [|c token IH]; simpl.
  - by rewrite Hlf.
  - by rewrite IH.
Qed.

Lemma rstrip_file_safe token : file_safe token → rstrip CRLF token = token.
Proof.
  intros [Hlf Hcr]. induction token as [|c token IH]; simpl; [done|].
  simpl in Hlf, Hcr.
  apply orb_false_elim in Hlf as [Hc1 Hlf].
  apply orb_false_elim in Hcr as [Hc2 Hcr].
  apply bool_decide_eq_false in Hc1, Hc2.
  rewrite IH by done.
  destruct token; [|done].
  by rewrite !bool_decide_eq_false_2 by congruence.
Qed.

Lemma file_lines_safe lines last :
  Forall file_safe lines → file_safe last →
  Forall file_safe (file_lines lines last).
Proof.
  intros Hlines Hlast. unfold file_lines. apply Forall_app. split; [done|].
  case_bool_decide; [constructor|]. constructor; [done | constructor].
Qed.

(** What [load] and [add_from_text] see of a text file: its lines. *)
Lemma stripped_readlines eol lines last :
  line_end eol → Forall file_safe lines → file_safe last →
  rstrip CRLF <$> readlines (text_file eol lines last)
  = file_lines lines last.
Proof.
  intros Heol Hlines Hlast. unfold readlines.
  assert (drop_cr (text_file eol lines last)
          = text_file (String LF EmptyString) lines last) as ->.
  { unfold text_file.
    rewrite drop_cr_app, (drop_cr_text_lines eol) by done.
    rewrite fmap_drop_cr_id by done.
    by rewrite (drop_cr_id last) by apply Hlast. }
  rewrite splitlines_text_file by done.
  unfold file_lines. rewrite fmap_app. f_equal.
  - rewrite <- list_fmap_compose.
    rewrite <- (list_fmap_id lines) at 2.
    apply Forall_fmap_ext_1. eapply Forall_impl; [exact Hlines|].
    intros line Hline. simpl.
    rewrite rstrip_line by done. by apply rstrip_file_safe.
  - case_bool_decide; [done|]. csimpl. by rewrite rstrip_file_safe.
Qed.

Lemma load_loop_stripped file_format path lines1 : ∀ lines2 i v log,
  rstrip CRLF <$> lines1 = rstrip CRLF <$> lines2 →
  load_loop file_format path i lines1 v log
  = load_loop file_format path i lines2 v log.
Proof.
  induction lines1 as [|l1 lines1 IH]; intros [|l2 lines2] i v log Heq;
    try done.
  simpl in *. injection Heq as Hl Hrest. rewrite Hl.
  destruct (read_token file_format (rstrip CRLF l2)) as [[token|]|e];
    [|by apply IH|done].
  destruct (_token_to_id v !! token); by apply IH.
Qed.

Lemma fmap_rstrip_file_safe lines :
  Forall file_safe lines → rstrip CRLF <$> lines = lines.
Proof.
  induction 1 as [|line lines Hline _ IH]; [done|].
  csimpl. by rewrite IH, rstrip_file_safe.
Qed.

(** Loading a text file is the loop over its lines. *)
Lemma load_text_file v path file_format (fs : files) eol lines last :
  line_end eol → Forall file_safe lines → file_safe last →
  fs !! path = Some (text_file eol lines last) →
  file_format = "default" ∨ file_format = "sentencepiece" →
  load v path file_format fs
  = load_loop file_format path 0 (file_lines lines last) v [].
Proof.
  intros Heol Hlines Hlast Hfile Hformat. unfold load. rewrite Hfile.
  assert (negb (bool_decide (file_format = "default")
                || bool_decide (file_format = "sentencepiece")) = false)
    as -> by (by destruct Hformat as [-> | ->]).
  apply load_loop_stripped.
  rewrite (stripped_readlines eol) by done.
  symmetry. apply fmap_rstrip_file_safe. by apply file_lines_safe.
Qed.

Lemma split_char_none sep s :
  char_in sep s = false → split_char sep s = [s].
Proof.
  induction s as [|c s IH]; simpl; [done|].
  intros [Hc Hs]%orb_false_elim. apply bool_decide_eq_false in Hc.
  rewrite bool_decide_eq_false_2 by congruence. by rewrite IH.
Qed.

Lemma split_char_pair sep a b :
  char_in sep a = false → char_in sep b = false →
  split_char sep (a +:+ String sep b) = [a; b].
Proof.
  intros Ha Hb. induction a as [|c a IH]; simpl.
  - rewrite bool_decide_eq_true_2 by done. by rewrite split_char_none.
  - simpl in Ha. apply orb_false_elim in Ha as [Hc Ha].
    apply bool_decide_eq_false in Hc.
    rewrite bool_decide_eq_false_2 by congruence. by rewrite IH.
Qed.

Lemma read_tokens_default_safe lines :
  Forall file_safe lines → read_tokens "default" 0 lines = Ok (numbered lines).
Proof.
  intros Hlines. rewrite read_tokens_default. f_equal. unfold numbered.
  apply imap_ext. intros j line Hj. simpl. f_equal.
  apply rstrip_file_safe. by eapply Forall_lookup_1.
Qed.

Lemma read_tokens_rows rows : ∀ i,
  Forall sp_row_ok rows → Forall file_safe (sp_line <$> rows) →
  read_tokens "sentencepiece" i (sp_line <$> rows)
  = Ok (filter (λ e, sentencepiece_reserved e.2 = false)
               (imap (λ j row, (i + j + 1, row.1)) rows)).
Proof.
  induction rows as [|row rows IH]; intros i Hrows Hsafe; [done|].
  apply Forall_cons in Hrows as [[Ha Hb] Hrows].
  rewrite fmap_cons in Hsafe. apply Forall_cons in Hsafe as [Hline Hsafe].
  rewrite fmap_cons. simpl.
  rewrite rstrip_file_safe by done.
  unfold read_token, sp_line. simpl.
  rewrite split_char_pair by done.
  change (λ row0 : string * string, row0.1 +:+ String TAB row0.2)
    with sp_line.
  rewrite (IH (S i)) by done.
  assert (imap ((λ j row0, (i + j + 1, row0.1)) ∘ S) rows
          = imap (λ j row0, (S i + j + 1, row0.1)) rows) as ->.
  { apply imap_ext. intros j x _. simpl. f_equal. lia. }
  rewrite Nat.add_0_r.
  destruct (sentencepiece_reserved row.1) eqn:Hres; simpl.
  - by rewrite filter_cons_False by (simpl; by rewrite Hres).
  - by rewrite filter_cons_True by done.
Qed.

Lemma read_tokens_file_entries file_format lines entries :
  Forall file_safe lines → file_entries file_format lines entries →
  read_tokens file_format 0 lines = Ok entries.
Proof.
  intros Hlines [[-> ->] | (-> & rows & -> & Hrows & ->)].
  - by apply read_tokens_default_safe.
  - rewrite read_tokens_rows by done. do 2 f_equal.
    unfold numbered. rewrite imap_fmap. apply imap_ext. by intros j x _.
Qed.

Lemma duplicate_warnings_inv path entries : ∀ seen w,
  w ∈ duplicate_warnings path seen entries →
  ∃ j line token,
    entries !! j = Some (line, token)
    ∧ (token ∈ seen ∨ token ∈ take j entries.*2)
    ∧ w = Warning token path line.
Proof.
  induction entries as [|[l t] entries IH]; intros seen w; simpl.
  - by intros ?%elem_of_nil.
  - case_bool_decide as Ht.
    + intros [-> | Hin]%elem_of_cons.
      * exists 0, l, t. split; [done|]. split; [by left | done].
      * destruct (IH _ _ Hin) as (j & line & token & Hj & Hdup & ->).
        exists (S j), line, token. split; [done|]. split; [|done].
        destruct Hdup as [?|?]; [by left|]. right. csimpl. by right.
    + intros Hin.
      destruct (IH _ _ Hin) as (j & line & token & Hj & Hdup & ->).
      exists (S j), line, token. split; [done|]. split; [|done].
      destruct Hdup as [Hdup|?]; [|right; csimpl; by right].
      apply elem_of_app in Hdup as [?| ->%list_elem_of_singleton];
        [by left|].
      right. csimpl. left.
Qed.

(** C8: loading a vocabulary file into a fresh vocabulary does not raise
    on duplicates. The file is given by its lines [lines] (each followed by
    a line end, ["\n"] or ["\r\n"]) and a last line [last] without line
    end, all free of line feeds and carriage returns; [entries] are the
    (line number, token) pairs these lines stand for in the format. The
    size of the result is the number of distinct tokens; the first
    occurrence of a token is stored, under the id that counts the distinct
    tokens before it; each later occurrence is logged as a warning with its
    line number and changes nothing; nothing else is logged. *)
Theorem load_skips_duplicates path file_format (fs : files) eol lines last
    entries :
  line_end eol → Forall file_safe lines → file_safe last →
  fs !! path = Some (text_file eol lines last) →
  file_entries file_format (file_lines lines last) entries →
  ∃ v' log,
    from_file path file_format fs = Ok (v', log)
    ∧ size v' = length (remove_dups entries.*2)
    ∧ NoDup (_id_to_token v')
    ∧ (∀ j line token,
         entries !! j = Some (line, token) → token ∉ take j entries.*2 →
         let i := length (remove_dups (take j entries.*2)) in
         _id_to_token v' !! i = Some token
         ∧ _token_to_id v' !! token = Some i)
    ∧ (∀ j line token,
         entries !! j = Some (line, token) → token ∈ take j entries.*2 →
         Warning token path line ∈ log)
    ∧ (∀ w, w ∈ log →
         ∃ j line token,
           entries !! j = Some (line, token) ∧ token ∈ take j entries.*2
           ∧ w = Warning token path line)
    ∧ length log = length entries - size v'.
Proof.
  intros Heol Hlines Hlast Hfile Hentries.
  pose proof (file_lines_safe _ _ Hlines Hlast) as Hsafe.
  pose proof (read_tokens_file_entries _ _ _ Hsafe Hentries) as Hread.
  assert (file_format = "default" ∨ file_format = "sentencepiece") as Hformat.
  { destruct Hentries as [[-> _] | [-> _]]; [by left | by right]. }
  destruct (load_loop_spec file_format path (file_lines lines last) 0 empty []
              entries wf_empty Hread)
    as (v' & Hload & Hwf & Htok & _ & _).
  change (_id_to_token empty) with (@nil string) in Hload, Htok.
  rewrite app_nil_l in Hload, Htok.
  exists v', (duplicate_warnings path [] entries).
  split.
  { unfold from_file. simpl.
    by rewrite (load_text_file empty path file_format fs eol lines last). }
  assert (NoDup (_id_to_token v')) as Hnd
    by (rewrite Htok; apply first_occurrences_NoDup).
  split; [unfold size; by rewrite Htok, first_occurrences_length|].
  split; [done|]. split; [|split; [|split]].
  - intros j line token Hj Hfirst. simpl.
    assert (entries.*2 !! j = Some token) as Hj'
      by (by rewrite list_lookup_fmap, Hj).
    assert (_id_to_token v' !! length (remove_dups (take j entries.*2))
            = Some token) as Hi.
    { rewrite Htok.
      assert (first_occurrences [] entries.*2
              = first_occurrences [] (take j entries.*2)
                ++ token :: first_occurrences (take j entries.*2 ++ [token])
                                              (drop (S j) entries.*2)) as ->.
      { rewrite <- (take_drop_middle _ _ _ Hj') at 1.
        rewrite first_occurrences_app. simpl.
        by rewrite bool_decide_eq_false_2 by done. }
      rewrite <- first_occurrences_length. by apply list_lookup_middle. }
    split; [done|].
    destruct (wf_id_to_token v' Hwf token) as [i' Hi'];
      [by eapply list_elem_of_lookup_2|].
    rewrite Hi'. f_equal.
    apply (wf_token_to_id v' Hwf) in Hi'.
    by eapply NoDup_lookup.
  - intros j line token Hj Hdup.
    eapply duplicate_warnings_elem_of; [done | by right].
  - intros w Hw.
    destruct (duplicate_warnings_inv _ _ _ _ Hw)
      as (j & line & token & Hj & [Hdup|Hdup] & ->);
      [by apply elem_of_nil in Hdup|].
    by exists j, line, token.
  - pose proof (duplicate_warnings_length path [] entries) as Hl.
    unfold size. rewrite Htok. lia.
Qed.

(** C3, amended: for a vocabulary with at least one token whose tokens are
    pairwise distinct and contain no line feed and no carriage return,
    [serialize(path)] followed by [load(path, "default")] into a fresh
    vocabulary gives the same [id_to_token] sequence and the same size,
    without a warning. *)
Theorem serialize_load_roundtrip v path (fs : files) :
  _id_to_token v ≠ [] →
  NoDup (_id_to_token v) → Forall file_safe (_id_to_token v) →
  ∃ v',
    load (init None) path "default" (serialize v path fs) = Ok (v', [])
    ∧ _id_to_token v' = _id_to_token v
    ∧ size v' = size v.
Proof.
  intros Hne Hnd Hsafe.
  set (tokens := _id_to_token v) in *.
  assert (serialize v path fs
          = <[path := text_file (String LF EmptyString) tokens EmptyString]> fs)
    as Hfs.
  { unfold serialize. fold tokens. destruct tokens as [|t ts] eqn:E; [done|].
    rewrite <- E. f_equal. rewrite serialize_content. simpl.
    unfold text_file. by rewrite append_empty_r. }
  assert (file_safe EmptyString) as Hlast by done.
  rewrite (load_text_file _ path "default" _ (String LF EmptyString) tokens
             EmptyString); [|by left|done|done| |by left].
  2:{ rewrite Hfs. apply lookup_insert_eq. }
  assert (file_lines tokens EmptyString = tokens) as ->
    by (unfold file_lines; simpl; apply app_nil_r).
  pose proof (read_tokens_default_safe tokens Hsafe) as Hread.
  destruct (load_loop_spec "default" path _ 0 empty [] _ wf_empty Hread)
    as (v' & Hload & _ & Htok & _).
  change (_id_to_token empty) with (@nil string) in Hload, Htok.
  rewrite app_nil_l in Hload, Htok.
  assert ((numbered tokens).*2 = tokens) as Hsnd.
  { apply list_eq. intros j. unfold numbered.
    rewrite list_lookup_fmap, list_lookup_imap.
    by destruct (tokens !! j). }
  rewrite Hsnd in Htok.
  rewrite first_occurrences_NoDup_id in Htok;
    [|done|intros ? _; apply not_elem_of_nil].
  assert (duplicate_warnings path [] (numbered tokens) = []) as Hlog.
  { pose proof (duplicate_warnings_length path [] (numbered tokens)) as Hl.
    rewrite Hsnd, first_occurrences_NoDup_id in Hl;
      [|done|intros ? _; apply not_elem_of_nil].
    unfold numbered in Hl at 2. rewrite length_imap in Hl.
    apply nil_length_inv. lia. }
  rewrite Hlog in Hload.
  exists v'. split; [exact Hload|]. split; [done | unfold size; by rewrite Htok].
Qed.

End LoadTheorems.

Section WellFormed.
Import Vocab VocabSpec.

Lemma init_loop_wf sp : ∀ v,
  wf v → wf (init_loop v (length (_id_to_token v)) sp).
Proof.
  induction sp as [|token sp IH]; intros v Hwf; simpl; [done|].
  pose proof (wf_append v token PInf Hwf) as Hwf1.
  rewrite !py_list_insert_end.
  rewrite <- (wf_frequency v Hwf) at 2. rewrite py_list_insert_end.
  specialize (IH _ Hwf1). simpl in IH.
  rewrite length_app, Nat.add_1_r in IH. exact IH.
Qed.

Lemma init_wf special_tokens : wf (init special_tokens).
Proof.
  destruct special_tokens as [sp|]; simpl; [|apply wf_empty].
  apply (init_loop_wf sp empty wf_empty).
Qed.

Lemma add_wf v token v' : wf v → add v token = Ok v' → wf v'.
Proof.
  intros Hwf. unfold add.
  destruct (_token_to_id v !! token) as [i|] eqn:Hi.
  - destruct (_frequency v !! i) as [f|]; [|done]. intros [= <-].
    destruct Hwf as [Hlen Hmap Hlist]. split; simpl; [|done..].
    by rewrite length_insert.
  - intros [= <-]. by apply wf_append.
Qed.

(** On a well-formed vocabulary [add] does not raise. *)
Lemma add_returns v token : wf v → ∃ v', add v token = Ok v'.
Proof.
  intros Hwf. unfold add.
  destruct (_token_to_id v !! token) as [i|] eqn:Hi; [|by eexists].
  apply (wf_token_to_id v Hwf) in Hi. apply lookup_lt_Some in Hi.
  rewrite <- (wf_frequency v Hwf) in Hi.
  destruct (lookup_lt_is_Some_2 _ _ Hi) as [f ->]. by eexists.
Qed.

Lemma load_wf v path file_format fs v' log :
  wf v → load v path file_format fs = Ok (v', log) → wf v'.
Proof.
  intros Hwf. unfold load. destruct (negb _); [done|].
  destruct (fs !! path) as [content|]; [|done]. intros Hload.
  destruct (read_tokens file_format 0 (readlines content)) as [entries|e]
    eqn:Hread.
  - destruct (load_loop_spec file_format path _ 0 v [] entries Hwf Hread)
      as (v1 & Hload1 & Hwf1 & _).
    congruence.
  - rewrite (load_loop_raises _ _ _ _ _ _ _ Hread) in Hload. done.
Qed.

Lemma pad_loop_wf fuel : ∀ v multiple num_oov_buckets i v',
  wf v → pad_loop fuel v multiple num_oov_buckets i = Some (Ok v') → wf v'.
Proof.
  induction fuel as [|fuel IH]; intros v m b i v' Hwf; simpl; [done|].
  destruct (bool_decide (m = 0%Z)); [done|].
  destruct (bool_decide _); [|by intros [= <-]].
  destruct (add v (filler i)) as [v1|] eqn:Hadd; [|done].
  apply IH. by eapply add_wf.
Qed.

Lemma built_from_wf sp v : built_from sp v → wf v.
Proof.
  induction 1 as [|v token v' _ IH Hadd|v path ff fs v' log _ IH Hload
                 |v fuel m b v' _ IH Hpad].
  - apply init_wf.
  - by eapply add_wf.
  - by eapply load_wf.
  - by eapply pad_loop_wf.
Qed.

End WellFormed.

(** ** [Vocab.pad_to_multiple] *)

Section Pad.
Import Vocab VocabSpec.

Lemma filler_inj i j : filler i = filler j → i = j.
Proof.
  unfold filler. intros H.
  apply (inj (String.app "averyunlikelytoken")) in H.
  by apply (inj pretty) in H.
Qed.

Lemma tried_S i : tried (S i) = tried i ∪ {[filler i]}.
Proof.
  unfold tried. rewrite seq_S, fmap_app, list_to_set_app_L. simpl.
  by rewrite union_empty_r_L.
Qed.

Lemma filler_not_tried i : filler i ∉ tried i.
Proof.
  unfold tried. rewrite elem_of_list_to_set, list_elem_of_fmap.
  intros (j & Hj%filler_inj & Hin). apply elem_of_seq in Hin. lia.
Qed.

(** Appends still needed: [(-(size + b)) mod m]. *)
Lemma remaining_step (m x : Z) :
  (0 < m)%Z → (x `mod` m ≠ 0)%Z →
  Z.to_nat ((- (x + 1)) `mod` m) + 1 = Z.to_nat ((- x) `mod` m).
Proof.
  intros Hm Hx.
  pose proof (Z.mod_pos_bound (- x) m Hm) as Hr.
  assert ((- x) `mod` m ≠ 0)%Z as Hr0.
  { intros H0. apply Hx.
    apply Z.mod_opp_l_z in H0; [|lia].
    by rewrite Z.opp_involutive in H0. }
  assert ((- (x + 1)) `mod` m = (- x) `mod` m - 1)%Z as ->; [|lia].
  symmetry. apply Z.mod_unique_pos with (q := ((- x) `div` m)%Z); [lia|].
  pose proof (Z.div_mod (- x) m). lia.
Qed.

Lemma pad_loop_spec (m b : Z) (Hm : (0 < m)%Z) : ∀ fuel v i,
  wf v →
  Z.to_nat ((- (Z.of_nat (size v) + b)) `mod` m)
    + base.size (dom (_token_to_id v) ∖ tried i) < fuel →
  ∃ v' added,
    pad_loop fuel v m b i = Some (Ok v')
    ∧ wf v'
    ∧ ((Z.of_nat (size v') + b) `mod` m = 0)%Z
    ∧ _id_to_token v' = _id_to_token v ++ added
    ∧ NoDup added
    ∧ Forall (λ token, ∃ j, i ≤ j ∧ token = filler j
                            ∧ _token_to_id v !! token = None) added
    ∧ (∀ token k, _token_to_id v !! token = Some k →
                  _token_to_id v' !! token = Some k)
    ∧ (((Z.of_nat (size v) + b) `mod` m = 0)%Z → v' = v).
Proof.
  induction fuel as [|fuel IH]; intros v i Hwf Hfuel; [lia|]. simpl.
  rewrite bool_decide_eq_false_2 by lia.
  case_bool_decide as Hmod; cycle 1.
  { exists v, []. rewrite app_nil_r.
    do 4 (split; [done|]). split; [constructor|]. split; [constructor|].
    done. }
  destruct (_token_to_id v !! filler i) as [k|] eqn:Hk.
  - (* the name is taken: its frequency grows and the next name is tried *)
    destruct (add_returns v (filler i) Hwf) as [v1 Hadd].
    pose proof (add_wf _ _ _ Hwf Hadd) as Hwf1.
    assert (_token_to_id v1 = _token_to_id v
            ∧ _id_to_token v1 = _id_to_token v) as [Hmap1 Htok1].
    { revert Hadd. unfold add. rewrite Hk.
      destruct (_frequency v !! k); [|done]. by intros [= <-]. }
    rewrite Hadd.
    destruct (IH v1 (S i) Hwf1) as (v' & added & Hrun & Hwf' & Hdone & Htok
                                    & Hnd & Hadded & Hkeep & _).
    { unfold size in *. rewrite Hmap1, Htok1, tried_S.
      assert (dom (_token_to_id v) ∖ tried i
              = {[filler i]} ∪ dom (_token_to_id v) ∖ (tried i ∪ {[filler i]}))
        as Hsplit.
      { apply set_eq. intros x.
        rewrite elem_of_union, !elem_of_difference, elem_of_union,
          elem_of_singleton.
        split.
        - intros [? ?]. destruct (decide (x = filler i)); [by left|].
          right. split; [done|]. by intros [?|?].
        - intros [->|[? Hn]].
          + split; [apply elem_of_dom; by eexists | apply filler_not_tried].
          + split; [done|]. intros ?. apply Hn. by left. }
      rewrite Hsplit, size_union, size_singleton in Hfuel; [lia|].
      intros x. rewrite elem_of_singleton, elem_of_difference, elem_of_union,
        elem_of_singleton.
      intros -> [_ Hn]. apply Hn. by right. }
    exists v', added. rewrite Hrun, Htok, Htok1.
    do 5 (split; [done|]). split; [|split; [|done]].
    + eapply Forall_impl; [exact Hadded|]. simpl.
      intros token (j & Hj & -> & Hnone). exists j.
      rewrite <- Hmap1. split; [lia | done].
    + intros token k' Hk'. apply Hkeep. by rewrite Hmap1.
  - (* a new name: one entry is appended *)
    assert (add v (filler i)
            = Ok (mk (<[filler i := size v]> (_token_to_id v))
                     (_id_to_token v ++ [filler i])
                     (_frequency v ++ [Fin 1]))) as Hadd.
    { unfold add. by rewrite Hk. }
    rewrite Hadd. set (v1 := mk _ _ _) in *.
    pose proof (add_wf _ _ _ Hwf Hadd) as Hwf1.
    destruct (IH v1 (S i) Hwf1) as (v' & added & Hrun & Hwf' & Hdone & Htok
                                    & Hnd & Hadded & Hkeep & _).
    { assert (Z.of_nat (size v1) + b = Z.of_nat (size v) + b + 1)%Z as ->.
      { unfold size, v1. simpl. rewrite length_app. simpl. lia. }
      pose proof (remaining_step m _ Hm Hmod).
      assert (dom (_token_to_id v1) ∖ tried (S i)
              = dom (_token_to_id v) ∖ tried i) as ->; [|lia].
      unfold v1. simpl. rewrite dom_insert_L, tried_S.
      apply not_elem_of_dom in Hk. set_solver. }
    exists v', (filler i :: added). rewrite Hrun, Htok.
    split; [done|]. split; [done|]. split; [done|].
    split; [unfold v1; simpl; by rewrite <- app_assoc|].
    split; [|split; [|split; [|done]]].
    + constructor; [|done]. intros Hin.
      rewrite Forall_forall in Hadded.
      destruct (Hadded _ Hin) as (j & _ & _ & Hnone).
      unfold v1 in Hnone. simpl in Hnone.
      by rewrite lookup_insert_eq in Hnone.
    + constructor; [by exists i|].
      eapply Forall_impl; [exact Hadded|]. simpl.
      intros token (j & Hj & -> & Hnone). exists j.
      split; [lia|]. split; [done|].
      unfold v1 in Hnone. simpl in Hnone.
      apply lookup_insert_None in Hnone as [? _]. done.
    + intros token k Htoken. apply Hkeep. unfold v1. simpl.
      rewrite lookup_insert_ne; [done|]. congruence.
Qed.

(** C7: on a well-formed vocabulary, with [multiple > 0] and any
    [num_oov_buckets], the loop of [pad_to_multiple] ends (within
    [multiple + len(token_to_id)] iterations) and
    [(size + num_oov_buckets) % multiple == 0] holds afterwards. The
    tokens are the old ones, at their ids, followed by the added ones,
    which are pairwise distinct filler names that were not in the
    vocabulary; the old keys keep their ids; nothing changes when the
    condition held before the call. *)
Theorem pad_to_multiple_spec v (multiple num_oov_buckets : Z) fuel :
  wf v → (0 < multiple)%Z →
  Z.to_nat multiple + base.size (_token_to_id v) ≤ fuel →
  ∃ v' added,
    pad_to_multiple fuel v multiple num_oov_buckets = Some (Ok v')
    ∧ ((Z.of_nat (size v') + num_oov_buckets) `mod` multiple = 0)%Z
    ∧ _id_to_token v' = _id_to_token v ++ added
    ∧ NoDup added
    ∧ (∀ token, token ∈ added →
         (token ∉ _id_to_token v) ∧ (∃ j, token = filler j))
    ∧ (∀ token k, _token_to_id v !! token = Some k →
                  _token_to_id v' !! token = Some k)
    ∧ (∀ k token, _id_to_token v !! k = Some token →
                  _id_to_token v' !! k = Some token)
    ∧ (((Z.of_nat (size v) + num_oov_buckets) `mod` multiple = 0)%Z → v' = v)
    ∧ wf v'.
Proof.
  intros Hwf Hm Hfuel.
  destruct (pad_loop_spec multiple num_oov_buckets Hm fuel v 0 Hwf)
    as (v' & added & Hrun & Hwf' & Hdone & Htok & Hnd & Hadded & Hkeep & Hnop).
  { pose proof (Z.mod_pos_bound (- (Z.of_nat (size v) + num_oov_buckets))
                  multiple Hm).
    assert (base.size (dom (_token_to_id v) ∖ tried 0)
            ≤ base.size (_token_to_id v)).
    { rewrite <- (size_dom (D:=gset string)).
      apply subseteq_size. set_solver. }
    lia. }
  exists v', added. split; [done|]. split; [done|]. split; [done|].
  split; [done|]. split; [|split; [done|split; [|done]]].
  - intros token Hin. rewrite Forall_forall in Hadded.
    destruct (Hadded _ Hin) as (j & _ & -> & Hnone). split; [|by exists j].
    rewrite (wf_known v _ Hwf), Hnone. by intros [? ?].
  - intros k token Hk. rewrite Htok. by apply lookup_app_l_Some.
Qed.

End Pad.

(** ** The theorems at concrete vocabularies *)

Section Witnesses.
Import Vocab VocabSpec.

Lemma prune_keeps_special_tokens_witness :
  ∃ v,
    built_from ["<blank>"; "<s>"; "</s>"] v
    ∧ ∃ v',
        prune v 0 (Fin 2) = Ok v'
        ∧ take 3 (_id_to_token v') = ["<blank>"; "<s>"; "</s>"]
        ∧ take 3 (_frequency v') = replicate 3 PInf
        ∧ (∀ token, token ∈ ["<blank>"; "<s>"; "</s>"] →
                    is_Some (_token_to_id v' !! token)).
Proof.
  assert (built_from ["<blank>"; "<s>"; "</s>"]
            (mk (<["the" := 3]> (_token_to_id
                                   (init (Some ["<blank>"; "<s>"; "</s>"]))))
                ["<blank>"; "<s>"; "</s>"; "the"]
                [PInf; PInf; PInf; Fin 1])) as Hbuilt.
  { apply (built_add _ (init (Some ["<blank>"; "<s>"; "</s>"])) "the");
      [apply built_init | vm_compute; reflexivity]. }
  eexists. split; [exact Hbuilt|].
  exact (prune_keeps_special_tokens _ _ (Fin 2) Hbuilt).
Defined.

Lemma prune_never_empty_witness :
  wf (mk {["a" := 0; "b" := 1; "c" := 2]} ["a"; "b"; "c"]
         [Fin 1; Fin 3; Fin 3])
  ∧ 0 < size (mk {["a" := 0; "b" := 1; "c" := 2]} ["a"; "b"; "c"]
                 [Fin 1; Fin 3; Fin 3])
  ∧ (0 = 0 ∨ 1 ≤ 0)%Z
  ∧ prune (mk {["a" := 0; "b" := 1; "c" := 2]} ["a"; "b"; "c"]
              [Fin 1; Fin 3; Fin 3]) 0 (Fin 5)
    = Ok (mk {["b" := 0]} ["b"] [Fin 3])
  ∧ ∃ v' k token f,
      prune (mk {["a" := 0; "b" := 1; "c" := 2]} ["a"; "b"; "c"]
                [Fin 1; Fin 3; Fin 3]) 0 (Fin 5) = Ok v'
      ∧ 0 < size v'
      ∧ ["a"; "b"; "c"] !! k = Some token
      ∧ [Fin 1; Fin 3; Fin 3] !! k = Some f
      ∧ (∀ j g, j ≠ k → [Fin 1; Fin 3; Fin 3] !! j = Some g →
                freq_lt g f = true ∨ (g = f ∧ k < j))
      ∧ _id_to_token v' !! 0 = Some token
      ∧ _frequency v' !! 0 = Some f.
Proof.
  assert (wf (mk {["a" := 0; "b" := 1; "c" := 2]} ["a"; "b"; "c"]
                 [Fin 1; Fin 3; Fin 3])) as Hwf.
  { apply (built_from_wf []).
    apply (built_add _ (mk {["a" := 0; "b" := 1; "c" := 2]} ["a"; "b"; "c"]
                           [Fin 1; Fin 2; Fin 3]) "b");
      [|vm_compute; reflexivity].
    apply (built_add _ (mk {["a" := 0; "b" := 1; "c" := 2]} ["a"; "b"; "c"]
                           [Fin 1; Fin 2; Fin 2]) "c");
      [|vm_compute; reflexivity].
    apply (built_add _ (mk {["a" := 0; "b" := 1; "c" := 2]} ["a"; "b"; "c"]
                           [Fin 1; Fin 2; Fin 1]) "c");
      [|vm_compute; reflexivity].
    apply (built_add _ (mk {["a" := 0; "b" := 1]} ["a"; "b"]
                           [Fin 1; Fin 2]) "c");
      [|vm_compute; reflexivity].
    apply (built_add _ (mk {["a" := 0; "b" := 1]} ["a"; "b"]
                           [Fin 1; Fin 1]) "b");
      [|vm_compute; reflexivity].
    apply (built_add _ (mk {["a" := 0]} ["a"] [Fin 1]) "b");
      [|vm_compute; reflexivity].
    apply (built_add _ (init (Some [])) "a");
      [apply built_init | vm_compute; reflexivity]. }
  split; [exact Hwf|]. split; [unfold size; simpl; lia|]. split; [by left|].
  split; [vm_compute; reflexivity|].
  apply (prune_never_empty _ 0 (Fin 5) Hwf); [unfold size; simpl; lia | by left].
Defined.

Lemma load_skips_duplicates_witness :
  line_end CRLF
  ∧ Forall file_safe ["a"; "b"; "a"]
  ∧ file_safe "b"
  ∧ ({["vocab.txt" := text_file CRLF ["a"; "b"; "a"] "b"]} : files)
      !! "vocab.txt" = Some (text_file CRLF ["a"; "b"; "a"] "b")
  ∧ file_entries "default" (file_lines ["a"; "b"; "a"] "b")
                 [(1, "a"); (2, "b"); (3, "a"); (4, "b")]
  ∧ from_file "vocab.txt" "default"
      {["vocab.txt" := text_file CRLF ["a"; "b"; "a"] "b"]}
    = Ok (mk {["a" := 0; "b" := 1]} ["a"; "b"] [Fin 1; Fin 1],
          [Warning "a" "vocab.txt" 3; Warning "b" "vocab.txt" 4])
  ∧ ∃ v' log,
      from_file "vocab.txt" "default"
        {["vocab.txt" := text_file CRLF ["a"; "b"; "a"] "b"]}
        = Ok (v', log)
      ∧ size v'
        = length (remove_dups [(1, "a"); (2, "b"); (3, "a"); (4, "b")].*2)
      ∧ NoDup (_id_to_token v')
      ∧ (∀ j line token,
           [(1, "a"); (2, "b"); (3, "a"); (4, "b")] !! j = Some (line, token) →
           token ∉ take j [(1, "a"); (2, "b"); (3, "a"); (4, "b")].*2 →
           let i :=
             length (remove_dups
                       (take j [(1, "a"); (2, "b"); (3, "a"); (4, "b")].*2)) in
           _id_to_token v' !! i = Some token
           ∧ _token_to_id v' !! token = Some i)
      ∧ (∀ j line token,
           [(1, "a"); (2, "b"); (3, "a"); (4, "b")] !! j = Some (line, token) →
           token ∈ take j [(1, "a"); (2, "b"); (3, "a"); (4, "b")].*2 →
           Warning token "vocab.txt" line ∈ log)
      ∧ (∀ w, w ∈ log →
           ∃ j line token,
             [(1, "a"); (2, "b"); (3, "a"); (4, "b")] !! j = Some (line, token)
             ∧ token ∈ take j [(1, "a"); (2, "b"); (3, "a"); (4, "b")].*2
             ∧ w = Warning token "vocab.txt" line)
      ∧ length log
        = length [(1, "a"); (2, "b"); (3, "a"); (4, "b")] - size v'.
Proof.
  assert (line_end CRLF) as Heol by (by right).
  assert (Forall file_safe ["a"; "b"; "a"]) as Hlines
    by (repeat constructor).
  assert (file_safe "b") as Hlast by (by split).
  assert (file_entries "default" (file_lines ["a"; "b"; "a"] "b")
                       [(1, "a"); (2, "b"); (3, "a"); (4, "b")]) as Hentries
    by (left; split; reflexivity).
  assert (({["vocab.txt" := text_file CRLF ["a"; "b"; "a"] "b"]} : files)
            !! "vocab.txt" = Some (text_file CRLF ["a"; "b"; "a"] "b"))
    as Hfile by reflexivity.
  split; [exact Heol|]. split; [exact Hlines|]. split; [exact Hlast|].
  split; [exact Hfile|]. split; [exact Hentries|].
  split; [vm_compute; reflexivity|].
  exact (load_skips_duplicates "vocab.txt" "default" _ CRLF
           ["a"; "b"; "a"] "b" _ Heol Hlines Hlast Hfile Hentries).
Defined.

Lemma serialize_load_roundtrip_witness :
  ["a"; "b"] ≠ []
  ∧ NoDup ["a"; "b"]
  ∧ Forall file_safe ["a"; "b"]
  ∧ ∃ v',
      load (init None) "vocab.txt" "default"
           (serialize (mk {["a" := 0; "b" := 1]} ["a"; "b"] [Fin 1; Fin 2])
                      "vocab.txt" ∅) = Ok (v', [])
      ∧ _id_to_token v' = ["a"; "b"]
      ∧ size v' = 2.
Proof.
  assert (["a"; "b"] ≠ @nil string) as Hne by discriminate.
  assert (NoDup ["a"; "b"]) as Hnd
    by (apply (bool_decide_unpack _); vm_compute; exact I).
  assert (Forall file_safe ["a"; "b"]) as Hsafe
    by (repeat constructor).
  split; [exact Hne|]. split; [exact Hnd|]. split; [exact Hsafe|].
  exact (serialize_load_roundtrip
           (mk {["a" := 0; "b" := 1]} ["a"; "b"] [Fin 1; Fin 2])
           "vocab.txt" ∅ Hne Hnd Hsafe).
Defined.

Lemma pad_to_multiple_spec_witness :
  wf (mk (<["a" := 0]> ∅) ([] ++ ["a"]) ([] ++ [Fin 1]))
  ∧ (0 < 4)%Z
  ∧ Z.to_nat 4 + 1 ≤ 5
  ∧ ∃ v' added,
      pad_to_multiple 5 (mk (<["a" := 0]> ∅) ([] ++ ["a"]) ([] ++ [Fin 1]))
                      4 1 = Some (Ok v')
      ∧ ((Z.of_nat (size v') + 1) `mod` 4 = 0)%Z
      ∧ _id_to_token v' = ([] ++ ["a"]) ++ added
      ∧ NoDup added
      ∧ (∀ token, token ∈ added →
           (token ∉ [] ++ ["a"]) ∧ (∃ j, token = filler j))
      ∧ (∀ token k, (<["a" := 0%nat]> ∅ : gmap string nat) !! token = Some k →
                    _token_to_id v' !! token = Some k)
      ∧ (∀ k token, ([] ++ ["a"]) !! k = Some token →
                    _id_to_token v' !! k = Some token)
      ∧ (((Z.of_nat
             (size (mk (<["a" := 0%nat]> ∅) ([] ++ ["a"]) ([] ++ [Fin 1])))
           + 1) `mod` 4 = 0)%Z
         → v' = mk (<["a" := 0]> ∅) ([] ++ ["a"]) ([] ++ [Fin 1]))
      ∧ wf v'.
Proof.
  assert (wf (mk (<["a" := 0]> ∅) ([] ++ ["a"]) ([] ++ [Fin 1]))) as Hwf
    by exact (wf_append empty "a" (Fin 1) wf_empty).
  split; [exact Hwf|]. split; [lia|]. split; [simpl; lia|].
  apply (pad_to_multiple_spec _ 4 1 5 Hwf); [lia|].
  vm_compute. lia.
Defined.

(** C3 as stated fails: a well-formed vocabulary whose single token
    contains a line feed is written as two lines and read back as two
    tokens. *)
Lemma roundtrip_fails_on_line_feed :
  ¬ (∀ v path (fs : files),
       wf v → NoDup (_id_to_token v) →
       ∃ v' log,
         load (init None) path "default" (serialize v path fs) = Ok (v', log)
         ∧ _id_to_token v' = _id_to_token v
         ∧ size v' = size v).
Proof.
  intros Hclaim.
  destruct (Hclaim (mk (<["x" +:+ String LF "y" := 0]> ∅)
                       ([] ++ ["x" +:+ String LF "y"]) ([] ++ [Fin 1]))
                   "vocab.txt" ∅)
    as (v' & log & Hload & _ & Hsize).
  - exact (wf_append empty ("x" +:+ String LF "y") (Fin 1) wf_empty).
  - apply (bool_decide_unpack _). vm_compute. exact I.
  - vm_compute in Hload. injection Hload as <- _.
    vm_compute in Hsize. discriminate.
Qed.

(** The two other ways the round trip of C3 fails: a carriage return
    inside a token is not read back, and a vocabulary without a token
    writes no file. *)
Lemma roundtrip_drops_carriage_return :
  load (init None) "vocab.txt" "default"
       (serialize (mk {["a" +:+ String CR "b" := 0]} ["a" +:+ String CR "b"]
                      [Fin 1]) "vocab.txt" ∅)
  = Ok (mk {["ab" := 0]} ["ab"] [Fin 1], []).
Proof. vm_compute. reflexivity. Qed.

Lemma roundtrip_of_empty_vocabulary :
  load (init None) "vocab.txt" "default" (serialize empty "vocab.txt" ∅)
  = Raise NotFoundError.
Proof. reflexivity. Qed.

End Witnesses.

(** ** Replacement of unknown target tokens *)

Section ResultLists.
Import Seq2Seq.
Context {A B C D : Type}.

Lemma mapM_result_spec (f : A → result B) (l : list A) :
  (∀ x, x ∈ l → ∃ y, f x = Ok y) →
  ∃ ys, mapM f l = Ok ys ∧ Forall2 (λ x y, f x = Ok y) l ys.
Proof.
  induction l as [|x l IH]; intros Hf; simpl.
  - exists []. split; [done | constructor].
  - destruct (Hf x) as [y Hy]; [left|].
    destruct IH as (ys & Hys & Hall); [intros ? ?; apply Hf; by right|].
    exists (y :: ys). rewrite Hy. simpl. rewrite Hys. simpl.
    split; [done | by constructor].
Qed.

Lemma zip2_with_spec (f : A → B → result C) la lb :
  length la = length lb →
  (∀ i a b, la !! i = Some a → lb !! i = Some b → ∃ c, f a b = Ok c) →
  ∃ cs,
    zip2_with f la lb = Ok cs
    ∧ length cs = length la
    ∧ ∀ i a b, la !! i = Some a → lb !! i = Some b →
               ∃ c, cs !! i = Some c ∧ f a b = Ok c.
Proof.
  revert lb. induction la as [|a la IH]; intros [|b lb] Hlen Hf;
    simpl in *; try lia.
  - exists []. split; [done|]. split; [done|]. intros i ? ? Hi. done.
  - destruct (Hf 0 a b) as [c Hc]; [done..|].
    destruct (IH lb) as (cs & Hcs & Hl & Hpt); [lia| |].
    { intros i ? ? ? ?. by apply (Hf (S i)). }
    exists (c :: cs). rewrite Hc. simpl. rewrite Hcs. simpl.
    split; [done|]. split; [lia|].
    intros [|i] a' b' Ha Hb; simpl in *.
    + injection Ha as <-. injection Hb as <-. by exists c.
    + by apply Hpt.
Qed.

Lemma zip3_with_spec (f : A → B → C → result D) la lb lc :
  length la = length lb → length la = length lc →
  (∀ i a b c, la !! i = Some a → lb !! i = Some b → lc !! i = Some c →
              ∃ d, f a b c = Ok d) →
  ∃ ds,
    zip3_with f la lb lc = Ok ds
    ∧ length ds = length la
    ∧ ∀ i a b c, la !! i = Some a → lb !! i = Some b → lc !! i = Some c →
                 ∃ d, ds !! i = Some d ∧ f a b c = Ok d.
Proof.
  revert lb lc. induction la as [|a la IH]; intros [|b lb] [|c lc] Hlb Hlc Hf;
    simpl in *; try lia.
  - exists []. split; [done|]. split; [done|]. intros i ? ? ? Hi. done.
  - destruct (Hf 0 a b c) as [d Hd]; [done..|].
    destruct (IH lb lc) as (ds & Hds & Hl & Hpt); [lia|lia| |].
    { intros i ? ? ? ? ? ?. by apply (Hf (S i)). }
    exists (d :: ds). rewrite Hd. simpl. rewrite Hds. simpl.
    split; [done|]. split; [lia|].
    intros [|i] a' b' c' Ha Hb Hc; simpl in *.
    + injection Ha as <-. injection Hb as <-. injection Hc as <-.
      by exists d.
    + by apply Hpt.
Qed.

End ResultLists.

Section Argmax.
Import Seq2Seq Seq2SeqSpec.

Lemma Qlt_b_true x y : Qlt_b x y = true → (x < y)%Q.
Proof.
  unfold Qlt_b. intros H. apply negb_true_iff in H.
  apply Qnot_le_lt. intros Hle. apply Qle_bool_iff in Hle. congruence.
Qed.

Lemma Qlt_b_false x y : Qlt_b x y = false → (y <= x)%Q.
Proof.
  unfold Qlt_b. intros H. apply negb_false_iff in H.
  by apply Qle_bool_iff.
Qed.

Lemma argmax_from_spec row : ∀ seen best best_w,
  seen !! best = Some best_w →
  (∀ j w, seen !! j = Some w → (w <= best_w)%Q) →
  is_argmax (seen ++ row) (argmax_from best best_w (length seen) row).
Proof.
  induction row as [|w row IH]; intros seen best best_w Hbest Hmax; simpl.
  - rewrite app_nil_r. by exists best_w.
  - replace (seen ++ w :: row) with ((seen ++ [w]) ++ row)
      by (by rewrite <- app_assoc).
    replace (S (length seen)) with (length (seen ++ [w]))
      by (rewrite length_app; simpl; lia).
    destruct (Qlt_b best_w w) eqn:E.
    + apply Qlt_b_true in E. apply IH.
      * by rewrite list_lookup_middle.
      * intros j w' Hj. apply lookup_app_Some in Hj as [Hj|[_ Hj]].
        -- apply Qlt_le_weak. eapply Qle_lt_trans; [by eapply Hmax | done].
        -- apply list_lookup_singleton_Some in Hj as [_ <-]. apply Qle_refl.
    + apply Qlt_b_false in E. apply IH.
      * by apply lookup_app_l_Some.
      * intros j w' Hj. apply lookup_app_Some in Hj as [Hj|[_ Hj]].
        -- by eapply Hmax.
        -- by apply list_lookup_singleton_Some in Hj as [_ <-].
Qed.

Lemma argmax_spec row :
  0 < length row → ∃ j, argmax row = Ok j ∧ is_argmax row j.
Proof.
  destruct row as [|w row]; simpl; [lia|]. intros _.
  eexists. split; [done|].
  apply (argmax_from_spec row [w] 0 w); [done|].
  intros [|j] w' Hj; [|done]. injection Hj as <-. apply Qle_refl.
Qed.

Lemma is_argmax_lt row j : is_argmax row j → j < length row.
Proof. intros (w & Hw & _). by apply lookup_lt_Some in Hw. Qed.

End Argmax.

Section ReplaceUnknown.
Import Seq2Seq Seq2SeqSpec.

(** One batch element: the three steps on its rows. *)
Lemma replace_row_spec (target_row source_row : list string)
    (rows : list (list Q)) (unknown_token : string) (Tt Ts : nat) :
  length target_row = Tt → length source_row = Ts → shape2 Tt Ts rows →
  0 < Ts →
  ∃ alignment aligned out_row,
    mapM argmax rows = Ok alignment
    ∧ gather_row source_row alignment = Ok aligned
    ∧ zip3_with (λ (c : bool) a b, Ok (if c then a else b))
        (map (λ token, bool_decide (token = unknown_token)) target_row)
        aligned target_row = Ok out_row
    ∧ length out_row = Tt
    ∧ ∀ t token, target_row !! t = Some token →
        if bool_decide (token = unknown_token)
        then ∃ row j src,
               rows !! t = Some row ∧ argmax row = Ok j ∧ is_argmax row j
               ∧ source_row !! j = Some src ∧ out_row !! t = Some src
        else out_row !! t = Some token.
Proof.
  intros Htarget Hsource [Hrows Hrow] HTs.
  destruct (mapM_result_spec argmax rows) as (alignment & Hal & Hargmax).
  { intros row Hin. rewrite Forall_forall in Hrow.
    destruct (argmax_spec row) as (j & Hj & _); [rewrite (Hrow _ Hin); lia|].
    by exists j. }
  destruct (mapM_result_spec
              (λ i, match source_row !! i with
                    | Some x => Ok x
                    | None => Raise InvalidArgumentError
                    end) alignment) as (aligned & Hgather & Haligned).
  { intros j Hin. apply list_elem_of_lookup in Hin as [t Ht].
    destruct (Forall2_lookup_r _ _ _ _ _ Hargmax Ht) as (row & Hrow' & Hj).
    destruct (argmax_spec row) as (j' & Hj' & Hmax).
    { rewrite Forall_forall in Hrow.
      rewrite (Hrow row) by (by eapply list_elem_of_lookup_2). lia. }
    assert (j' = j) as -> by congruence.
    apply is_argmax_lt in Hmax.
    rewrite Forall_forall in Hrow.
    rewrite (Hrow row) in Hmax by (by eapply list_elem_of_lookup_2).
    destruct (lookup_lt_is_Some_2 source_row j) as [src Hsrc]; [lia|].
    exists src. by rewrite Hsrc. }
  pose proof (Forall2_length _ _ _ Hargmax) as Hlen1.
  pose proof (Forall2_length _ _ _ Haligned) as Hlen2.
  destruct (zip3_with_spec (λ (c : bool) (a b : string), Ok (if c then a else b))
              (map (λ token, bool_decide (token = unknown_token)) target_row)
              aligned target_row) as (out_row & Hout & Hlen & Hpt).
  { rewrite length_map. lia. }
  { by rewrite length_map. }
  { intros. by eexists. }
  exists alignment, aligned, out_row. do 3 (split; [done|]).
  split; [by rewrite Hlen, length_map|].
  intros t token Ht.
  assert (t < Tt) as Hlt by (apply lookup_lt_Some in Ht; lia).
  destruct (lookup_lt_is_Some_2 rows t) as [row Hrow']; [lia|].
  destruct (Forall2_lookup_l _ _ _ _ _ Hargmax Hrow') as (j & Hj & Hamax).
  destruct (Forall2_lookup_l _ _ _ _ _ Haligned Hj) as (src & Hsrc & Hget).
  destruct (source_row !! j) as [src'|] eqn:Hsj; [|done].
  injection Hget as ->.
  destruct (Hpt t (bool_decide (token = unknown_token)) src token)
    as (d & Hd & Hval); [by rewrite list_lookup_fmap, Ht|done..|].
  injection Hval as <-.
  destruct (bool_decide (token = unknown_token)); [|done].
  exists row, j, src. do 2 (split; [done|]). split; [|done].
  destruct (argmax_spec row) as (j' & Hj' & Hmax).
  { rewrite Forall_forall in Hrow.
    rewrite (Hrow row) by (by eapply list_elem_of_lookup_2). lia. }
  by assert (j' = j) as <- by congruence.
Qed.

End ReplaceUnknown.

Section ReplaceUnknownBatch.
Import Seq2Seq Seq2SeqSpec.

Lemma at2_Some {A} (x : list (list A)) b t a :
  at2 x b t = Some a ↔ ∃ row, x !! b = Some row ∧ row !! t = Some a.
Proof.
  unfold at2. destruct (x !! b) as [row|]; simpl.
  - split; [by exists row | by intros (? & [= <-] & ?)].
  - split; [done | by intros (? & ? & ?)].
Qed.

Lemma replace_unknown_target_batch B Tt Ts
    (target_tokens source_tokens : list (list string))
    (attention : list (list (list Q))) (unknown_token : string) :
  shape2 B Tt target_tokens → shape2 B Ts source_tokens →
  shape3 B Tt Ts attention → 0 < Ts →
  ∃ out,
    replace_unknown_target target_tokens source_tokens attention
                           unknown_token = Ok out
    ∧ shape2 B Tt out
    ∧ ∀ b t token, at2 target_tokens b t = Some token →
        if bool_decide (token = unknown_token)
        then ∃ row j src,
               at2 attention b t = Some row
               ∧ argmax row = Ok j ∧ is_argmax row j
               ∧ at2 source_tokens b j = Some src
               ∧ at2 out b t = Some src
        else at2 out b t = Some token.
Proof.
  intros [HBt Ht] [HBs Hs] [HBa Ha] HTs.
  assert (∀ b target_row source_row rows,
            target_tokens !! b = Some target_row →
            source_tokens !! b = Some source_row →
            attention !! b = Some rows →
            length target_row = Tt ∧ length source_row = Ts
            ∧ shape2 Tt Ts rows) as Hshapes.
  { intros b tr sr rows H1 H2 H3.
    rewrite Forall_lookup in Ht. rewrite Forall_lookup in Hs.
    rewrite Forall_lookup in Ha.
    split; [by eapply Ht | split; [by eapply Hs | by eapply Ha]]. }
  (* the alignment *)
  destruct (mapM_result_spec (mapM argmax) attention)
    as (alignment & Halignment & Hal).
  { intros rows Hin. apply list_elem_of_lookup in Hin as [b Hb].
    destruct (lookup_lt_is_Some_2 target_tokens b) as [tr Htr];
      [apply lookup_lt_Some in Hb; lia|].
    destruct (lookup_lt_is_Some_2 source_tokens b) as [sr Hsr];
      [apply lookup_lt_Some in Hb; lia|].
    destruct (Hshapes b tr sr rows) as (H1 & H2 & H3); [done..|].
    destruct (replace_row_spec tr sr rows unknown_token Tt Ts)
      as (al & _ & _ & Hmap & _); [done..|].
    by exists al. }
  pose proof (Forall2_length _ _ _ Hal) as Hlen_al.
  (* the gathered source tokens *)
  destruct (zip2_with_spec gather_row source_tokens alignment)
    as (aligned & Haligned & Hlen_aligned & Hgather); [lia| |].
  { intros b sr al Hsr Hb.
    destruct (Forall2_lookup_r _ _ _ _ _ Hal Hb) as (rows & Hrows & Hmap).
    destruct (lookup_lt_is_Some_2 target_tokens b) as [tr Htr];
      [apply lookup_lt_Some in Hsr; lia|].
    destruct (Hshapes b tr sr rows) as (H1 & H2 & H3); [done..|].
    destruct (replace_row_spec tr sr rows unknown_token Tt Ts)
      as (al' & ar & _ & Hmap' & Hg & _); [done..|].
    exists ar. congruence. }
  (* the selection *)
  destruct (zip3_with_spec
              (zip3_with (λ (c : bool) (a b : string), Ok (if c then a else b)))
              (tf_equal target_tokens unknown_token) aligned target_tokens)
    as (out & Hout & Hlen_out & Hselect).
  { unfold tf_equal. rewrite length_map. lia. }
  { unfold tf_equal. by rewrite length_map. }
  { intros b c ar tr Hc Har Htr.
    unfold tf_equal in Hc. rewrite list_lookup_fmap, Htr in Hc.
    injection Hc as <-.
    destruct (lookup_lt_is_Some_2 source_tokens b) as [sr Hsr];
      [apply lookup_lt_Some in Htr; lia|].
    destruct (lookup_lt_is_Some_2 alignment b) as [al Hb];
      [apply lookup_lt_Some in Htr; lia|].
    destruct (Forall2_lookup_r _ _ _ _ _ Hal Hb) as (rows & Hrows & Hmap).
    destruct (Hshapes b tr sr rows) as (H1 & H2 & H3); [done..|].
    destruct (replace_row_spec tr sr rows unknown_token Tt Ts)
      as (al' & ar' & orow & Hmap' & Hg & Hz & _); [done..|].
    destruct (Hgather b sr al Hsr Hb) as (ar'' & Har'' & Hg'').
    exists orow. replace ar with ar'; [done|]. congruence. }
  (* each batch element of the result is the row of [replace_row_spec] *)
  assert (∀ b target_row, target_tokens !! b = Some target_row →
            ∃ source_row rows out_row,
              source_tokens !! b = Some source_row
              ∧ attention !! b = Some rows
              ∧ out !! b = Some out_row
              ∧ length out_row = Tt
              ∧ ∀ t token, target_row !! t = Some token →
                  if bool_decide (token = unknown_token)
                  then ∃ row j src,
                         rows !! t = Some row ∧ argmax row = Ok j
                         ∧ is_argmax row j
                         ∧ source_row !! j = Some src
                         ∧ out_row !! t = Some src
                  else out_row !! t = Some token) as Hrow.
  { intros b tr Htr.
    destruct (lookup_lt_is_Some_2 source_tokens b) as [sr Hsr];
      [apply lookup_lt_Some in Htr; lia|].
    destruct (lookup_lt_is_Some_2 alignment b) as [al Hb];
      [apply lookup_lt_Some in Htr; lia|].
    destruct (Forall2_lookup_r _ _ _ _ _ Hal Hb) as (rows & Hrows & Hmap).
    destruct (Hshapes b tr sr rows) as (H1 & H2 & H3); [done..|].
    destruct (replace_row_spec tr sr rows unknown_token Tt Ts)
      as (al' & ar' & orow & Hmap' & Hg & Hz & Hlen & Hpt); [done..|].
    destruct (Hgather b sr al Hsr Hb) as (ar & Har & Hg').
    destruct (Hselect b (map (λ token, bool_decide (token = unknown_token)) tr)
                      ar tr) as (orow' & Horow' & Hz');
      [by unfold tf_equal; rewrite list_lookup_fmap, Htr|done..|].
    exists sr, rows, orow. do 2 (split; [done|]).
    split; [|done]. rewrite Horow'. f_equal.
    assert (al' = al) as -> by congruence.
    assert (ar' = ar) as -> by congruence.
    congruence. }
  exists out. split.
  { unfold replace_unknown_target, align_tokens_from_attention.
    rewrite Halignment. simpl. rewrite Haligned. simpl. exact Hout. }
  split.
  { split; [unfold tf_equal in Hlen_out; rewrite length_map in Hlen_out; lia|].
    apply Forall_lookup. intros b orow Hb.
    destruct (lookup_lt_is_Some_2 target_tokens b) as [tr Htr].
    { apply lookup_lt_Some in Hb. unfold tf_equal in Hlen_out.
      rewrite length_map in Hlen_out. lia. }
    destruct (Hrow b tr Htr) as (sr & rows & orow' & _ & _ & Ho & Hl & _).
    congruence. }
  intros b t token (tr & Htr & Htoken)%at2_Some.
  destruct (Hrow b tr Htr) as (sr & rows & orow & Hsr & Hrows & Ho & _ & Hpt).
  specialize (Hpt t token Htoken).
  destruct (bool_decide (token = unknown_token)).
  - destruct Hpt as (row & j & src & H1 & H2 & H3 & H4 & H5).
    exists row, j, src. rewrite !at2_Some.
    split; [by exists rows|]. do 2 (split; [done|]).
    split; [by exists sr | by exists orow].
  - rewrite at2_Some. by exists orow.
Qed.

(** C5: on a batch of target tokens [[B, T_t]], source tokens [[B, T_s]]
    and attention [[B, T_t, T_s]] with [T_s > 0],
    [replace_unknown_target] returns a tensor of the shape of the target
    in which each position that held the unknown token holds the source
    token, of the same batch element, at the argmax of the attention row
    of that position (a position of the largest weight), and every other
    position holds its target token. In particular, with target
    [[UNK, "cat"]], source [["the", "cat", "sat"]] and an attention whose
    row 0 has its argmax at index 1, the result is [["cat", "cat"]]. *)
Theorem replace_unknown_target_spec :
  (∀ B Tt Ts (target_tokens source_tokens : list (list string))
     (attention : list (list (list Q))) (unknown_token : string),
     shape2 B Tt target_tokens → shape2 B Ts source_tokens →
     shape3 B Tt Ts attention → 0 < Ts →
     ∃ out,
       replace_unknown_target target_tokens source_tokens attention
                              unknown_token = Ok out
       ∧ shape2 B Tt out
       ∧ ∀ b t token, at2 target_tokens b t = Some token →
           if bool_decide (token = unknown_token)
           then ∃ row j src,
                  at2 attention b t = Some row
                  ∧ argmax row = Ok j ∧ is_argmax row j
                  ∧ at2 source_tokens b j = Some src
                  ∧ at2 out b t = Some src
           else at2 out b t = Some token)
  ∧ (∀ (unknown_token : string) (row0 row1 : list Q),
       unknown_token ≠ "cat" →
       length row0 = 3 → length row1 = 3 → argmax row0 = Ok 1 →
       replace_unknown_target [[unknown_token; "cat"]]
                              [["the"; "cat"; "sat"]]
                              [[row0; row1]] unknown_token
       = Ok [["cat"; "cat"]]).
Proof.
  split; [exact replace_unknown_target_batch|].
  intros unk row0 row1 Hunk Hl0 Hl1 Hrow0.
  destruct (replace_unknown_target_batch 1 2 3 [[unk; "cat"]]
              [["the"; "cat"; "sat"]] [[row0; row1]] unk)
    as (out & Hout & [Hlen Hrows] & Hpt).
  { split; [done|]. by repeat constructor. }
  { split; [done|]. by repeat constructor. }
  { split; [done|]. repeat constructor; done. }
  { lia. }
  rewrite Hout. f_equal.
  pose proof (Hpt 0 0 unk eq_refl) as H0.
  pose proof (Hpt 0 1 "cat" eq_refl) as H1.
  rewrite bool_decide_eq_true_2 in H0 by done.
  rewrite bool_decide_eq_false_2 in H1 by done.
  destruct H0 as (row & j & src & Hrow & Hj & _ & Hsrc & H0).
  injection Hrow as <-.
  assert (j = 1) as -> by congruence.
  injection Hsrc as <-.
  destruct out as [|orow [|? ?]]; simpl in Hlen; try lia.
  apply Forall_cons in Hrows as [Horow _].
  destruct orow as [|x [|y [|? ?]]]; simpl in Horow; try lia.
  unfold at2 in H0, H1. simpl in H0, H1. congruence.
Qed.

Lemma replace_unknown_target_spec_witness :
  replace_unknown_target [["<unk>"; "cat"]] [["the"; "cat"; "sat"]]
    [[ [1#10; 7#10; 2#10]%Q; [3#10; 3#10; 4#10]%Q ]] "<unk>"
  = Ok [["cat"; "cat"]].
Proof.
  apply (proj2 replace_unknown_target_spec "<unk>"
               [1#10; 7#10; 2#10]%Q [3#10; 3#10; 4#10]%Q);
    [discriminate | reflexivity | reflexivity | reflexivity].
Defined.

End ReplaceUnknownBatch.

(** ** The end of [_dynamic_decode]: number of hypotheses *)

Section Hypotheses.
Import Seq2Seq.

Lemma slice_hypotheses_count (n : Z) value :
  Forall (λ k, k ≤ Z.to_nat n) (hypotheses_count (slice_hypotheses n value)).
Proof.
  destruct value; simpl; apply Forall_fmap, Forall_fmap, Forall_forall;
    intros row _; simpl; rewrite length_take; lia.
Qed.

Lemma restrict_hypotheses_too_many (beam_size num_hypotheses : Z) predictions :
  (0 ≤ beam_size)%Z → (beam_size < num_hypotheses)%Z →
  restrict_hypotheses beam_size num_hypotheses predictions = Raise ValueError.
Proof.
  intros Hbeam Hnum. unfold restrict_hypotheses.
  destruct (Z.ltb_spec 0 num_hypotheses); [|lia].
  destruct (Z.ltb_spec beam_size num_hypotheses); [done | lia].
Qed.

Lemma restrict_hypotheses_slices (beam_size num_hypotheses : Z) predictions :
  (0 < num_hypotheses ≤ beam_size)%Z →
  restrict_hypotheses beam_size num_hypotheses predictions
  = Ok (slice_hypotheses num_hypotheses <$> predictions).
Proof.
  intros Hnum. unfold restrict_hypotheses.
  destruct (Z.ltb_spec 0 num_hypotheses); [|lia].
  destruct (Z.ltb_spec beam_size num_hypotheses); [lia | done].
Qed.

Context {Ids Noise : Type}.
Variable lite_output : Z → Ids → Ids.
Variable add_noise :
  list (list (list string)) → list (list Z) → Noise →
  result (list (list (list string)) * list (list Z)).
Variable detokenize :
  list (list (list string)) → list (list Z) → list (list string).

(** C9, amended: outside the TensorFlow Lite mode, and when the optional
    noise step does not raise, the end of [_dynamic_decode] raises
    [ValueError] if [num_hypotheses] exceeds a (non-negative) beam width,
    and for [0 < num_hypotheses <= beam_width] returns the predictions of
    the unrestricted run with every field cut to its first
    [num_hypotheses] hypotheses of each input (the order of the
    hypotheses is the decoder's). *)
Theorem dynamic_decode_restricts_hypotheses
    (p : params) in_graph target_tokens sampled_length log_probs alignment
    (beam_size n : Z) :
  beam_size = default 1%Z (beam_width p) →
  n = default 1%Z (num_hypotheses p) →
  (0 ≤ beam_size)%Z →
  (∀ noise, decoding_noise p = Some noise →
            ∃ noised, add_noise target_tokens sampled_length noise = Ok noised) →
  ((beam_size < n)%Z →
   dynamic_decode_finish lite_output add_noise detokenize p in_graph
     (TargetTokens target_tokens) sampled_length log_probs alignment
   = Raise ValueError)
  ∧ ((0 < n ≤ beam_size)%Z →
     ∃ full,
       dynamic_decode_finish lite_output add_noise detokenize
         (Params (beam_width p) (decoding_noise p) (Some 0%Z)) in_graph
         (TargetTokens target_tokens) sampled_length log_probs alignment
       = Ok (Predictions full)
       ∧ dynamic_decode_finish lite_output add_noise detokenize p in_graph
           (TargetTokens target_tokens) sampled_length log_probs alignment
         = Ok (Predictions (slice_hypotheses n <$> full))
       ∧ ∀ key value,
           (slice_hypotheses n <$> full) !! key = Some value →
           Forall (λ k, k ≤ Z.to_nat n) (hypotheses_count value)).
Proof.
  intros -> -> Hbeam Hnoise. unfold dynamic_decode_finish. simpl.
  set (noised :=
         match decoding_noise p with
         | Some noise =>
             add_noise target_tokens sampled_length noise
               ≫= (λ '(tokens, lengths), Ok (tokens, lengths, None))
         | None => Ok (target_tokens, sampled_length, alignment)
         end).
  assert (∃ r, noised = Ok r) as [[[tokens lengths] al] ->].
  { subst noised. destruct (decoding_noise p) as [noise|]; [|by eexists].
    destruct (Hnoise noise eq_refl) as [[t l] ->]. by eexists. }
  simpl. split.
  - intros Hn. by rewrite restrict_hypotheses_too_many.
  - intros Hn. eexists. split; [reflexivity|].
    rewrite restrict_hypotheses_slices by done. simpl.
    split; [done|].
    intros key value. rewrite lookup_fmap.
    destruct (_ !! key) as [v|]; simpl; [|done].
    intros [= <-]. apply slice_hypotheses_count.
Qed.

End Hypotheses.

Section HypothesesExamples.
Import Seq2Seq.

(** C9 as stated fails in the TensorFlow Lite mode: with
    [num_hypotheses = 2] and [beam_width = 1] the ids are returned before
    the number of hypotheses is looked at. *)
Lemma lite_mode_returns_before_hypotheses_check :
  dynamic_decode_finish (Ids := list Z) (Noise := unit)
    (λ _ ids, ids) (λ tokens lengths _, Ok (tokens, lengths)) (λ _ _, [])
    (Params (Some 1%Z) None (Some 2%Z)) false
    (LiteIds [4; 8; 2]%Z) [] [] None
  = Ok (LiteOutput [4; 8; 2]%Z)
  ∧ dynamic_decode_finish (Ids := list Z) (Noise := unit)
      (λ _ ids, ids) (λ tokens lengths _, Ok (tokens, lengths)) (λ _ _, [])
      (Params (Some 1%Z) None (Some 2%Z)) false
      (LiteIds [4; 8; 2]%Z) [] [] None
    ≠ Raise ValueError.
Proof. split; [reflexivity | discriminate]. Qed.

Lemma dynamic_decode_restricts_hypotheses_witness :
  dynamic_decode_finish (Ids := list Z) (Noise := unit)
    (λ _ ids, ids) (λ tokens lengths _, Ok (tokens, lengths)) (λ _ _, [])
    (Params (Some 1%Z) None (Some 2%Z)) false
    (TargetTokens [[["a"; "b"]]]) [[2%Z]] [[(-1 # 2)%Q]] None
  = Raise ValueError.
Proof.
  apply (dynamic_decode_restricts_hypotheses
           (Ids := list Z) (Noise := unit)
           (λ _ ids, ids) (λ tokens lengths _, Ok (tokens, lengths))
           (λ _ _, []) (Params (Some 1%Z) None (Some 2%Z)) false
           [[["a"; "b"]]] [[2%Z]] [[(-1 # 2)%Q]] None 1%Z 2%Z);
    [reflexivity | reflexivity | lia | discriminate | lia].
Defined.

End HypothesesExamples.

(** ** Which loss [compute_loss] returns *)

Section LossSelection.
Import Seq2Seq.
Context {Logits Labels Attention Loss Normalizer MaxMargin : Type}.
Variable max_margin_loss : Logits → Labels → Logits → Q → MaxMargin.
Variable cross_entropy_sequence_loss :
  Logits → Labels → Q → bool → bool → bool → Loss * Normalizer * Normalizer.
Variable guided_alignment_cost : Attention → Labels → string → Q → Loss.
Variable loss_add : Loss → Loss → Loss.
Variable has_alignment : Labels → bool.

(** With noisy logits and contrastive learning, the max-margin loss. *)
Lemma compute_loss_max_margin p o labels training noisy :
  noisy_logits o = Some noisy → contrastive_learning p = true →
  compute_loss max_margin_loss cross_entropy_sequence_loss
               guided_alignment_cost loss_add has_alignment
               p o labels training
  = (MaxMarginLoss
       (max_margin_loss (logits o) labels noisy
                        (default (1 # 10)%Q (max_margin_eta p))),
     false).
Proof. intros Hn Hc. unfold compute_loss. by rewrite Hn, Hc. Qed.

(** Otherwise the cross-entropy sequence loss, called with the configured
    label smoothing; its normalizers are returned as they are, and so is
    its loss outside training. *)
Lemma compute_loss_cross_entropy p o labels training :
  noisy_logits o = None ∨ contrastive_learning p = false →
  ∃ loss,
    (compute_loss max_margin_loss cross_entropy_sequence_loss
                  guided_alignment_cost loss_add has_alignment
                  p o labels training).1
    = SequenceLoss loss
        (cross_entropy_sequence_loss (logits o) labels
           (default 0%Q (label_smoothing p))
           (default false (average_loss_in_time p))
           (default false (mask_loss_outliers p)) training).1.2
        (cross_entropy_sequence_loss (logits o) labels
           (default 0%Q (label_smoothing p))
           (default false (average_loss_in_time p))
           (default false (mask_loss_outliers p)) training).2
    ∧ (training = false →
       loss = (cross_entropy_sequence_loss (logits o) labels
                 (default 0%Q (label_smoothing p))
                 (default false (average_loss_in_time p))
                 (default false (mask_loss_outliers p)) training).1.1).
Proof.
  intros Hsel. unfold compute_loss.
  destruct (cross_entropy_sequence_loss _ _ _ _ _ _) as [[loss n1] n2].
  assert (match noisy_logits o, contrastive_learning p with
          | Some _, true => False
          | _, _ => True
          end) as Hcase.
  { destruct Hsel as [-> | ->]; [done|]. by destruct (noisy_logits o). }
  destruct (noisy_logits o) as [noisy|], (contrastive_learning p);
    try done; simpl.
  all: destruct training; simpl.
  all: try destruct (has_alignment labels), (guided_alignment_type p),
         (attention o); simpl.
  all: eexists; split; [reflexivity | done].
Qed.

End LossSelection.

(** ** What the mutating methods keep: distinct tokens, counted
    frequencies *)

Section BuiltInvariants.
Import Vocab VocabSpec VocabExt ExtSpec.

Lemma freq_incr_counted f : counted f → counted (freq_incr f).
Proof.
  unfold counted. destruct f as [x|]; simpl; [|done].
  rewrite !Z.ltb_ge. lia.
Qed.

Lemma add_proper v token v' : proper v → add v token = Ok v' → proper v'.
Proof.
  intros (Hwf & Hnd & Hfr) Hadd.
  split; [by eapply add_wf|].
  revert Hadd. unfold add.
  destruct (_token_to_id v !! token) as [i|] eqn:Hi.
  - destruct (_frequency v !! i) as [f|] eqn:Hf; [|done].
    intros [= <-]. simpl. split; [done|].
    apply Forall_insert; [done|]. apply freq_incr_counted.
    by eapply Forall_lookup_1 in Hfr.
  - intros [= <-]. simpl. split.
    + apply NoDup_app. split; [done|]. split; [|apply NoDup_singleton].
      intros t Ht ->%list_elem_of_singleton.
      apply (wf_known v _ Hwf) in Ht as [? ?]. congruence.
    + apply Forall_app. split; [done|]. by repeat constructor.
Qed.

Lemma load_proper v path file_format fs v' log :
  proper v → load v path file_format fs = Ok (v', log) → proper v'.
Proof.
  intros (Hwf & Hnd & Hfr). unfold load. destruct (negb _); [done|].
  destruct (fs !! path) as [content|]; [|done]. intros Hload.
  destruct (read_tokens file_format 0 (readlines content)) as [entries|e]
    eqn:Hread.
  - destruct (load_loop_spec file_format path _ 0 v [] entries Hwf Hread)
      as (v1 & Hload1 & Hwf1 & Htok & Hfreq & _).
    assert (v1 = v') as -> by congruence.
    split; [done|]. rewrite Htok, Hfreq. split.
    + apply NoDup_app. split; [done|].
      split; [|apply first_occurrences_NoDup].
      intros t Ht Ht'. by apply first_occurrences_elem_of in Ht' as [_ ?].
    + apply Forall_app. split; [done|]. by apply Forall_replicate.
  - rewrite (load_loop_raises _ _ _ _ _ _ _ Hread) in Hload. done.
Qed.

Lemma pad_loop_proper fuel : ∀ v multiple num_oov_buckets i v',
  proper v → pad_loop fuel v multiple num_oov_buckets i = Some (Ok v') →
  proper v'.
Proof.
  induction fuel as [|fuel IH]; intros v m b i v' Hv; simpl; [done|].
  destruct (bool_decide (m = 0%Z)); [done|].
  destruct (bool_decide _); [|by intros [= <-]].
  destruct (add v (filler i)) as [v1|] eqn:Hadd; [|done].
  apply IH. by eapply add_proper.
Qed.

Lemma built_from_proper sp v : NoDup sp → built_from sp v → proper v.
Proof.
  intros Hsp.
  induction 1 as [|v token v' _ IH Hadd|v path ff fs v' log _ IH Hload
                 |v fuel m b v' _ IH Hpad].
  - split; [apply init_wf|].
    destruct (init_loop_spec empty sp) as [H1 H2]. simpl in *.
    rewrite H1, H2 by done. simpl. split; [done|].
    by apply Forall_replicate.
  - by eapply add_proper.
  - by eapply load_proper.
  - by eapply pad_loop_proper.
Qed.

(** In a vocabulary built from pairwise distinct special tokens by [add],
    [load] and [pad_to_multiple], no token is listed twice, the dictionary
    and the list are inverse to each other, the containers are aligned and
    every frequency is at least 1. *)
Theorem built_vocabulary_is_bijective sp v :
  NoDup sp → built_from sp v →
  NoDup (_id_to_token v)
  ∧ (∀ token i,
       _token_to_id v !! token = Some i ↔ _id_to_token v !! i = Some token)
  ∧ length (_frequency v) = length (_id_to_token v)
  ∧ base.size (_token_to_id v) = size v
  ∧ Forall counted (_frequency v).
Proof.
  intros Hsp Hbuilt.
  destruct (built_from_proper sp v Hsp Hbuilt) as (Hwf & Hnd & Hfr).
  split; [done|].
  assert (∀ token i,
            _token_to_id v !! token = Some i ↔ _id_to_token v !! i = Some token)
    as Hinv.
  { intros token i. split; [apply (wf_token_to_id v Hwf)|].
    intros Hi.
    destruct (wf_id_to_token v Hwf token) as [i' Hi'];
      [by eapply list_elem_of_lookup_2|].
    rewrite Hi'. f_equal.
    apply (wf_token_to_id v Hwf) in Hi'. by eapply NoDup_lookup. }
  split; [done|]. split; [apply (wf_frequency v Hwf)|]. split; [|done].
  unfold size.
  rewrite <- (size_dom (D:=gset string)).
  rewrite <- (size_list_to_set (C:=gset string) (_id_to_token v)) by done.
  f_equal. apply set_eq. intros token.
  rewrite elem_of_dom, elem_of_list_to_set. symmetry. by apply wf_known.
Qed.

Lemma built_vocabulary_is_bijective_witness :
  NoDup ["<s>"; "</s>"]
  ∧ ∃ v,
      built_from ["<s>"; "</s>"] v
      ∧ NoDup (_id_to_token v)
      ∧ (∀ token i,
           _token_to_id v !! token = Some i ↔ _id_to_token v !! i = Some token)
      ∧ length (_frequency v) = length (_id_to_token v)
      ∧ base.size (_token_to_id v) = size v
      ∧ Forall counted (_frequency v).
Proof.
  assert (NoDup ["<s>"; "</s>"]) as Hnd
    by (apply (bool_decide_unpack _); vm_compute; exact I).
  split; [exact Hnd|].
  exists (init (Some ["<s>"; "</s>"])).
  split; [apply built_init|].
  exact (built_vocabulary_is_bijective _ _ Hnd (built_init _)).
Defined.

End BuiltInvariants.

(** ** [add], [lookup] and [__contains__] together *)

Section AddLookup.
Import Vocab VocabSpec VocabExt ExtSpec.

(** After [add(token)] on a well-formed vocabulary, [lookup(token)] is the
    id of the token and [lookup] of that id is the token; the id is the old
    one when the token was known (the size is unchanged) and the old size
    otherwise (the size grows by one); the ids of the other tokens are
    untouched. *)
Theorem add_then_lookup {D} v token v' (default : D) :
  wf v → add v token = Ok v' →
  ∃ i,
    lookup v' (IdStr token) default = Ok (FoundId i)
    ∧ lookup v' (IdInt (Z.of_nat i)) default = Ok (FoundToken token)
    ∧ match _token_to_id v !! token with
      | Some j => i = j ∧ size v' = size v
      | None => i = size v ∧ size v' = S (size v)
      end
    ∧ ∀ other, other ≠ token →
        lookup v' (IdStr other) default = lookup v (IdStr other) default.
Proof.
  intros Hwf Hadd. pose proof (add_wf _ _ _ Hwf Hadd) as Hwf'.
  revert Hadd. unfold add.
  destruct (_token_to_id v !! token) as [j|] eqn:Hj.
  - destruct (_frequency v !! j) as [f|]; [|done]. intros [= <-].
    exists j.
    split; [apply lookup_token_known; exact Hj|].
    split; [|done].
    apply lookup_id_in_range; [lia|]. rewrite Nat2Z.id. simpl.
    by apply (wf_token_to_id v Hwf).
  - intros [= <-]. exists (size v).
    split; [apply lookup_token_known; simpl; by rewrite lookup_insert_eq|].
    split; [|split].
    + apply lookup_id_in_range; [lia|]. rewrite Nat2Z.id. simpl.
      by apply list_lookup_middle.
    + split; [done|]. unfold size. simpl. rewrite length_app. simpl. lia.
    + intros other Hne. unfold lookup. simpl.
      by rewrite lookup_insert_ne.
Qed.

Lemma add_then_lookup_witness :
  ∃ v v',
    wf v ∧ add v "b" = Ok v'
    ∧ ∃ i,
        lookup v' (IdStr "b") tt = Ok (FoundId i)
        ∧ lookup v' (IdInt (Z.of_nat i)) tt = Ok (FoundToken "b")
        ∧ match _token_to_id v !! "b" with
          | Some j => i = j ∧ size v' = size v
          | None => i = size v ∧ size v' = S (size v)
          end
        ∧ ∀ other, other ≠ "b" →
            lookup v' (IdStr other) tt = lookup v (IdStr other) tt.
Proof.
  assert (wf (mk (<["a" := 0]> ∅) ([] ++ ["a"]) ([] ++ [Fin 1]))) as Hwf
    by exact (wf_append empty "a" (Fin 1) wf_empty).
  eexists _, _. split; [exact Hwf|]. split; [reflexivity|].
  exact (add_then_lookup _ "b" _ tt Hwf eq_refl).
Defined.

(** [token in vocab] on a well-formed vocabulary: for a string, whether it
    is one of the tokens; for a non-negative id, whether it is below the
    size. Neither raises. *)
Theorem contains_spec v :
  wf v →
  (∀ token,
     contains v (IdStr token) = Ok (bool_decide (token ∈ _id_to_token v)))
  ∧ (∀ z : Z, (0 ≤ z)%Z →
       contains v (IdInt z) = Ok (bool_decide (z < Z.of_nat (size v))%Z)).
Proof.
  intros Hwf. split.
  - intros token. unfold contains.
    destruct (_token_to_id v !! token) as [i|] eqn:Hi.
    + rewrite (lookup_token_known v token i tt Hi). simpl.
      rewrite bool_decide_eq_true_2; [done|].
      apply (wf_known v token Hwf). by eexists.
    + rewrite (lookup_token_unknown v token tt Hi). simpl.
      rewrite bool_decide_eq_false_2; [done|].
      rewrite (wf_known v token Hwf), Hi. by intros [? ?].
  - intros z Hz. unfold contains. case_bool_decide as Hlt.
    + destruct (lookup_lt_is_Some_2 (_id_to_token v) (Z.to_nat z))
        as [token Htoken]; [unfold size in Hlt; lia|].
      by rewrite (lookup_id_in_range v z token tt Hz Htoken).
    + rewrite (lookup_id_too_large v z tt) by lia. done.
Qed.

Lemma contains_spec_witness :
  (∀ token,
     contains (mk (<["a" := 0]> ∅) ([] ++ ["a"]) ([] ++ [Fin 1])) (IdStr token)
     = Ok (bool_decide (token ∈ [] ++ ["a"])))
  ∧ (∀ z : Z, (0 ≤ z)%Z →
       contains (mk (<["a" := 0]> ∅) ([] ++ ["a"]) ([] ++ [Fin 1])) (IdInt z)
       = Ok (bool_decide (z < 1)%Z)).
Proof.
  exact (contains_spec _ (wf_append empty "a" (Fin 1) wf_empty)).
Defined.

End AddLookup.

(** ** [add_from_text]: the frequencies count the occurrences *)

Section AddFromText.
Import Vocab VocabSpec VocabExt ExtSpec.

Lemma occurrences_cons token t tokens :
  occurrences token (t :: tokens)
  = ((if bool_decide (t = token) then 1 else 0) + occurrences token tokens)%Z.
Proof.
  unfold occurrences. rewrite filter_cons.
  case_bool_decide; case_decide; try done; simpl; lia.
Qed.

Lemma occurrences_app token l1 l2 :
  occurrences token (l1 ++ l2)
  = (occurrences token l1 + occurrences token l2)%Z.
Proof. unfold occurrences. rewrite filter_app, length_app. lia. Qed.

Lemma freq_plus_0 f : freq_plus f 0 = f.
Proof. destruct f; simpl; [f_equal; lia | done]. Qed.

Lemma freq_plus_plus f n m : freq_plus (freq_plus f n) m = freq_plus f (n + m).
Proof. destruct f; simpl; [f_equal; lia | done]. Qed.

(** What a run of [add] does to a well-formed vocabulary: it returns; the
    tokens of the stream that were unknown are appended in the order of
    their first occurrence; the frequency of a token that was known grows
    by its number of occurrences, that of a new token is its number of
    occurrences. *)
Lemma add_tokens_spec tokens : ∀ v,
  wf v →
  ∃ v',
    add_tokens v tokens = Ok v'
    ∧ wf v'
    ∧ _id_to_token v' =
        _id_to_token v ++ first_occurrences (_id_to_token v) tokens
    ∧ (∀ token i, _token_to_id v !! token = Some i →
                  _token_to_id v' !! token = Some i)
    ∧ ∀ token i, _token_to_id v' !! token = Some i →
        _frequency v' !! i =
          Some (match _token_to_id v !! token with
                | Some j => freq_plus (_frequency v !!! j)
                                      (occurrences token tokens)
                | None => Fin (occurrences token tokens)
                end).
Proof.
  induction tokens as [|a tokens IH]; intros v Hwf; simpl.
  - exists v. rewrite app_nil_r. do 4 (split; [done|]).
    intros token i Hi. rewrite Hi, freq_plus_0.
    apply (wf_token_to_id v Hwf) in Hi. apply lookup_lt_Some in Hi.
    rewrite <- (wf_frequency v Hwf) in Hi.
    destruct (lookup_lt_is_Some_2 _ _ Hi) as [f Hf].
    by rewrite (list_lookup_total_correct _ _ _ Hf).
  - destruct (add_returns v a Hwf) as [v1 Hadd]. rewrite Hadd. simpl.
    pose proof (add_wf _ _ _ Hwf Hadd) as Hwf1.
    destruct (IH v1 Hwf1) as (v' & Hrun & Hwf' & Htok & Hkeep & Hfreq).
    exists v'. split; [done|]. split; [done|].
    revert Hadd. unfold add.
    destruct (_token_to_id v !! a) as [ja|] eqn:Hja.
    + (* [a] is known: its frequency is incremented *)
      destruct (_frequency v !! ja) as [fa|] eqn:Hfa; [|done].
      intros [= <-]. simpl in *.
      rewrite bool_decide_eq_true_2
        by (apply (wf_known v a Hwf); by eexists).
      split; [done|]. split; [done|].
      intros token i Hi. rewrite (Hfreq token i Hi).
      f_equal. rewrite occurrences_cons.
      destruct (_token_to_id v !! token) as [j|] eqn:Hj; [|
        case_bool_decide; [congruence | done]].
      destruct (decide (j = ja)) as [->|Hne].
      * assert (a = token) as ->.
        { apply (wf_token_to_id v Hwf) in Hja, Hj. congruence. }
        rewrite bool_decide_eq_true_2 by done.
        rewrite list_lookup_total_insert_eq by (by eapply lookup_lt_Some).
        rewrite (list_lookup_total_correct _ _ _ Hfa).
        destruct fa; simpl; [f_equal; lia | done].
      * rewrite list_lookup_total_insert_ne by done.
        rewrite bool_decide_eq_false_2; [done|].
        intros ->. congruence.
    + (* [a] is new: it is appended with frequency 1 *)
      intros [= <-]. simpl in *.
      rewrite bool_decide_eq_false_2.
      2:{ rewrite (wf_known v a Hwf), Hja. by intros [? ?]. }
      split; [by rewrite Htok, <- app_assoc|]. split.
      { intros token i Hi. apply Hkeep. rewrite lookup_insert_ne; [done|].
        congruence. }
      intros token i Hi. rewrite (Hfreq token i Hi).
      f_equal. rewrite occurrences_cons.
      destruct (decide (a = token)) as [->|Hne].
      * rewrite lookup_insert_eq, Hja, bool_decide_eq_true_2 by done.
        unfold size.
        rewrite lookup_total_app_r by (rewrite (wf_frequency v Hwf); lia).
        rewrite (wf_frequency v Hwf), Nat.sub_diag. simpl. done.
      * rewrite lookup_insert_ne, bool_decide_eq_false_2 by done.
        destruct (_token_to_id v !! token) as [j|] eqn:Hj; [|done].
        rewrite lookup_total_app_l; [done|].
        apply (wf_token_to_id v Hwf) in Hj. apply lookup_lt_Some in Hj.
        by rewrite (wf_frequency v Hwf).
Qed.

Lemma add_lines_tokens tokenize lines : ∀ v,
  add_lines tokenize lines v
  = add_tokens v (concat ((λ line, tokenize (rstrip CRLF line)) <$> lines)).
Proof.
  assert (∀ l1 l2 v,
            add_tokens v (l1 ++ l2) = add_tokens v l1 ≫= λ v1, add_tokens v1 l2)
    as Happ.
  { induction l1 as [|a l1 IH]; intros l2 v; simpl; [done|].
    destruct (add v a) as [v1|]; simpl; [apply IH | done]. }
  induction lines as [|line lines IH]; intros v; simpl; [done|].
  rewrite Happ. destruct (add_tokens v _) as [v1|]; simpl; [apply IH | done].
Qed.

(** [add_from_text] on a well-formed vocabulary and an existing text file
    returns. The file is given by its lines [lines] (each followed by a
    line end, ["\n"] or ["\r\n"]) and a last line [last] without line
    end, all free of line feeds and carriage returns. With [tokens] the
    tokens of all lines in order, the unknown ones are appended in the
    order of their first occurrence, known tokens keep their ids, and
    afterwards the frequency of a token is its former frequency plus its
    number of occurrences in [tokens] ([inf] stays [inf]; the former
    frequency of a new token is 0). *)
Theorem add_from_text_counts str_split v filename tokenizer (fs : files)
    eol lines last tokens :
  wf v → line_end eol → Forall file_safe lines → file_safe last →
  fs !! filename = Some (text_file eol lines last) →
  tokens = concat (default str_split tokenizer <$> file_lines lines last) →
  ∃ v',
    add_from_text str_split v filename tokenizer fs = Ok v'
    ∧ _id_to_token v' =
        _id_to_token v ++ first_occurrences (_id_to_token v) tokens
    ∧ (∀ token i, _token_to_id v !! token = Some i →
                  _token_to_id v' !! token = Some i)
    ∧ ∀ token i, _token_to_id v' !! token = Some i →
        _frequency v' !! i =
          Some (match _token_to_id v !! token with
                | Some j => freq_plus (_frequency v !!! j)
                                      (occurrences token tokens)
                | None => Fin (occurrences token tokens)
                end).
Proof.
  intros Hwf Heol Hlines Hlast Hfile ->.
  unfold add_from_text. rewrite Hfile, add_lines_tokens.
  rewrite (list_fmap_compose (rstrip CRLF) (default str_split tokenizer)).
  rewrite (stripped_readlines eol) by done.
  destruct (add_tokens_spec
              (concat (default str_split tokenizer <$> file_lines lines last))
              v Hwf)
    as (v' & Hrun & _ & Htok & Hkeep & Hfreq).
  by exists v'.
Qed.

Lemma add_from_text_counts_witness :
  ∃ v',
    add_from_text String.words (mk {["b" := 0]} ["b"] [Fin 2]) "corpus.txt"
      None {["corpus.txt" := text_file CRLF ["a b a"] "b a"]} = Ok v'
    ∧ v' = mk {["b" := 0; "a" := 1]} ["b"; "a"] [Fin 4; Fin 3]
    ∧ _id_to_token v'
      = ["b"] ++ first_occurrences ["b"] ["a"; "b"; "a"; "b"; "a"]
    ∧ (∀ token i, ({["b" := 0]} : gmap string nat) !! token = Some i →
                  _token_to_id v' !! token = Some i)
    ∧ ∀ token i, _token_to_id v' !! token = Some i →
        _frequency v' !! i =
          Some (match ({["b" := 0]} : gmap string nat) !! token with
                | Some j => freq_plus ([Fin 2] !!! j)
                              (occurrences token ["a"; "b"; "a"; "b"; "a"])
                | None => Fin (occurrences token ["a"; "b"; "a"; "b"; "a"])
                end).
Proof.
  assert (wf (mk {["b" := 0]} ["b"] [Fin 2])) as Hwf.
  { apply (built_from_wf []).
    apply (built_add _ (mk {["b" := 0]} ["b"] [Fin 1]) "b");
      [|vm_compute; reflexivity].
    apply (built_add _ (init (Some [])) "b");
      [apply built_init | vm_compute; reflexivity]. }
  assert (Forall file_safe ["a b a"]) as Hlines by (repeat constructor).
  assert (file_safe "b a") as Hlast by (by split).
  destruct (add_from_text_counts String.words (mk {["b" := 0]} ["b"] [Fin 2])
              "corpus.txt" None
              {["corpus.txt" := text_file CRLF ["a b a"] "b a"]}
              CRLF ["a b a"] "b a" ["a"; "b"; "a"; "b"; "a"] Hwf)
    as (v' & Hrun & Hrest);
    [by right | exact Hlines | exact Hlast | reflexivity
     | vm_compute; reflexivity |].
  exists v'. split; [exact Hrun|]. split; [|exact Hrest].
  vm_compute in Hrun. by injection Hrun as <-.
Defined.

End AddFromText.

(** ** More about [prune] *)

Section PruneMore.
Import Vocab VocabSpec VocabExt ExtSpec.

Lemma prune_Ok_length v max_size min_frequency v' :
  prune v max_size min_frequency = Ok v' →
  length (_id_to_token v) ≤ length (_frequency v).
Proof.
  unfold prune, size.
  destruct (Nat.ltb_spec (length (_frequency v)) (length (_id_to_token v)));
    [done | lia].
Qed.

Lemma sorted_ids_lt v k : k ∈ sorted_ids v → k < size v.
Proof. rewrite sorted_ids_perm, elem_of_seq. lia. Qed.

Lemma sorted_ids_NoDup v : NoDup (sorted_ids v).
Proof. rewrite sorted_ids_perm. apply NoDup_seq. Qed.

(** Earlier in the sorted order means a frequency that is not smaller. *)
Lemma sorted_ids_ge v i j ki kj :
  sorted_ids v !! i = Some ki → sorted_ids v !! j = Some kj → i ≤ j →
  freq_lt (_frequency v !!! ki) (_frequency v !!! kj) = false.
Proof.
  intros Hi Hj Hij. destruct (decide (i = j)) as [->|Hne].
  { assert (ki = kj) as -> by congruence. apply freq_lt_irrefl. }
  assert (ranks_before v ki kj) as [Hgt|[-> _]].
  { eapply (StronglySorted_lookup_lt _ _ i j);
      [apply sorted_ids_sorted|done..|lia]. }
  - by apply freq_lt_asym.
  - apply freq_lt_irrefl.
Qed.

Lemma prune_facts v (max_size : Z) (min_frequency : freq) v' :
  prune v max_size min_frequency = Ok v' →
  size v' ≤ size v
  ∧ ((0 < max_size)%Z → (Z.of_nat (size v') ≤ max_size)%Z)
  ∧ (∀ i token f,
       _id_to_token v' !! i = Some token → _frequency v' !! i = Some f →
       ∃ k, _id_to_token v !! k = Some token ∧ _frequency v !! k = Some f)
  ∧ (∀ i j f g,
       i < j → _frequency v' !! i = Some f → _frequency v' !! j = Some g →
       freq_lt f g = false)
  ∧ (∀ i f, 0 < i → _frequency v' !! i = Some f →
            freq_lt f min_frequency = false)
  ∧ (NoDup (_id_to_token v) → NoDup (_id_to_token v')).
Proof.
  intros Hprune. pose proof (prune_Ok_length _ _ _ _ Hprune) as Hle.
  destruct (prune_spec v max_size min_frequency Hle)
    as (r & v1 & Hprune1 & Hids & Hfreqs & _ & Hr & _ & _ & Hlast).
  assert (v1 = v') as -> by congruence.
  set (m := cap max_size r) in *.
  assert (m ≤ r) as Hm by (subst m; unfold cap; destruct (0 <? max_size)%Z; lia).
  pose proof (sorted_ids_length v) as Hlen.
  assert (∀ i k, take m (sorted_ids v) !! i = Some k →
            sorted_ids v !! i = Some k ∧ i < m ∧ k < size v) as Htake.
  { intros i k Hi. apply lookup_take_Some in Hi as [Hi Him].
    split; [done|]. split; [done|].
    apply sorted_ids_lt. by eapply list_elem_of_lookup_2. }
  split; [|split; [|split; [|split; [|split]]]].
  - unfold size at 1. rewrite Hids, length_fmap, length_take. lia.
  - intros Hmax. unfold size. rewrite Hids, length_fmap, length_take.
    subst m. unfold cap. destruct (Z.ltb_spec 0 max_size); lia.
  - intros i token f Htoken Hf. rewrite Hids in Htoken. rewrite Hfreqs in Hf.
    apply list_lookup_fmap_Some in Htoken as (k & -> & Hk).
    apply list_lookup_fmap_Some in Hf as (k' & -> & Hk').
    assert (k' = k) as -> by congruence.
    destruct (Htake i k Hk) as (_ & _ & Hlt). exists k. split.
    + destruct (lookup_lt_is_Some_2 (_id_to_token v) k Hlt) as [x Hx].
      by rewrite (list_lookup_total_correct _ _ _ Hx).
    + destruct (lookup_lt_is_Some_2 (_frequency v) k) as [x Hx];
        [unfold size in Hlt; lia|].
      by rewrite (list_lookup_total_correct _ _ _ Hx).
  - intros i j f g Hij Hf Hg. rewrite Hfreqs in Hf, Hg.
    apply list_lookup_fmap_Some in Hf as (ki & -> & Hki).
    apply list_lookup_fmap_Some in Hg as (kj & -> & Hkj).
    destruct (Htake i ki Hki) as (Hi & _). destruct (Htake j kj Hkj) as (Hj & _).
    eapply sorted_ids_ge; [done..|lia].
  - intros i f Hi Hf. rewrite Hfreqs in Hf.
    apply list_lookup_fmap_Some in Hf as (k & -> & Hk).
    destruct (Htake i k Hk) as (Hk' & Him & _).
    destruct Hlast as [Hr1|Hlast]; [lia|].
    destruct (lookup_lt_is_Some_2 (sorted_ids v) (r - 1)) as [kr Hkr]; [lia|].
    rewrite (list_lookup_total_correct _ _ _ Hkr) in Hlast.
    eapply freq_ge_trans; [|exact Hlast].
    eapply sorted_ids_ge; [done..|lia].
  - intros Hnd. rewrite Hids. apply NoDup_alt. intros i j token Hi Hj.
    apply list_lookup_fmap_Some in Hi as (ki & Hti & Hki).
    apply list_lookup_fmap_Some in Hj as (kj & Htj & Hkj).
    destruct (Htake i ki Hki) as (Hi & _ & Hlti).
    destruct (Htake j kj Hkj) as (Hj & _ & Hltj).
    assert (ki = kj) as ->.
    { destruct (lookup_lt_is_Some_2 (_id_to_token v) ki Hlti) as [x Hx].
      destruct (lookup_lt_is_Some_2 (_id_to_token v) kj Hltj) as [y Hy].
      rewrite (list_lookup_total_correct _ _ _ Hx) in Hti.
      rewrite (list_lookup_total_correct _ _ _ Hy) in Htj.
      subst x y. exact (NoDup_lookup _ _ _ _ Hnd Hx Hy). }
    eapply NoDup_lookup; [apply sorted_ids_NoDup|done..].
Qed.

(** What [prune] returns is a part of the vocabulary: it is not larger and
    holds at most [max_size] entries when [max_size > 0]; each entry is a
    token of the original with its frequency; the frequencies never
    increase along the ids; every entry after the first meets
    [min_frequency]; no token is repeated if none was. *)
Theorem prune_result v (max_size : Z) (min_frequency : freq) v' :
  prune v max_size min_frequency = Ok v' →
  size v' ≤ size v
  ∧ ((0 < max_size)%Z → (Z.of_nat (size v') ≤ max_size)%Z)
  ∧ (∀ i token f,
       _id_to_token v' !! i = Some token → _frequency v' !! i = Some f →
       ∃ k, _id_to_token v !! k = Some token ∧ _frequency v !! k = Some f)
  ∧ (∀ i j f g,
       i < j → _frequency v' !! i = Some f → _frequency v' !! j = Some g →
       freq_lt f g = false)
  ∧ (∀ i f, 0 < i → _frequency v' !! i = Some f →
            freq_lt f min_frequency = false)
  ∧ (NoDup (_id_to_token v) → NoDup (_id_to_token v')).
Proof. apply prune_facts. Qed.

Lemma prune_result_witness :
  ∃ v',
    prune (mk {["a" := 0; "b" := 1; "c" := 2]} ["a"; "b"; "c"]
              [Fin 1; Fin 3; Fin 2]) 2 (Fin 2) = Ok v'
    ∧ size v' ≤ 3
    ∧ ((0 < 2)%Z → (Z.of_nat (size v') ≤ 2)%Z)
    ∧ (∀ i token f,
         _id_to_token v' !! i = Some token → _frequency v' !! i = Some f →
         ∃ k, ["a"; "b"; "c"] !! k = Some token
              ∧ [Fin 1; Fin 3; Fin 2] !! k = Some f)
    ∧ (∀ i j f g,
         i < j → _frequency v' !! i = Some f → _frequency v' !! j = Some g →
         freq_lt f g = false)
    ∧ (∀ i f, 0 < i → _frequency v' !! i = Some f →
              freq_lt f (Fin 2) = false)
    ∧ (NoDup ["a"; "b"; "c"] → NoDup (_id_to_token v')).
Proof.
  eexists. split; [vm_compute; reflexivity|].
  apply (prune_result
           (mk {["a" := 0; "b" := 1; "c" := 2]} ["a"; "b"; "c"]
               [Fin 1; Fin 3; Fin 2]) 2 (Fin 2)).
  vm_compute. reflexivity.
Defined.

Lemma StronglySorted_seq (R : nat → nat → Prop) a n :
  (∀ i j, a ≤ i → i < j → j < a + n → R i j) → StronglySorted R (seq a n).
Proof.
  revert a. induction n as [|n IH]; intros a HR; simpl; [constructor|].
  constructor.
  - apply IH. intros i j ? ? ?. apply HR; lia.
  - apply Forall_forall. intros j Hj. apply elem_of_seq in Hj.
    apply HR; lia.
Qed.

Lemma foldl_insert_ext (f g : nat → string) m (M : gmap string nat) :
  (∀ i, i < m → f i = g i) →
  foldl (λ M i, <[f i := i]> M) M (seq 0 m)
  = foldl (λ M i, <[g i := i]> M) M (seq 0 m).
Proof.
  induction m as [|m IH]; intros Hfg; [done|].
  rewrite seq_S, !foldl_app. simpl.
  rewrite IH by (intros; apply Hfg; lia). by rewrite Hfg by lia.
Qed.

(** Pruning is idempotent: pruning the result again, with the same
    arguments, returns it unchanged. *)
Theorem prune_idempotent v (max_size : Z) (min_frequency : freq) v' :
  prune v max_size min_frequency = Ok v' →
  prune v' max_size min_frequency = Ok v'.
Proof.
  intros Hprune. pose proof (prune_Ok_length _ _ _ _ Hprune) as Hle.
  pose proof (prune_wf _ _ _ _ Hprune) as Hwf'.
  pose proof (prune_facts _ _ _ _ Hprune)
    as (_ & Hmax & _ & Hsorted & Hthreshold & _).
  destruct (prune_spec v max_size min_frequency Hle)
    as (r & v1 & Hprune1 & Hids & Hfreqs & Hmap & Hr & _).
  assert (v1 = v') as -> by congruence.
  assert (length (_id_to_token v') ≤ length (_frequency v')) as Hle'
    by (rewrite (wf_frequency v' Hwf'); lia).
  destruct (prune_spec v' max_size min_frequency Hle')
    as (r' & v'' & Hprune' & Hids' & Hfreqs' & Hmap' & Hr' & Hpos' & Hbelow'
        & _).
  rewrite Hprune'. f_equal.
  set (n := size v') in *.
  assert (length (_frequency v') = n) as Hfl by apply (wf_frequency v' Hwf').
  (* the pruned vocabulary is already in sorted order *)
  assert (sorted_ids v' = seq 0 n) as Hseq.
  { symmetry. apply sorted_ids_unique; [done|].
    apply StronglySorted_seq. intros i j _ Hij Hj.
    destruct (lookup_lt_is_Some_2 (_frequency v') i) as [f Hf]; [lia|].
    destruct (lookup_lt_is_Some_2 (_frequency v') j) as [g Hg]; [lia|].
    unfold ranks_before. simpl.
    rewrite (list_lookup_total_correct _ _ _ Hf),
      (list_lookup_total_correct _ _ _ Hg).
    pose proof (Hsorted i j f g Hij Hf Hg) as Hfg.
    destruct (freq_lt g f) eqn:E; [by left|].
    right. split; [by apply freq_lt_total | done]. }
  rewrite Hseq in *.
  (* nothing more is discarded *)
  assert (r' = n) as ->.
  { destruct (decide (r' = n)) as [|Hne]; [done|]. exfalso.
    assert (0 < n) as Hn by lia. specialize (Hpos' Hn).
    specialize (Hbelow' r'). rewrite lookup_total_seq_lt in Hbelow' by lia.
    simpl in Hbelow'.
    destruct (lookup_lt_is_Some_2 (_frequency v') r') as [f Hf]; [lia|].
    rewrite (list_lookup_total_correct _ _ _ Hf) in Hbelow'.
    rewrite (Hthreshold r' f) in Hbelow' by (done || lia).
    assert (false = true) by (apply Hbelow'; lia). done. }
  assert (cap max_size n = n) as Hcap.
  { unfold cap. destruct (Z.ltb_spec 0 max_size) as [Hpos|]; [|done].
    specialize (Hmax Hpos). fold n in Hmax. lia. }
  rewrite Hcap in *. rewrite firstn_all2 in Hids', Hfreqs'
    by (rewrite length_seq; lia).
  assert (length (_id_to_token v') = n) as Htl by done.
  rewrite lookup_total_seq in Hids' by lia.
  rewrite lookup_total_seq in Hfreqs' by lia.
  rewrite <- Htl, firstn_all in Hids'. rewrite <- Hfl, firstn_all in Hfreqs'.
  destruct v' as [M' T' F'], v'' as [M'' T'' F'']. simpl in *.
  f_equal; [|done..].
  rewrite Hmap', Hmap.
  assert (cap max_size r = n) as Hcapr.
  { subst n. unfold size. simpl. rewrite Hids, length_fmap, length_take.
    pose proof (sorted_ids_length v).
    unfold cap in *. destruct (0 <? max_size)%Z; lia. }
  rewrite Hcapr. apply foldl_insert_ext. intros i Hi.
  rewrite lookup_total_seq_lt by lia. simpl.
  destruct (lookup_lt_is_Some_2 T' i) as [t Ht]; [subst n; unfold size in Hi; simpl in Hi; lia|].
  rewrite (list_lookup_total_correct _ _ _ Ht).
  rewrite Hids in Ht. apply list_lookup_fmap_Some in Ht as (k & -> & Hk).
  apply lookup_take_Some in Hk as [Hk _].
  by rewrite (list_lookup_total_correct _ _ _ Hk).
Qed.

Lemma prune_idempotent_witness :
  ∃ v',
    prune (mk {["a" := 0; "b" := 1; "c" := 2]} ["a"; "b"; "c"]
              [Fin 1; Fin 3; Fin 2]) 0 (Fin 2) = Ok v'
    ∧ prune v' 0 (Fin 2) = Ok v'.
Proof.
  eexists. split; [vm_compute; reflexivity|].
  apply (prune_idempotent
           (mk {["a" := 0; "b" := 1; "c" := 2]} ["a"; "b"; "c"]
               [Fin 1; Fin 3; Fin 2]) 0 (Fin 2)).
  vm_compute. reflexivity.
Defined.

(** [prune()] with its default arguments ([max_size = 0],
    [min_frequency = 1]) removes nothing from a vocabulary built from
    pairwise distinct special tokens by the constructor, [add], [load] and
    [pad_to_multiple]: the result lists the same tokens, reordered by
    frequency. *)
Theorem prune_defaults_keep_all sp v :
  NoDup sp → built_from sp v →
  ∃ v',
    prune v 0 (Fin 1) = Ok v'
    ∧ _id_to_token v' ≡ₚ _id_to_token v
    ∧ size v' = size v.
Proof.
  intros Hsp Hbuilt.
  destruct (built_from_proper sp v Hsp Hbuilt) as (Hwf & _ & Hfr).
  assert (length (_id_to_token v) ≤ length (_frequency v)) as Hle
    by (rewrite (wf_frequency v Hwf); lia).
  destruct (prune_spec v 0 (Fin 1) Hle)
    as (r & v' & Hprune & Hids & _ & _ & Hr & _ & Hbelow & _).
  unfold cap in Hids. simpl in Hids.
  assert (r = size v) as ->.
  { destruct (decide (r = size v)) as [|Hne]; [done|]. exfalso.
    specialize (Hbelow r).
    assert (sorted_ids v !!! r < size v) as Hk.
    { apply sorted_ids_lt, list_elem_of_lookup_total_2.
      rewrite sorted_ids_length. lia. }
    destruct (lookup_lt_is_Some_2 (_frequency v) (sorted_ids v !!! r))
      as [f Hf]; [unfold size in Hk; lia|].
    rewrite (list_lookup_total_correct _ _ _ Hf) in Hbelow.
    eapply Forall_lookup_1 in Hfr; [|exact Hf]. unfold counted in Hfr.
    rewrite Hfr in Hbelow. assert (false = true) by (apply Hbelow; lia). done. }
  rewrite firstn_all2 in Hids by (rewrite sorted_ids_length; lia).
  assert (_id_to_token v' ≡ₚ _id_to_token v) as Hperm.
  { rewrite Hids, sorted_ids_perm.
    rewrite lookup_total_seq by done. unfold size. by rewrite firstn_all. }
  exists v'. split; [done|]. split; [done|].
  unfold size. by rewrite Hperm.
Qed.

Lemma prune_defaults_keep_all_witness :
  NoDup ["<s>"]
  ∧ built_from ["<s>"]
      (mk {["<s>" := 0; "a" := 1; "b" := 2]} ["<s>"; "a"; "b"]
          [PInf; Fin 1; Fin 2])
  ∧ prune (mk {["<s>" := 0; "a" := 1; "b" := 2]} ["<s>"; "a"; "b"]
              [PInf; Fin 1; Fin 2]) 0 (Fin 1)
    = Ok (mk {["<s>" := 0; "b" := 1; "a" := 2]} ["<s>"; "b"; "a"]
             [PInf; Fin 2; Fin 1])
  ∧ ∃ v',
      prune (mk {["<s>" := 0; "a" := 1; "b" := 2]} ["<s>"; "a"; "b"]
                [PInf; Fin 1; Fin 2]) 0 (Fin 1) = Ok v'
      ∧ _id_to_token v' ≡ₚ ["<s>"; "a"; "b"]
      ∧ size v' = 3.
Proof.
  assert (NoDup ["<s>"]) as Hnd
    by (apply (bool_decide_unpack _); vm_compute; exact I).
  assert (built_from ["<s>"]
            (mk {["<s>" := 0; "a" := 1; "b" := 2]} ["<s>"; "a"; "b"]
                [PInf; Fin 1; Fin 2])) as Hbuilt.
  { apply (built_add _ (mk {["<s>" := 0; "a" := 1; "b" := 2]}
                           ["<s>"; "a"; "b"] [PInf; Fin 1; Fin 1]) "b");
      [|vm_compute; reflexivity].
    apply (built_add _ (mk {["<s>" := 0; "a" := 1]} ["<s>"; "a"]
                           [PInf; Fin 1]) "b");
      [|vm_compute; reflexivity].
    apply (built_add _ (init (Some ["<s>"])) "a");
      [apply built_init | vm_compute; reflexivity]. }
  split; [exact Hnd|]. split; [exact Hbuilt|].
  split; [vm_compute; reflexivity|].
  exact (prune_defaults_keep_all _ _ Hnd Hbuilt).
Defined.

End PruneMore.

(** ** More about [load] *)

Section LoadMore.
Import Vocab VocabSpec VocabExt ExtSpec.
Local Arguments String.append : simpl nomatch.

Lemma load_loop_all_known file_format path lines : ∀ i v log entries,
  read_tokens file_format i lines = Ok entries →
  Forall (λ e, is_Some (_token_to_id v !! e.2)) entries →
  load_loop file_format path i lines v log
  = Ok (v, log ++ ((λ e, Warning e.2 path e.1) <$> entries)).
Proof.
  induction lines as [|line lines IH]; intros i v log entries; simpl.
  - intros [= <-] _. simpl. by rewrite app_nil_r.
  - destruct (read_token file_format (rstrip CRLF line)) as [[token|]|e];
      [| |done].
    + destruct (read_tokens file_format (S i) lines) as [es|e] eqn:E;
        [|done].
      simpl. intros [= <-] [[k Hk] Hes]%Forall_cons. simpl in Hk.
      rewrite Hk. rewrite (IH (S i) v _ es E Hes). simpl.
      by rewrite <- app_assoc.
    + intros E Hes. by apply IH.
Qed.

(** Loading the same file a second time changes nothing: the vocabulary is
    returned as it is and each entry of the file is reported as a
    duplicate. *)
Theorem load_twice v path file_format (fs : files) v1 log1 :
  wf v → load v path file_format fs = Ok (v1, log1) →
  ∃ log2,
    load v1 path file_format fs = Ok (v1, log2)
    ∧ length log2 = length log1 + (size v1 - size v).
Proof.
  intros Hwf. unfold load. destruct (negb _); [done|].
  destruct (fs !! path) as [content|]; [|done]. intros Hload.
  destruct (read_tokens file_format 0 (readlines content)) as [entries|e]
    eqn:Hread.
  2:{ rewrite (load_loop_raises _ _ _ _ _ _ _ Hread) in Hload. done. }
  destruct (load_loop_spec file_format path _ 0 v [] entries Hwf Hread)
    as (v' & Hload' & Hwf' & Htok & _).
  rewrite Hload' in Hload. injection Hload as -> <-.
  eexists. split.
  - apply (load_loop_all_known _ _ _ _ _ _ _ Hread).
    apply Forall_forall. intros [line token] Hin. simpl.
    apply (wf_id_to_token v1 Hwf'). rewrite Htok.
    destruct (decide (token ∈ _id_to_token v)) as [Hold|Hnew];
      [apply elem_of_app; by left|].
    apply elem_of_app. right. apply first_occurrences_elem_of.
    split; [|done]. apply list_elem_of_fmap. by exists (line, token).
  - simpl. rewrite length_fmap.
    pose proof (duplicate_warnings_length path (_id_to_token v) entries) as Hl.
    unfold size. rewrite Htok, length_app. lia.
Qed.

Lemma load_twice_witness :
  ∃ v1 log1,
    wf empty
    ∧ load empty "vocab.txt" "default"
           {["vocab.txt" := "a" +:+ String LF ("b" +:+ String LF "a")]}
      = Ok (v1, log1)
    ∧ ∃ log2,
        load v1 "vocab.txt" "default"
             {["vocab.txt" := "a" +:+ String LF ("b" +:+ String LF "a")]}
        = Ok (v1, log2)
        ∧ length log2 = length log1 + (size v1 - size empty).
Proof.
  eexists _, _. split; [exact wf_empty|].
  split; [vm_compute; reflexivity|].
  apply (load_twice empty "vocab.txt" "default" _ _ _ wf_empty).
  vm_compute. reflexivity.
Defined.

Lemma load_loop_returns file_format path lines : ∀ i v log entries,
  read_tokens file_format i lines = Ok entries →
  ∃ r, load_loop file_format path i lines v log = Ok r.
Proof.
  induction lines as [|line lines IH]; intros i v log entries; simpl.
  - by eexists.
  - destruct (read_token file_format (rstrip CRLF line)) as [[token|]|e];
      [| |done].
    + destruct (read_tokens file_format (S i) lines) as [es|e] eqn:E;
        [|done].
      intros _. destruct (_token_to_id v !! token); by eapply IH.
    + intros E. by eapply IH.
Qed.

Lemma read_tokens_default_returns lines i :
  ∃ entries, read_tokens "default" i lines = Ok entries.
Proof. rewrite read_tokens_default. by eexists. Qed.

Lemma read_token_sentencepiece line :
  (∃ r, read_token "sentencepiece" line = Ok r)
  ↔ length (split_char TAB line) = 2.
Proof.
  unfold read_token. simpl.
  destruct (split_char TAB line) as [|a [|b [|c l]]]; simpl.
  - split; [by intros [? ?] | done].
  - split; [by intros [? ?] | done].
  - split; [done|]. intros _. destruct (sentencepiece_reserved a); by eexists.
  - split; [by intros [? ?] | done].
Qed.

Lemma read_token_sentencepiece_raises line e :
  read_token "sentencepiece" line = Raise e → e = ValueError.
Proof.
  unfold read_token. simpl.
  destruct (split_char TAB line) as [|a [|b [|c l]]]; simpl;
    try (by intros [= <-]).
  by destruct (sentencepiece_reserved a).
Qed.

Lemma read_tokens_sentencepiece lines : ∀ i,
  (∃ entries, read_tokens "sentencepiece" i lines = Ok entries)
  ↔ Forall two_fields lines.
Proof.
  induction lines as [|line lines IH]; intros i; simpl.
  - split; [constructor | by eexists].
  - rewrite Forall_cons. unfold two_fields at 1.
    rewrite <- read_token_sentencepiece, <- (IH (S i)).
    destruct (read_token "sentencepiece" (rstrip CRLF line)) as [[token|]|e].
    + destruct (read_tokens "sentencepiece" (S i) lines) as [es|e]; simpl.
      * split; [intros _; split; by eexists | by eexists].
      * split; [by intros [? ?] | by intros [_ [? ?]]].
    + split; [intros ?; split; [by eexists | done] | by intros [_ ?]].
    + split; [by intros [? ?] | by intros [[? ?] _]].
Qed.

Lemma read_tokens_sentencepiece_raises lines : ∀ i e,
  read_tokens "sentencepiece" i lines = Raise e → e = ValueError.
Proof.
  induction lines as [|line lines IH]; intros i e; simpl; [done|].
  destruct (read_token "sentencepiece" (rstrip CRLF line)) as [[token|]|e']
    eqn:E.
  - destruct (read_tokens "sentencepiece" (S i) lines) as [es|e'] eqn:E';
      simpl; [done|].
    intros [= <-]. by eapply IH.
  - apply IH.
  - intros [= <-]. by eapply read_token_sentencepiece_raises.
Qed.

Lemma split_char_length sep s :
  length (split_char sep s) = S (count_char sep s).
Proof.
  induction s as [|c s IH]; simpl; [done|].
  case_bool_decide; simpl; [by rewrite IH|].
  destruct (split_char sep s); simpl in *; lia.
Qed.

Lemma two_fields_count lines :
  Forall file_safe lines →
  Forall two_fields lines ↔ Forall (λ line, count_char TAB line = 1) lines.
Proof.
  intros Hsafe. rewrite !Forall_forall. rewrite Forall_forall in Hsafe.
  split; intros Hall line Hin; specialize (Hall line Hin);
    specialize (Hsafe line Hin); unfold two_fields in *;
    rewrite rstrip_file_safe, split_char_length in *; (done || lia).
Qed.

(** When [load] returns and what it raises. An unknown format is rejected
    with [ValueError] before the file is looked at; a missing file is
    [NotFoundError]; an existing file in the format "default" always loads;
    in the format "sentencepiece" a text file (lines free of line feeds and
    carriage returns, line ends ["\n"] or ["\r\n"], the last line with
    or without line end) loads exactly when every line holds one tab, and
    is rejected with [ValueError] otherwise. *)
Theorem load_outcome v path (fs : files) :
  (∀ file_format,
     file_format ≠ "default" → file_format ≠ "sentencepiece" →
     load v path file_format fs = Raise ValueError)
  ∧ (∀ file_format,
       file_format = "default" ∨ file_format = "sentencepiece" →
       fs !! path = None →
       load v path file_format fs = Raise NotFoundError)
  ∧ (∀ content, fs !! path = Some content →
       ∃ r, load v path "default" fs = Ok r)
  ∧ (∀ eol lines last,
       line_end eol → Forall file_safe lines → file_safe last →
       fs !! path = Some (text_file eol lines last) →
       (Forall (λ line, count_char TAB line = 1) (file_lines lines last) →
        ∃ r, load v path "sentencepiece" fs = Ok r)
       ∧ (¬ Forall (λ line, count_char TAB line = 1) (file_lines lines last) →
          load v path "sentencepiece" fs = Raise ValueError)).
Proof.
  split; [|split; [|split]].
  - intros ff H1 H2. unfold load.
    by rewrite !bool_decide_eq_false_2 by done.
  - intros ff [-> | ->] Hnone; unfold load; simpl; by rewrite Hnone.
  - intros content Hfile. unfold load. simpl. rewrite Hfile.
    destruct (read_tokens_default_returns (readlines content) 0)
      as [entries Hread].
    by eapply load_loop_returns.
  - intros eol lines last Heol Hlines Hlast Hfile.
    rewrite (load_text_file v path "sentencepiece" fs eol lines last)
      by (done || by right).
    pose proof (file_lines_safe _ _ Hlines Hlast) as Hsafe.
    rewrite <- (two_fields_count _ Hsafe).
    split.
    + intros Hall. apply (read_tokens_sentencepiece _ 0) in Hall as [es Hread].
      by eapply load_loop_returns.
    + intros Hall.
      destruct (read_tokens "sentencepiece" 0 (file_lines lines last))
        as [es|e] eqn:Hread.
      * exfalso. apply Hall. apply (read_tokens_sentencepiece _ 0).
        by eexists.
      * pose proof (read_tokens_sentencepiece_raises _ _ _ Hread) as ->.
        by apply load_loop_raises.
Qed.

Lemma load_outcome_witness :
  load empty "vocab.txt" "json" ∅ = Raise ValueError
  ∧ load empty "vocab.txt" "default" ∅ = Raise NotFoundError
  ∧ load empty "vocab.txt" "sentencepiece"
      {["vocab.txt" := text_file CRLF ["a" +:+ String TAB "-1"; "b"] ""]}
    = Raise ValueError
  ∧ ∃ r, load empty "vocab.txt" "sentencepiece"
           {["vocab.txt" :=
               text_file CRLF ["a" +:+ String TAB "-1"] ("b" +:+ String TAB "-2")]}
         = Ok r.
Proof.
  destruct (load_outcome empty "vocab.txt" ∅) as (H1 & H2 & _).
  destruct (load_outcome empty "vocab.txt"
              {["vocab.txt" :=
                  text_file CRLF ["a" +:+ String TAB "-1"; "b"] ""]})
    as (_ & _ & _ & H3).
  destruct (load_outcome empty "vocab.txt"
              {["vocab.txt" :=
                  text_file CRLF ["a" +:+ String TAB "-1"]
                            ("b" +:+ String TAB "-2")]})
    as (_ & _ & _ & H4).
  split; [apply H1; discriminate|].
  split; [apply H2; [by left | reflexivity]|].
  split.
  - destruct (H3 CRLF ["a" +:+ String TAB "-1"; "b"] "") as [_ Hraise];
      [by right | repeat constructor | by split | reflexivity |].
    apply Hraise. intros Hall.
    apply Forall_cons in Hall as [_ Hall].
    apply Forall_cons in Hall as [Hline _]. vm_compute in Hline. discriminate.
  - destruct (H4 CRLF ["a" +:+ String TAB "-1"] ("b" +:+ String TAB "-2"))
      as [Hok _];
      [by right | repeat constructor | by split | reflexivity |].
    apply Hok. repeat constructor.
Defined.

Lemma split_char_no_sep sep s :
  Forall (λ field, char_in sep field = false) (split_char sep s).
Proof.
  induction s as [|c s IH]; simpl; [by repeat constructor|].
  case_bool_decide as Hc; [by constructor|].
  destruct (split_char sep s) as [|w ws]; [repeat constructor; simpl|].
  - rewrite bool_decide_eq_false_2 by congruence. done.
  - apply Forall_cons in IH as [Hw Hws]. constructor; [|done]. simpl.
    rewrite bool_decide_eq_false_2 by congruence. done.
Qed.

Lemma load_loop_added file_format path lines : ∀ i v log v' log' token,
  load_loop file_format path i lines v log = Ok (v', log') →
  token ∈ _id_to_token v' →
  token ∈ _id_to_token v
  ∨ ∃ line, line ∈ lines
            ∧ read_token file_format (rstrip CRLF line) = Ok (Some token).
Proof.
  induction lines as [|line lines IH]; intros i v log v' log' token; simpl.
  - intros [= <- _] Hin. by left.
  - destruct (read_token file_format (rstrip CRLF line)) as [[t|]|e] eqn:E;
      [| |done].
    + destruct (_token_to_id v !! t).
      * intros Hload Hin.
        destruct (IH _ _ _ _ _ _ Hload Hin) as [?|(l & Hl & Hr)]; [by left|].
        right. exists l. split; [by right | done].
      * intros Hload Hin.
        destruct (IH _ _ _ _ _ _ Hload Hin) as [Hold|(l & Hl & Hr)]; simpl in *.
        -- apply elem_of_app in Hold as [?| ->%list_elem_of_singleton];
             [by left|].
           right. exists line. split; [left | done].
        -- right. exists l. split; [by right | done].
    + intros Hload Hin.
      destruct (IH _ _ _ _ _ _ Hload Hin) as [?|(l & Hl & Hr)]; [by left|].
      right. exists l. split; [by right | done].
Qed.

(** Loading a SentencePiece vocabulary never adds one of the reserved
    tokens [<unk>], [<s>], [</s>], and never a token with a tab in it. *)
Theorem load_sentencepiece_skips_reserved v path (fs : files) v' log token :
  load v path "sentencepiece" fs = Ok (v', log) →
  token ∈ _id_to_token v' → token ∉ _id_to_token v →
  token ≠ "<unk>" ∧ token ≠ "<s>" ∧ token ≠ "</s>"
  ∧ char_in TAB token = false.
Proof.
  unfold load. simpl. destruct (fs !! path) as [content|]; [|done].
  intros Hload Hin Hnew.
  destruct (load_loop_added _ _ _ _ _ _ _ _ _ Hload Hin)
    as [?|(line & _ & Hread)]; [done|].
  revert Hread. unfold read_token. simpl.
  pose proof (split_char_no_sep TAB (rstrip CRLF line)) as Hsep.
  destruct (split_char TAB (rstrip CRLF line)) as [|a [|b [|c l]]];
    try done.
  destruct (sentencepiece_reserved a) eqn:Hres; [done|].
  intros [= ->]. apply Forall_cons in Hsep as [Hsep _].
  unfold sentencepiece_reserved in Hres.
  apply orb_false_elim in Hres as [Hres H3].
  apply orb_false_elim in Hres as [H1 H2].
  apply bool_decide_eq_false in H1, H2, H3. done.
Qed.

Lemma load_sentencepiece_skips_reserved_witness :
  ∃ v' log,
    load empty "sp.vocab" "sentencepiece"
         {["sp.vocab" := "<unk>" +:+ String TAB "0"
                         +:+ String LF ("a" +:+ String TAB "-1")]}
    = Ok (v', log)
    ∧ "a" ∈ _id_to_token v' ∧ ("a" ∉ _id_to_token empty)
    ∧ "a" ≠ "<unk>" ∧ "a" ≠ "<s>" ∧ "a" ≠ "</s>"
    ∧ char_in TAB "a" = false.
Proof.
  assert (load empty "sp.vocab" "sentencepiece"
            {["sp.vocab" := "<unk>" +:+ String TAB "0"
                            +:+ String LF ("a" +:+ String TAB "-1")]}
          = Ok (mk {["a" := 0]} ["a"] [Fin 1], [])) as Hload
    by (vm_compute; reflexivity).
  assert ("a" ∈ _id_to_token (mk {["a" := 0]} ["a"] [Fin 1])) as Hin
    by (simpl; left).
  assert ("a" ∉ _id_to_token empty) as Hnew by apply not_elem_of_nil.
  eexists _, _. split; [exact Hload|].
  split; [exact Hin|]. split; [exact Hnew|].
  exact (load_sentencepiece_skips_reserved _ _ _ _ _ _ Hload Hin Hnew).
Defined.

(** A file with Windows line ends loads like the same file with Unix line
    ends: for tokens without a line feed and without a trailing carriage
    return or line feed, the two files give the same result, including the
    warnings. *)
Theorem load_crlf_as_lf v path file_format (fs : files) tokens :
  Forall line_safe tokens →
  load v path file_format (<[path := text_lines CRLF tokens]> fs)
  = load v path file_format
         (<[path := text_lines (String LF EmptyString) tokens]> fs).
Proof.
  intros _. unfold load. destruct (negb _); [done|].
  rewrite !lookup_insert_eq. unfold readlines.
  rewrite (drop_cr_text_lines CRLF) by (by right).
  by rewrite (drop_cr_text_lines (String LF EmptyString)) by (by left).
Qed.

Lemma load_crlf_as_lf_witness :
  load empty "vocab.txt" "default" {["vocab.txt" := text_lines CRLF ["a"; "b"]]}
  = load empty "vocab.txt" "default"
         {["vocab.txt" := text_lines (String LF EmptyString) ["a"; "b"]]}.
Proof.
  apply (load_crlf_as_lf empty "vocab.txt" "default" ∅ ["a"; "b"]).
  by repeat constructor.
Defined.

End LoadMore.

(** ** More about [pad_to_multiple] *)

Section PadMore.
Import Vocab VocabSpec.

Lemma mod_opp_r_zero (x m : Z) : (x `mod` (- m) = 0 ↔ x `mod` m = 0)%Z.
Proof.
  destruct (decide (m = 0%Z)) as [-> | Hm]; [done|].
  rewrite !Z.mod_divide by lia. apply Z.divide_opp_l.
Qed.

Lemma pad_loop_opp fuel : ∀ v (multiple num_oov_buckets : Z) i,
  pad_loop fuel v (- multiple) num_oov_buckets i
  = pad_loop fuel v multiple num_oov_buckets i.
Proof.
  induction fuel as [|fuel IH]; intros v m b i; simpl; [done|].
  rewrite (bool_decide_ext (- m = 0)%Z (m = 0)%Z) by lia.
  rewrite (bool_decide_ext
             ((Z.of_nat (size v) + b) `mod` (- m) ≠ 0)%Z
             ((Z.of_nat (size v) + b) `mod` m ≠ 0)%Z)
    by (by rewrite mod_opp_r_zero).
  destruct (bool_decide (m = 0%Z)); [done|].
  destruct (bool_decide _); [|done].
  destruct (add v (filler i)); [apply IH | done].
Qed.

(** The sign of [multiple] does not matter: Python's [%] is zero for a
    divisor exactly when it is zero for its opposite, so that padding to a
    multiple of [-m] is padding to a multiple of [m]. *)
Theorem pad_to_multiple_negative fuel v (multiple num_oov_buckets : Z) :
  pad_to_multiple fuel v (- multiple) num_oov_buckets
  = pad_to_multiple fuel v multiple num_oov_buckets.
Proof. apply pad_loop_opp. Qed.

Lemma add_size v token v' :
  add v token = Ok v' →
  match _token_to_id v !! token with
  | Some _ => size v' = size v
  | None => size v' = S (size v)
  end.
Proof.
  unfold add, size. destruct (_token_to_id v !! token) as [k|].
  - destruct (_frequency v !! k); [|done]. by intros [= <-].
  - intros [= <-]. simpl. rewrite length_app. simpl. lia.
Qed.

Lemma pad_loop_count (m b : Z) (Hm : (0 < m)%Z) : ∀ fuel v i v',
  pad_loop fuel v m b i = Some (Ok v') →
  size v' = size v + Z.to_nat ((- (Z.of_nat (size v) + b)) `mod` m)
  ∧ ((Z.of_nat (size v') + b) `mod` m = 0)%Z.
Proof.
  induction fuel as [|fuel IH]; intros v i v'; simpl; [done|].
  rewrite bool_decide_eq_false_2 by lia.
  case_bool_decide as Hmod.
  - destruct (add v (filler i)) as [v1|e] eqn:Hadd; [|done].
    intros Hrun. destruct (IH _ _ _ Hrun) as [Hcount Hdone].
    split; [|done]. rewrite Hcount.
    pose proof (add_size _ _ _ Hadd) as Hsize.
    destruct (_token_to_id v !! filler i).
    + by rewrite Hsize.
    + rewrite Hsize.
      pose proof (remaining_step m _ Hm Hmod) as Hstep.
      replace (Z.of_nat (S (size v)) + b)%Z
        with (Z.of_nat (size v) + b + 1)%Z by lia.
      lia.
  - intros [= <-]. split; [|done].
    apply Z.mod_opp_l_z in Hmod; [|lia]. rewrite Hmod. simpl. lia.
Qed.

(** When [pad_to_multiple] returns for a positive [multiple], it has added
    exactly [(-(size + num_oov_buckets)) % multiple] entries, the least
    number that makes [size + num_oov_buckets] a multiple, which is less
    than [multiple]; a second call on the result adds nothing. *)
Theorem pad_to_multiple_count v (multiple num_oov_buckets : Z) fuel v' :
  (0 < multiple)%Z →
  pad_to_multiple fuel v multiple num_oov_buckets = Some (Ok v') →
  size v'
  = size v
    + Z.to_nat ((- (Z.of_nat (size v) + num_oov_buckets)) `mod` multiple)
  ∧ (∀ n, size v ≤ n < size v' →
          ((Z.of_nat n + num_oov_buckets) `mod` multiple ≠ 0)%Z)
  ∧ (Z.of_nat (size v') - Z.of_nat (size v) < multiple)%Z
  ∧ ∀ fuel', pad_to_multiple (S fuel') v' multiple num_oov_buckets
             = Some (Ok v').
Proof.
  intros Hm Hrun.
  destruct (pad_loop_count multiple num_oov_buckets Hm _ _ _ _ Hrun)
    as [Hcount Hdone].
  pose proof (Z.mod_pos_bound (- (Z.of_nat (size v) + num_oov_buckets))
                multiple Hm) as Hbound.
  split; [done|]. split; [|split; [lia|]].
  - intros n Hn Hzero.
    set (x := (Z.of_nat (size v) + num_oov_buckets)%Z) in *.
    set (r := ((- x) `mod` multiple)%Z) in *.
    assert ((x + r) `mod` multiple = 0)%Z as Hxr.
    { replace (x + r)%Z with (Z.of_nat (size v') + num_oov_buckets)%Z; [done|].
      unfold x. lia. }
    set (d := (Z.of_nat n - Z.of_nat (size v))%Z).
    assert (0 ≤ d < r)%Z as Hd by (unfold d; lia).
    assert ((x + d) `mod` multiple = 0)%Z as Hxd.
    { replace (x + d)%Z with (Z.of_nat n + num_oov_buckets)%Z; [done|].
      unfold x, d. lia. }
    apply Z.mod_divide in Hxr as [q1 Hq1]; [|lia].
    apply Z.mod_divide in Hxd as [q2 Hq2]; [|lia].
    assert (r - d = (q1 - q2) * multiple)%Z as Hdiff by lia.
    assert (0 < r - d < multiple)%Z as Hrange by lia.
    destruct (Z.le_gt_cases (q1 - q2) 0); nia.
  - intros fuel'. unfold pad_to_multiple. simpl.
    rewrite bool_decide_eq_false_2 by lia.
    by rewrite bool_decide_eq_false_2 by (intros H; by apply H).
Qed.

Lemma pad_to_multiple_count_witness :
  ∃ v',
    pad_to_multiple 5 (mk {["a" := 0]} ["a"] [Fin 1]) 4 1 = Some (Ok v')
    ∧ size v' = 3.
Proof.
  eexists. split; [vm_compute; reflexivity|].
  apply (pad_to_multiple_count (mk {["a" := 0]} ["a"] [Fin 1]) 4 1 5);
    [lia | vm_compute; reflexivity].
Defined.

End PadMore.

(** ** Which maximum [tf.argmax] takes, and what the replacement keeps *)

Section ReplaceMore.
Import Seq2Seq Seq2SeqSpec.

Lemma argmax_from_first row : ∀ seen best best_w,
  seen !! best = Some best_w →
  (∀ j w, j < best → seen !! j = Some w → (w < best_w)%Q) →
  (∀ j w, seen !! j = Some w → (w <= best_w)%Q) →
  ∃ w, (seen ++ row) !! argmax_from best best_w (length seen) row = Some w
       ∧ ∀ j w', j < argmax_from best best_w (length seen) row →
                 (seen ++ row) !! j = Some w' → (w' < w)%Q.
Proof.
  induction row as [|w row IH]; intros seen best best_w Hbest Hfirst Hmax;
    simpl.
  - rewrite app_nil_r. by exists best_w.
  - replace (seen ++ w :: row) with ((seen ++ [w]) ++ row)
      by (by rewrite <- app_assoc).
    replace (S (length seen)) with (length (seen ++ [w]))
      by (rewrite length_app; simpl; lia).
    pose proof (lookup_lt_Some _ _ _ Hbest) as Hlt.
    destruct (Qlt_b best_w w) eqn:E.
    + apply Qlt_b_true in E. apply IH.
      * by rewrite list_lookup_middle.
      * intros j w' Hj Hw'. rewrite lookup_app_l in Hw' by done.
        eapply Qle_lt_trans; [by eapply Hmax | done].
      * intros j w' Hj. apply lookup_app_Some in Hj as [Hj|[_ Hj]].
        -- apply Qlt_le_weak. eapply Qle_lt_trans; [by eapply Hmax | done].
        -- apply list_lookup_singleton_Some in Hj as [_ <-]. apply Qle_refl.
    + apply Qlt_b_false in E. apply IH.
      * by apply lookup_app_l_Some.
      * intros j w' Hj Hw'. rewrite lookup_app_l in Hw' by lia.
        by eapply Hfirst.
      * intros j w' Hj. apply lookup_app_Some in Hj as [Hj|[_ Hj]].
        -- by eapply Hmax.
        -- by apply list_lookup_singleton_Some in Hj as [_ <-].
Qed.

Lemma argmax_first row j :
  argmax row = Ok j →
  ∃ w, row !! j = Some w
       ∧ ∀ j' w', j' < j → row !! j' = Some w' → (w' < w)%Q.
Proof.
  destruct row as [|w row]; simpl; [done|]. intros [= <-].
  apply (argmax_from_first row [w] 0 w); [done| |].
  - intros j w' Hj. lia.
  - intros [|j] w' Hj; [|done]. injection Hj as <-. apply Qle_refl.
Qed.

Lemma at2_lt {A} B T (x : list (list A)) b t a :
  shape2 B T x → at2 x b t = Some a → b < B ∧ t < T.
Proof.
  intros [HB Hrows] (row & Hrow & Ha)%at2_Some.
  rewrite Forall_lookup in Hrows.
  pose proof (Hrows _ _ Hrow) as Hlen.
  apply lookup_lt_Some in Hrow, Ha. lia.
Qed.

Lemma at2_shape {A} B T (x : list (list A)) b t :
  shape2 B T x → b < B → t < T → ∃ a, at2 x b t = Some a.
Proof.
  intros [HB Hrows] Hb Ht.
  destruct (lookup_lt_is_Some_2 x b) as [row Hrow]; [lia|].
  rewrite Forall_lookup in Hrows.
  pose proof (Hrows _ _ Hrow) as Hlen.
  destruct (lookup_lt_is_Some_2 row t) as [a Ha]; [lia|].
  exists a. apply at2_Some. by exists row.
Qed.

Lemma shape2_ext {A} B T (x y : list (list A)) :
  shape2 B T x → shape2 B T y →
  (∀ b t a, at2 x b t = Some a → at2 y b t = Some a) → x = y.
Proof.
  intros [HBx Hx] [HBy Hy] Hpt.
  apply (list_eq_same_length _ _ B); [done..|].
  intros b rx ry Hb Hrx Hry.
  rewrite Forall_lookup in Hx. rewrite Forall_lookup in Hy.
  apply (list_eq_same_length _ _ T); [by eapply Hy | by eapply Hx |].
  intros t a a' Ht Ha Ha'.
  assert (at2 y b t = Some a) as Hyt.
  { apply Hpt. apply at2_Some. by exists rx. }
  apply at2_Some in Hyt as (ry' & Hry' & Ha''). congruence.
Qed.

Lemma replace_unknown_target_identity B Tt Ts
    (target_tokens source_tokens : list (list string))
    (attention : list (list (list Q))) (unknown_token : string) :
  shape2 B Tt target_tokens → shape2 B Ts source_tokens →
  shape3 B Tt Ts attention → 0 < Ts →
  (∀ b t token, at2 target_tokens b t = Some token → token ≠ unknown_token) →
  replace_unknown_target target_tokens source_tokens attention unknown_token
  = Ok target_tokens.
Proof.
  intros Ht Hs Ha HTs Hnone.
  destruct (replace_unknown_target_batch B Tt Ts target_tokens source_tokens
              attention unknown_token Ht Hs Ha HTs) as (out & -> & Hout & Hpt).
  f_equal. symmetry. apply (shape2_ext B Tt); [done..|].
  intros b t token Htoken. specialize (Hpt b t token Htoken).
  by rewrite bool_decide_eq_false_2 in Hpt by by eapply Hnone.
Qed.

(** A replaced unknown token is the source token at the first position of
    the largest weight of its attention row: every weight of the row is at
    most the weight there, and every weight before it is smaller. *)
Theorem replace_unknown_target_first_max B Tt Ts
    (target_tokens source_tokens : list (list string))
    (attention : list (list (list Q))) (unknown_token : string) :
  shape2 B Tt target_tokens → shape2 B Ts source_tokens →
  shape3 B Tt Ts attention → 0 < Ts →
  ∃ out,
    replace_unknown_target target_tokens source_tokens attention
                           unknown_token = Ok out
    ∧ ∀ b t, at2 target_tokens b t = Some unknown_token →
        ∃ row j w src,
          at2 attention b t = Some row
          ∧ row !! j = Some w
          ∧ (∀ j' w', row !! j' = Some w' → (w' <= w)%Q)
          ∧ (∀ j' w', j' < j → row !! j' = Some w' → (w' < w)%Q)
          ∧ at2 source_tokens b j = Some src
          ∧ at2 out b t = Some src.
Proof.
  intros Ht Hs Ha HTs.
  destruct (replace_unknown_target_batch B Tt Ts target_tokens source_tokens
              attention unknown_token Ht Hs Ha HTs) as (out & Hout & _ & Hpt).
  exists out. split; [done|]. intros b t Hunk.
  specialize (Hpt b t unknown_token Hunk).
  rewrite bool_decide_eq_true_2 in Hpt by done.
  destruct Hpt as (row & j & src & Hrow & Hj & (w & Hw & Hmax) & Hsrc & Ho).
  destruct (argmax_first row j Hj) as (w' & Hw' & Hfirst).
  assert (w' = w) as -> by congruence.
  by exists row, j, w, src.
Qed.

Lemma replace_unknown_target_first_max_witness :
  ∃ out,
    replace_unknown_target [["<unk>"]] [["a"; "b"; "c"]]
      [[ [1#5; 2#5; 2#5]%Q ]] "<unk>" = Ok out
    ∧ ∀ b t, at2 [["<unk>"]] b t = Some "<unk>" →
        ∃ row j w src,
          at2 [[ [1#5; 2#5; 2#5]%Q ]] b t = Some row
          ∧ row !! j = Some w
          ∧ (∀ j' w', row !! j' = Some w' → (w' <= w)%Q)
          ∧ (∀ j' w', j' < j → row !! j' = Some w' → (w' < w)%Q)
          ∧ at2 [["a"; "b"; "c"]] b j = Some src
          ∧ at2 out b t = Some src.
Proof.
  apply (replace_unknown_target_first_max 1 1 3).
  - split; [done|]. by repeat constructor.
  - split; [done|]. by repeat constructor.
  - split; [done|]. repeat constructor; done.
  - lia.
Defined.

(** Without an unknown token in the target, the target comes back as it
    is. *)
Theorem replace_unknown_target_without_unknown B Tt Ts
    (target_tokens source_tokens : list (list string))
    (attention : list (list (list Q))) (unknown_token : string) :
  shape2 B Tt target_tokens → shape2 B Ts source_tokens →
  shape3 B Tt Ts attention → 0 < Ts →
  (∀ b t token, at2 target_tokens b t = Some token → token ≠ unknown_token) →
  replace_unknown_target target_tokens source_tokens attention unknown_token
  = Ok target_tokens.
Proof. apply replace_unknown_target_identity. Qed.

Lemma replace_unknown_target_without_unknown_witness :
  replace_unknown_target [["le"; "chat"]] [["the"; "cat"; "sat"]]
    [[ [1#10; 7#10; 2#10]%Q; [3#10; 3#10; 4#10]%Q ]] "<unk>"
  = Ok [["le"; "chat"]].
Proof.
  apply (replace_unknown_target_without_unknown 1 2 3).
  - split; [done|]. by repeat constructor.
  - split; [done|]. by repeat constructor.
  - split; [done|]. repeat constructor; done.
  - lia.
  - intros [|[|b]] [|[|[|t]]] token; unfold at2; simpl; try done;
      by intros [= <-].
Defined.

(** When no source token is the unknown token, the result holds no unknown
    token, and a second replacement on it changes nothing. *)
Theorem replace_unknown_target_removes_unknown B Tt Ts
    (target_tokens source_tokens : list (list string))
    (attention : list (list (list Q))) (unknown_token : string) :
  shape2 B Tt target_tokens → shape2 B Ts source_tokens →
  shape3 B Tt Ts attention → 0 < Ts →
  (∀ b s token, at2 source_tokens b s = Some token → token ≠ unknown_token) →
  ∃ out,
    replace_unknown_target target_tokens source_tokens attention
                           unknown_token = Ok out
    ∧ (∀ b t token, at2 out b t = Some token → token ≠ unknown_token)
    ∧ replace_unknown_target out source_tokens attention unknown_token
      = Ok out.
Proof.
  intros Ht Hs Ha HTs Hsource.
  destruct (replace_unknown_target_batch B Tt Ts target_tokens source_tokens
              attention unknown_token Ht Hs Ha HTs) as (out & Hout & Hshape & Hpt).
  assert (∀ b t token, at2 out b t = Some token → token ≠ unknown_token)
    as Hclean.
  { intros b t token Hout_bt.
    destruct (at2_lt _ _ _ _ _ _ Hshape Hout_bt) as [Hb Hlt].
    destruct (at2_shape B Tt target_tokens b t Ht Hb Hlt) as [tok Htok].
    specialize (Hpt b t tok Htok). case_bool_decide as Hunk.
    - destruct Hpt as (row & j & src & _ & _ & _ & Hsrc & Ho).
      assert (token = src) as -> by congruence. by eapply Hsource.
    - congruence. }
  exists out. split; [done|]. split; [done|].
  by apply (replace_unknown_target_identity B Tt Ts).
Qed.

Lemma replace_unknown_target_removes_unknown_witness :
  ∃ out,
    replace_unknown_target [["<unk>"; "cat"]] [["the"; "cat"; "sat"]]
      [[ [1#10; 7#10; 2#10]%Q; [3#10; 3#10; 4#10]%Q ]] "<unk>" = Ok out
    ∧ (∀ b t token, at2 out b t = Some token → token ≠ "<unk>")
    ∧ replace_unknown_target out [["the"; "cat"; "sat"]]
        [[ [1#10; 7#10; 2#10]%Q; [3#10; 3#10; 4#10]%Q ]] "<unk>" = Ok out.
Proof.
  apply (replace_unknown_target_removes_unknown 1 2 3).
  - split; [done|]. by repeat constructor.
  - split; [done|]. by repeat constructor.
  - split; [done|]. repeat constructor; done.
  - lia.
  - intros [|[|b]] [|[|[|[|s]]]] token; unfold at2; simpl; try done;
      by intros [= <-].
Defined.

End ReplaceMore.

(** ** [mask_attention], alone and before the replacement *)

Section MaskAttention.
Import Seq2Seq Seq2SeqSpec Seq2SeqExt Seq2SeqExtSpec.

Lemma at3_Some {A} (x : list (list (list A))) b t s a :
  at3 x b t s = Some a
  ↔ ∃ rows row, x !! b = Some rows ∧ rows !! t = Some row ∧ row !! s = Some a.
Proof.
  unfold at3, at2. split.
  - destruct (x !! b) as [rows|] eqn:Hb; [|done]. simpl.
    destruct (rows !! t) as [row|] eqn:Ht; [|done]. simpl.
    intros Hs. by exists rows, row.
  - intros (rows & row & -> & Ht & Hs). simpl. by rewrite Ht.
Qed.


Lemma roll_left_length {A} (row : list A) :
  length (roll_left row) = length row.
Proof.
  destruct row as [|x rest]; simpl; [done|].
  rewrite length_app. simpl. lia.
Qed.

Lemma roll_left_lookup {A} (row : list A) s :
  s < length row →
  roll_left row !! s = row !! rolled_from true (length row) s.
Proof.
  destruct row as [|x rest]; simpl; [lia|]. intros Hs.
  unfold rolled_from. simpl.
  destruct (Nat.eqb_spec s (length rest)) as [-> | Hne].
  - by rewrite list_lookup_middle.
  - rewrite lookup_app_l by lia. done.
Qed.

Lemma sequence_mask_row_length len maxlen :
  length (sequence_mask_row len maxlen) = maxlen.
Proof. unfold sequence_mask_row. by rewrite length_fmap, length_seq. Qed.

Lemma sequence_mask_row_lookup len maxlen s :
  s < maxlen →
  sequence_mask_row len maxlen !! s
  = Some (if (Z.of_nat s <? len)%Z then 1%Q else 0%Q).
Proof.
  intros Hs. unfold sequence_mask_row.
  by rewrite list_lookup_fmap, lookup_seq_lt.
Qed.

Lemma masked_row_lookup (row : list Q) len s w :
  row !! s = Some w →
  zip_with Qmult row (sequence_mask_row len (length row)) !! s
  = Some (w * (if (Z.of_nat s <? len)%Z then 1 else 0))%Q.
Proof.
  intros Hw. rewrite lookup_zip_with, Hw. simpl.
  rewrite sequence_mask_row_lookup by (by eapply lookup_lt_Some). done.
Qed.

Lemma masked_row_length (row : list Q) len :
  length (zip_with Qmult row (sequence_mask_row len (length row)))
  = length row.
Proof. rewrite length_zip_with, sequence_mask_row_length. lia. Qed.

Lemma rolled_shape B Tt Ts (attention : list (list (list Q))) :
  shape3 B Tt Ts attention →
  shape3 B Tt Ts (map (map roll_left) attention).
Proof.
  intros [HB Hrows]. split; [by rewrite length_map|].
  apply Forall_fmap. eapply Forall_impl; [exact Hrows|]. simpl.
  intros rows [HT Hrow]. split; [by rewrite length_map|].
  apply Forall_fmap. eapply Forall_impl; [exact Hrow|]. simpl.
  intros row Hlen. by rewrite roll_left_length.
Qed.

Lemma rolled_at3 B Tt Ts (attention : list (list (list Q))) b t s w :
  shape3 B Tt Ts attention →
  at3 attention b t (rolled_from true Ts s) = Some w → s < Ts →
  at3 (map (map roll_left) attention) b t s = Some w.
Proof.
  intros [HB Hrows] (rows & row & Hr & Hrow & Hw)%at3_Some Hs.
  rewrite Forall_lookup in Hrows. destruct (Hrows _ _ Hr) as [_ Hall].
  rewrite Forall_lookup in Hall. pose proof (Hall _ _ Hrow) as Hlen.
  apply at3_Some. exists (map roll_left rows), (roll_left row).
  split; [by rewrite list_lookup_fmap, Hr|].
  split; [by rewrite list_lookup_fmap, Hrow|].
  rewrite roll_left_lookup by lia. by rewrite Hlen.
Qed.

Lemma rolled_from_lt source_has_bos Ts s :
  rolled_from source_has_bos Ts s < Ts → s < Ts.
Proof.
  unfold rolled_from. destruct source_has_bos; [|done].
  destruct (Nat.eqb_spec (S s) Ts); lia.
Qed.


Lemma masked_shape B Tt Ts (attention : list (list (list Q)))
    (source_length : list Z) :
  shape3 B Tt Ts attention → length source_length = B →
  shape3 B Tt Ts
    (zip_with
       (λ rows len,
          map (λ row, zip_with Qmult row (sequence_mask_row len (length row)))
              rows)
       attention source_length).
Proof.
  intros [HB Hrows] Hlen. split; [rewrite length_zip_with; lia|].
  apply Forall_lookup. intros b rows' Hb.
  apply lookup_zip_with_Some in Hb as (rows & len & -> & Hr & _).
  rewrite Forall_lookup in Hrows. destruct (Hrows _ _ Hr) as [HT Hrow].
  split; [by rewrite length_map|].
  apply Forall_fmap. eapply Forall_impl; [exact Hrow|]. simpl.
  intros row Hl. by rewrite masked_row_length.
Qed.

Lemma masked_at3 (attention : list (list (list Q))) (source_length : list Z)
    b t s len w :
  source_length !! b = Some len → at3 attention b t s = Some w →
  at3 (zip_with
         (λ rows len,
            map (λ row,
                   zip_with Qmult row (sequence_mask_row len (length row)))
                rows)
         attention source_length) b t s
  = Some (w * (if (Z.of_nat s <? len)%Z then 1 else 0))%Q.
Proof.
  intros Hlen (rows & row & Hr & Hrow & Hw)%at3_Some.
  apply at3_Some. eexists _, _.
  split; [rewrite lookup_zip_with, Hr; simpl; rewrite Hlen; done|].
  split; [by rewrite list_lookup_fmap, Hrow|].
  by apply masked_row_lookup.
Qed.

Lemma mask_attention_points B Tt Ts (attention : list (list (list Q)))
    (source_length : list Z) (source_has_bos source_has_eos : bool) :
  shape3 B Tt Ts attention → length source_length = B →
  source_has_bos || source_has_eos = true →
  ∃ out,
    mask_attention attention source_length source_has_bos source_has_eos
    = Ok out
    ∧ shape3 B Tt Ts out
    ∧ ∀ b t s len w,
        source_length !! b = Some len →
        at3 attention b t (rolled_from source_has_bos Ts s) = Some w →
        ∃ w', at3 out b t s = Some w'
              ∧ (w' == if (Z.of_nat s <? len)%Z then w else 0)%Q.
Proof.
  intros Hshape Hlen Hmark. unfold mask_attention.
  assert (negb source_has_bos && negb source_has_eos = false) as ->
    by (by destruct source_has_bos, source_has_eos).
  set (rolled := if source_has_bos then map (map roll_left) attention
                 else attention).
  assert (shape3 B Tt Ts rolled) as Hrolled.
  { unfold rolled. destruct source_has_bos; [by apply rolled_shape | done]. }
  unfold broadcast2.
  rewrite bool_decide_eq_true_2 by (destruct Hrolled as [-> _]; done).
  eexists. split; [done|]. split; [by apply masked_shape|].
  intros b t s len w Hb Hw.
  assert (s < Ts) as Hs.
  { apply (rolled_from_lt source_has_bos).
    apply at3_Some in Hw as (rows & row & Hr & Hrow & Hw).
    destruct Hshape as [_ Hrows]. rewrite Forall_lookup in Hrows.
    destruct (Hrows _ _ Hr) as [_ Hall]. rewrite Forall_lookup in Hall.
    pose proof (Hall _ _ Hrow). apply lookup_lt_Some in Hw. lia. }
  assert (at3 rolled b t s = Some w) as Hw'.
  { unfold rolled. destruct source_has_bos; [|done].
    by apply (rolled_at3 B Tt Ts). }
  rewrite (masked_at3 rolled source_length b t s len w Hb Hw').
  eexists. split; [done|].
  destruct (Z.of_nat s <? len)%Z; [apply Qmult_1_r | apply Qmult_0_r].
Qed.

(** With a start or an end mark on the source, [mask_attention] returns a
    tensor of the shape of the attention whose entry [s] of a row is zero
    from the source length of its batch element on and, below it, the
    weight of the position [s] (of the position [s + 1], past the end the
    first, when the source has a start mark). *)
Theorem mask_attention_spec B Tt Ts (attention : list (list (list Q)))
    (source_length : list Z) (source_has_bos source_has_eos : bool) :
  shape3 B Tt Ts attention → length source_length = B →
  source_has_bos || source_has_eos = true →
  ∃ out,
    mask_attention attention source_length source_has_bos source_has_eos
    = Ok out
    ∧ shape3 B Tt Ts out
    ∧ ∀ b t s len w,
        source_length !! b = Some len →
        at3 attention b t (rolled_from source_has_bos Ts s) = Some w →
        ∃ w', at3 out b t s = Some w'
              ∧ (w' == if (Z.of_nat s <? len)%Z then w else 0)%Q.
Proof. apply mask_attention_points. Qed.

Lemma mask_attention_spec_witness :
  ∃ out,
    mask_attention [[ [1#2; 1#4; 1#4]%Q ]] [1%Z] true true = Ok out
    ∧ shape3 1 1 3 out
    ∧ ∀ b t s len w,
        [1%Z] !! b = Some len →
        at3 [[ [1#2; 1#4; 1#4]%Q ]] b t (rolled_from true 3 s) = Some w →
        ∃ w', at3 out b t s = Some w'
              ∧ (w' == if (Z.of_nat s <? len)%Z then w else 0)%Q.
Proof.
  apply (mask_attention_spec 1 1 3); [|reflexivity..].
  split; [done|]. repeat constructor; done.
Defined.



End MaskAttention.

(** ** The keys of the predictions and the warning of [compute_loss] *)

Section PredictionKeys.
Import Seq2Seq.
Context {Ids Noise : Type}.
Variable lite_output : Z → Ids → Ids.
Variable add_noise :
  list (list (list string)) → list (list Z) → Noise →
  result (list (list (list string)) * list (list Z)).
Variable detokenize :
  list (list (list string)) → list (list Z) → list (list string).

Lemma restrict_hypotheses_dom (beam_size n : Z) predictions restricted :
  restrict_hypotheses beam_size n predictions = Ok restricted →
  dom restricted = dom predictions.
Proof.
  unfold restrict_hypotheses. destruct (0 <? n)%Z; [|by intros [= <-]].
  destruct (beam_size <? n)%Z; [done|]. intros [= <-]. apply dom_fmap_L.
Qed.

(** The keys of the predictions that [_dynamic_decode] returns: always
    [log_probs]; with an in-graph tokenizer only [text] besides; otherwise
    [tokens] and [length], and [alignment] exactly when the decoder
    returned one and no decoding noise was applied. *)
Theorem dynamic_decode_keys (p : params) in_graph target_tokens
    sampled_length log_probs alignment predictions :
  dynamic_decode_finish lite_output add_noise detokenize p in_graph
    (TargetTokens target_tokens) sampled_length log_probs alignment
  = Ok (Predictions predictions) →
  dom predictions
  = if in_graph then ({["log_probs"; "text"]} : gset string)
    else {["log_probs"; "tokens"; "length"]}
         ∪ match decoding_noise p, alignment with
           | None, Some _ => {["alignment"]}
           | _, _ => ∅
           end.
Proof.
  unfold dynamic_decode_finish.
  destruct (decoding_noise p) as [noise|]; simpl.
  - destruct (add_noise target_tokens sampled_length noise)
      as [[tokens lengths]|e]; simpl; [|done].
    destruct (restrict_hypotheses _ _ _) as [restricted|e] eqn:Hr;
      simpl; [|done].
    intros [= <-]. rewrite (restrict_hypotheses_dom _ _ _ _ Hr).
    destruct in_graph, alignment;
      rewrite ?dom_insert_L, dom_singleton_L; set_solver.
  - destruct (restrict_hypotheses _ _ _) as [restricted|e] eqn:Hr;
      simpl; [|done].
    intros [= <-]. rewrite (restrict_hypotheses_dom _ _ _ _ Hr).
    destruct in_graph, alignment;
      rewrite ?dom_insert_L, dom_singleton_L; set_solver.
Qed.

End PredictionKeys.

Section PredictionKeysExample.
Import Seq2Seq.

Lemma dynamic_decode_keys_witness :
  ∃ predictions,
    dynamic_decode_finish (Ids := list Z) (Noise := unit)
      (λ _ ids, ids) (λ tokens lengths _, Ok (tokens, lengths)) (λ _ _, [])
      (Params (Some 1%Z) (Some tt) (Some 1%Z)) false
      (TargetTokens [[["a"; "b"]]]) [[2%Z]] [[(-1 # 2)%Q]]
      (Some [[[ [1%Q]; [1%Q] ]]])
    = Ok (Predictions predictions)
    ∧ dom predictions = {["log_probs"; "tokens"; "length"]} ∪ ∅.
Proof.
  eexists. split; [reflexivity|].
  apply (dynamic_decode_keys (Ids := list Z) (Noise := unit)
           (λ _ ids, ids) (λ tokens lengths _, Ok (tokens, lengths))
           (λ _ _, []) (Params (Some 1%Z) (Some tt) (Some 1%Z)) false
           [[["a"; "b"]]] [[2%Z]] [[(-1 # 2)%Q]]
           (Some [[[ [1%Q]; [1%Q] ]]])).
  reflexivity.
Defined.

End PredictionKeysExample.

Section LossWarning.
Import Seq2Seq.
Context {Logits Labels Attention Loss Normalizer MaxMargin : Type}.
Variable max_margin_loss : Logits → Labels → Logits → Q → MaxMargin.
Variable cross_entropy_sequence_loss :
  Logits → Labels → Q → bool → bool → bool → Loss * Normalizer * Normalizer.
Variable guided_alignment_cost : Attention → Labels → string → Q → Loss.
Variable loss_add : Loss → Loss → Loss.
Variable has_alignment : Labels → bool.

(** [compute_loss] logs that guided alignment will not be applied exactly
    when it is training on the cross-entropy path, the labels hold gold
    alignments, a guided alignment type is configured and the model
    returned no attention; never outside training and never on the
    max-margin path. *)
Theorem compute_loss_warns_iff (p : loss_params) (o : outputs (Attention := Attention))
    (labels : Labels) (training : bool) :
  (compute_loss max_margin_loss cross_entropy_sequence_loss
                guided_alignment_cost loss_add has_alignment
                p o labels training).2 = true
  ↔ training = true
    ∧ has_alignment labels = true
    ∧ is_Some (guided_alignment_type p)
    ∧ attention o = None
    ∧ (noisy_logits o = None ∨ contrastive_learning p = false).
Proof.
  unfold compute_loss.
  destruct (cross_entropy_sequence_loss _ _ _ _ _ _) as [[loss n1] n2].
  destruct (noisy_logits o) as [noisy|], (contrastive_learning p),
    training, (has_alignment labels), (guided_alignment_type p) as [ty|],
    (attention o) as [a|]; simpl;
    (split; [try done; intros _ | try done; intros (? & ? & [? ?] & ? & [?|?]);
                                    done]);
    repeat split; eauto.
Qed.

End LossWarning.

(** ** [ScheduleWrapper.__call__] *)

Section ScheduleWrapperCall.
Import Seq2Seq LrSchedules.

Lemma wrap_small (bits z : Z) :
  (0 < bits)%Z → (- 2 ^ (bits - 1) ≤ z < 2 ^ (bits - 1))%Z →
  wrap bits z = z.
Proof.
  intros Hbits Hz. unfold wrap.
  assert (2 ^ bits = 2 * 2 ^ (bits - 1))%Z as ->.
  { replace bits with (Z.succ (bits - 1)) at 1 by lia.
    apply Z.pow_succ_r. lia. }
  rewrite Z.mod_small by lia. lia.
Qed.

Lemma tf_maximum_ge_r x y : (y <= tf_maximum x y)%Q.
Proof.
  unfold tf_maximum. destruct (Qlt_b x y) eqn:E; [apply Qle_refl|].
  by apply Qlt_b_false.
Qed.

Lemma tf_maximum_ge_l x y : (x <= tf_maximum x y)%Q.
Proof.
  unfold tf_maximum. destruct (Qlt_b x y) eqn:E; [|apply Qle_refl].
  by apply Qlt_le_weak, Qlt_b_true.
Qed.

Lemma tf_maximum_mono x x' y :
  (x <= x')%Q → (tf_maximum x y <= tf_maximum x' y)%Q.
Proof.
  intros Hx. unfold tf_maximum.
  destruct (Qlt_b x y) eqn:E, (Qlt_b x' y) eqn:E'.
  - apply Qle_refl.
  - by apply Qlt_b_false.
  - apply Qlt_b_false in E. apply Qlt_b_true in E'.
    exfalso. apply (Qlt_irrefl y).
    eapply Qle_lt_trans; [exact E|]. eapply Qle_lt_trans; [exact Hx | done].
  - done.
Qed.

Lemma call_value (bits : Z) (self : ScheduleWrapper) (step : Z) :
  (0 < bits)%Z → (0 < step_duration self)%Z →
  (- 2 ^ (bits - 1) ≤ step - step_start self < 2 ^ (bits - 1))%Z →
  call bits self step
  = Ok (tf_maximum
          (schedule self
             (Z.max (step - step_start self) 0 `div` step_duration self))
          (minimum_learning_rate self)).
Proof.
  intros Hbits Hd Hrange. unfold call.
  rewrite bool_decide_eq_false_2 by lia.
  rewrite (wrap_small bits (step - step_start self)) by done.
  rewrite wrap_small; [done | done |].
  assert (0 < 2 ^ (bits - 1))%Z by (apply Z.pow_pos_nonneg; lia).
  set (x := Z.max (step - step_start self) 0).
  assert (0 ≤ x < 2 ^ (bits - 1))%Z as Hx by (unfold x; lia).
  pose proof (Z.div_pos x (step_duration self)) as Hlow.
  assert (x `div` step_duration self ≤ x)%Z
    by (apply Z.div_le_upper_bound; nia).
  lia.
Qed.

(** The wrapper stretches and shifts the schedule: for a positive
    [step_duration] and a step whose distance to [step_start] fits the
    integer type, the training step [step_start + k * step_duration + r]
    with [0 <= r < step_duration] gets the learning rate of the schedule
    step [k], every step up to [step_start] that of the schedule step 0,
    and in both cases at least [minimum_learning_rate]. *)
Theorem schedule_wrapper_call (bits : Z) (self : ScheduleWrapper) :
  (0 < bits)%Z → (0 < step_duration self)%Z →
  (∀ k r, (0 ≤ k)%Z → (0 ≤ r < step_duration self)%Z →
          (k * step_duration self + r < 2 ^ (bits - 1))%Z →
          call bits self (step_start self + k * step_duration self + r)
          = Ok (tf_maximum (schedule self k) (minimum_learning_rate self)))
  ∧ (∀ step, (step ≤ step_start self)%Z →
             (- 2 ^ (bits - 1) ≤ step - step_start self)%Z →
             call bits self step
             = Ok (tf_maximum (schedule self 0)
                              (minimum_learning_rate self)))
  ∧ (∀ step lr,
       (- 2 ^ (bits - 1) ≤ step - step_start self < 2 ^ (bits - 1))%Z →
       call bits self step = Ok lr →
       (minimum_learning_rate self <= lr)%Q).
Proof.
  intros Hbits Hd.
  assert (0 < 2 ^ (bits - 1))%Z as Hpow by (apply Z.pow_pos_nonneg; lia).
  split; [|split].
  - intros k r Hk Hr Hfit. rewrite call_value; [|done|done|nia].
    do 3 f_equal.
    replace (step_start self + k * step_duration self + r - step_start self)%Z
      with (k * step_duration self + r)%Z by lia.
    rewrite Z.max_l by nia.
    symmetry. apply (Z.div_unique_pos _ _ k r); lia.
  - intros step Hstep Hlow. rewrite call_value; [|done|done|lia].
    by rewrite Z.max_r, Z.div_0_l by lia.
  - intros step lr Hrange. rewrite call_value by done.
    intros [= <-]. apply tf_maximum_ge_r.
Qed.

Lemma schedule_wrapper_call_witness :
  call 64 (mkScheduleWrapper (λ k, inject_Z (10 - k)) 100 8 (1 # 2)) 117
  = Ok (8 # 1)%Q.
Proof.
  destruct (schedule_wrapper_call 64
              (mkScheduleWrapper (λ k, inject_Z (10 - k)) 100 8 (1 # 2)))
    as (Hblock & _ & _); [simpl; lia..|].
  apply (Hblock 2 1)%Z; simpl; lia.
Defined.

(** The wrapper keeps a decay: when the schedule does not increase from
    step 0 on, the learning rate of a later training step is at most that
    of an earlier one. *)
Theorem schedule_wrapper_call_decays (bits : Z) (self : ScheduleWrapper)
    (step1 step2 : Z) lr1 lr2 :
  (0 < bits)%Z → (0 < step_duration self)%Z →
  (∀ a b, (0 ≤ a ≤ b)%Z → (schedule self b <= schedule self a)%Q) →
  (step1 ≤ step2)%Z →
  (- 2 ^ (bits - 1) ≤ step1 - step_start self)%Z →
  (step2 - step_start self < 2 ^ (bits - 1))%Z →
  call bits self step1 = Ok lr1 → call bits self step2 = Ok lr2 →
  (lr2 <= lr1)%Q.
Proof.
  intros Hbits Hd Hdecay Hsteps Hlow Hhigh.
  rewrite !call_value by (done || lia).
  intros [= <-] [= <-]. apply tf_maximum_mono, Hdecay. split.
  - apply Z.div_pos; lia.
  - apply Z.div_le_mono; lia.
Qed.

Lemma schedule_wrapper_call_decays_witness :
  ∃ lr1 lr2,
    call 64 (mkScheduleWrapper (λ k, inject_Z (10 - k)) 100 8 (1 # 2)) 90
    = Ok lr1
    ∧ call 64 (mkScheduleWrapper (λ k, inject_Z (10 - k)) 100 8 (1 # 2)) 117
      = Ok lr2
    ∧ (lr2 <= lr1)%Q.
Proof.
  eexists _, _. split; [reflexivity|]. split; [reflexivity|].
  apply (schedule_wrapper_call_decays 64
           (mkScheduleWrapper (λ k, inject_Z (10 - k)) 100 8 (1 # 2))
           90 117); simpl; try lia; try reflexivity.
  intros a b Hab. rewrite <- Zle_Qle. lia.
Defined.

(** With the defaults of [__init__] (start 0, duration 1, minimum 0) the
    wrapper is the schedule itself on the steps from 0 on, cut below
    at 0. *)
Theorem schedule_wrapper_defaults (bits : Z) (f : Z → Q) (step : Z) :
  (0 < bits)%Z → (0 ≤ step < 2 ^ (bits - 1))%Z →
  call bits (init f None None None) step = Ok (tf_maximum (f step) 0).
Proof.
  intros Hbits Hstep.
  rewrite call_value; simpl; [|done|lia|lia].
  by rewrite Z.sub_0_r, Z.max_l, Z.div_1_r by lia.
Qed.

Lemma schedule_wrapper_defaults_witness :
  call 32 (init (λ k, inject_Z (10 - k)) None None None) 3 = Ok (7 # 1)%Q.
Proof.
  apply (schedule_wrapper_defaults 32 (λ k, inject_Z (10 - k)) 3); simpl; lia.
Defined.

End ScheduleWrapperCall.

(** ** A vocabulary file, loaded and pruned *)

Section FromFilePrune.
Import Vocab VocabSpec VocabExt ExtSpec.

(** On frequencies that already decrease, whose entries past the first
    meet the threshold, [prune] only cuts at [max_size]. *)
Lemma prune_of_sorted v (max_size : Z) (min_frequency : freq) :
  wf v →
  (∀ i j f g,
     i < j → _frequency v !! i = Some f → _frequency v !! j = Some g →
     freq_lt f g = false) →
  (∀ i f, 0 < i → _frequency v !! i = Some f →
          freq_lt f min_frequency = false) →
  ∃ v',
    prune v max_size min_frequency = Ok v'
    ∧ _id_to_token v' = take (cap max_size (size v)) (_id_to_token v)
    ∧ _frequency v' = take (cap max_size (size v)) (_frequency v).
Proof.
  intros Hwf Hsorted Hthreshold.
  assert (length (_id_to_token v) ≤ length (_frequency v)) as Hle
    by (rewrite (wf_frequency v Hwf); lia).
  destruct (prune_spec v max_size min_frequency Hle)
    as (r & v' & Hprune & Hids & Hfreqs & _ & Hr & Hpos & Hbelow & _).
  exists v'. split; [done|].
  set (n := size v) in *.
  assert (length (_frequency v) = n) as Hfl by apply (wf_frequency v Hwf).
  assert (length (_id_to_token v) = n) as Htl by done.
  assert (sorted_ids v = seq 0 n) as Hseq.
  { symmetry. apply sorted_ids_unique; [done|].
    apply StronglySorted_seq. intros i j _ Hij Hj.
    destruct (lookup_lt_is_Some_2 (_frequency v) i) as [f Hf]; [lia|].
    destruct (lookup_lt_is_Some_2 (_frequency v) j) as [g Hg]; [lia|].
    unfold ranks_before. simpl.
    rewrite (list_lookup_total_correct _ _ _ Hf),
      (list_lookup_total_correct _ _ _ Hg).
    pose proof (Hsorted i j f g Hij Hf Hg) as Hfg.
    destruct (freq_lt g f) eqn:E; [by left|].
    right. split; [by apply freq_lt_total | done]. }
  rewrite Hseq in *.
  assert (r = n) as ->.
  { destruct (decide (r = n)) as [|Hne]; [done|]. exfalso.
    assert (0 < n) as Hn by lia. specialize (Hpos Hn).
    specialize (Hbelow r). rewrite lookup_total_seq_lt in Hbelow by lia.
    simpl in Hbelow.
    destruct (lookup_lt_is_Some_2 (_frequency v) r) as [f Hf]; [lia|].
    rewrite (list_lookup_total_correct _ _ _ Hf) in Hbelow.
    rewrite (Hthreshold r f) in Hbelow by (done || lia).
    assert (false = true) by (apply Hbelow; lia). done. }
  assert (cap max_size n ≤ n) as Hcap
    by (unfold cap; destruct (0 <? max_size)%Z; lia).
  rewrite Hids, Hfreqs.
  rewrite take_seq, Nat.min_l by done.
  split; apply lookup_total_seq; lia.
Qed.

Lemma load_loop_unit_frequency file_format path lines : ∀ i v log v' log',
  Forall (λ f, f = Fin 1) (_frequency v) →
  load_loop file_format path i lines v log = Ok (v', log') →
  Forall (λ f, f = Fin 1) (_frequency v').
Proof.
  induction lines as [|line lines IH]; intros i v log v' log' Hv; simpl.
  - by intros [= <- _].
  - destruct (read_token _ _) as [[token|]|]; [| |done].
    + destruct (_token_to_id v !! token); [by apply IH|].
      apply IH. simpl. apply Forall_app. split; [done|]. by constructor.
    + by apply IH.
Qed.

(** A vocabulary read by [from_file] and pruned with a threshold of at
    most 1 is the file cut at [max_size]: the first [max_size] entries, in
    the order and under the ids of the file (all of them for
    [max_size <= 0]). *)
Theorem from_file_then_prune path file_format (fs : files) v log
    (max_size : Z) (min_frequency : freq) :
  from_file path file_format fs = Ok (v, log) →
  freq_lt (Fin 1) min_frequency = false →
  ∃ v',
    prune v max_size min_frequency = Ok v'
    ∧ _id_to_token v'
      = (if (0 <? max_size)%Z
         then take (Z.to_nat max_size) (_id_to_token v)
         else _id_to_token v)
    ∧ ∀ token i, _token_to_id v' !! token = Some i →
                 _token_to_id v !! token = Some i.
Proof.
  unfold from_file. simpl. intros Hload Hmin.
  assert (proper empty) as Hempty.
  { split; [exact wf_empty|]. split; [constructor | constructor]. }
  destruct (load_proper _ _ _ _ _ _ Hempty Hload) as (Hwf & Hnd & _).
  assert (Forall (λ f, f = Fin 1) (_frequency v)) as Hunit.
  { revert Hload. unfold load. destruct (negb _); [done|].
    destruct (fs !! path) as [content|]; [|done].
    apply load_loop_unit_frequency. constructor. }
  rewrite Forall_lookup in Hunit.
  destruct (prune_of_sorted v max_size min_frequency Hwf)
    as (v' & Hprune & Hids & _).
  { intros i j f g _ Hf Hg.
    rewrite (Hunit _ _ Hf), (Hunit _ _ Hg). apply freq_lt_irrefl. }
  { intros i f _ Hf. by rewrite (Hunit _ _ Hf). }
  exists v'. split; [done|].
  assert (_id_to_token v' = take (cap max_size (size v)) (_id_to_token v)
          → _id_to_token v'
            = (if (0 <? max_size)%Z
               then take (Z.to_nat max_size) (_id_to_token v)
               else _id_to_token v)) as Hcap.
  { intros ->. unfold cap, size.
    destruct (Z.ltb_spec 0 max_size) as [Hpos|_]; [|by rewrite firstn_all].
    destruct (Z.le_gt_cases (Z.of_nat (length (_id_to_token v))) max_size).
    - rewrite Z.min_l, Nat2Z.id, firstn_all by done.
      symmetry. apply take_ge. lia.
    - by rewrite Z.min_r by lia. }
  split; [by apply Hcap|].
  intros token i Hi.
  pose proof (prune_wf _ _ _ _ Hprune) as Hwf'.
  apply (wf_token_to_id v' Hwf') in Hi.
  rewrite Hids in Hi. apply lookup_take_Some in Hi as [Hi _].
  destruct (wf_id_to_token v Hwf token) as [j Hj];
    [by eapply list_elem_of_lookup_2|].
  pose proof (wf_token_to_id v Hwf _ _ Hj) as Hj'.
  by rewrite (NoDup_lookup _ _ _ _ Hnd Hi Hj').
Qed.

Lemma from_file_then_prune_witness :
  ∃ v log v',
    from_file "vocab.txt" "default"
      {["vocab.txt" := "a" +:+ String LF ("b" +:+ String LF "c")]}
    = Ok (v, log)
    ∧ prune v 2 (Fin 1) = Ok v'
    ∧ _id_to_token v' = take 2 (_id_to_token v).
Proof.
  destruct (from_file_then_prune "vocab.txt" "default"
              {["vocab.txt" := "a" +:+ String LF ("b" +:+ String LF "c")]}
              (mk {["a" := 0; "b" := 1; "c" := 2]} ["a"; "b"; "c"]
                  [Fin 1; Fin 1; Fin 1]) [] 2 (Fin 1))
    as (v' & Hprune & Hids & _); [vm_compute; reflexivity | reflexivity |].
  eexists _, _, v'. split; [vm_compute; reflexivity|].
  split; [exact Hprune | exact Hids].
Defined.

End FromFilePrune.
